(** * difpipe: batched tar pipeline, analyzer and exit codes

    A shallow embedding of the Go sources of difpipe (packages [batch],
    [analyzer] and [core]) together with the properties its design
    document states about them.

    Conventions.
    - Go's [int64] (and [int], taken as 64 bit) is a [Z] kept in range by
      [wrap64]; every arithmetic operation of the source is written with
      its wrap-around.
    - Go strings are [string] (sequences of bytes).
    - Everything the code obtains from the outside (the file walk, the
      exit status of a subprocess, a stat result, the scheduling of
      goroutines) is an explicit argument or an event of a trace. *)

From Stdlib Require Import ZArith Lia Bool Ascii String.
From Stdlib Require Import Floats.SpecFloat.
From stdpp Require Import base list gmap sets strings pretty.

Local Open Scope Z_scope.

(** ** 64-bit two's complement integers *)

Module Int64.

Definition modulus : Z := 18446744073709551616.           (* 2^64 *)
Definition min_int : Z := -9223372036854775808.           (* -2^63 *)
Definition max_int : Z := 9223372036854775807.            (* 2^63 - 1 *)

(** The value of an integer expression once stored in an int64. *)
Definition wrap64 (z : Z) : Z := (z - min_int) mod modulus + min_int.

Definition add (a b : Z) : Z := wrap64 (a + b).
Definition sub (a b : Z) : Z := wrap64 (a - b).
Definition mul (a b : Z) : Z := wrap64 (a * b).
Definition neg (a : Z) : Z := wrap64 (- a).

Definition in_range (z : Z) : Prop := min_int <= z <= max_int.

End Int64.

Import Int64.

(** ** Go values used by all packages *)

Module Go.

(** Results of fallible functions: a value or the error message. *)
Inductive result (A : Type) :=
  | Ok (a : A)
  | Err (msg : string).
Arguments Ok {A} a.
Arguments Err {A} msg.

(** [strings.Index(s, sep)] for a one-byte separator. *)
Fixpoint Index (s : string) (c : ascii) : option nat :=
  match s with
  | EmptyString => None
  | String a rest =>
      if Ascii.eqb a c then Some 0%nat
      else match Index rest c with
           | Some i => Some (S i)
           | None => None
           end
  end.

Definition Contains (s : string) (c : ascii) : bool :=
  match Index s c with Some _ => true | None => false end.

(** [strings.HasPrefix(s, p)]. *)
Fixpoint HasPrefix (s p : string) {struct p} : bool :=
  match p with
  | EmptyString => true
  | String a p' =>
      match s with
      | EmptyString => false
      | String b s' => Ascii.eqb a b && HasPrefix s' p'
      end
  end.

(** The slices [s[i:j]] and [s[i:]] for [i <= j <= len(s)]. *)
Definition slice (s : string) (i j : nat) : string :=
  String.substring i (j - i) s.
Definition sliceFrom (s : string) (i : nat) : string :=
  String.substring i (String.length s - i) s.

(** [strings.Index] restricted to [s[start:]], as an index of [s]. *)
Definition IndexFrom (s : string) (start : nat) (c : ascii) : option nat :=
  match Index (sliceFrom s start) c with
  | Some k => Some (start + k)%nat
  | None => None
  end.

(** Go's [len] of a slice, as an [int]. *)
Definition len {A} (l : list A) : Z := Z.of_nat (length l).

End Go.

Import Go.

(** ** Package batch: manifest, bin packing, location parsing *)

Module batch.

(** [FileInfo] of manifest_creator.go. *)
Record FileInfo := mkFileInfo { Path : string; Size : Z }.

(** [batchInfo] of manifest_creator.go. *)
Record batchInfo := mkBatchInfo { files : list string; size : Z }.

(** The fields of [Config] (manifest.go). *)
Record Config := mkConfig {
  ChunkSizeMB : Z;
  SourceWorkers : Z;
  DestWorkers : Z;
  BufferEnabled : bool;
  BufferPath : string;
  BufferMaxSizeGB : Z;
  CleanupBuffer : bool;
  KeepOnFailure : bool;
  CheckpointPath : string;
  CheckpointEnabled : bool
}.

Definition DefaultConfig : Config :=
  {| ChunkSizeMB := 50; SourceWorkers := 4; DestWorkers := 2;
     BufferEnabled := true; BufferPath := "/tmp/difpipe-buffer";
     BufferMaxSizeGB := 100; CleanupBuffer := true; KeepOnFailure := true;
     CheckpointPath := "/tmp/difpipe-checkpoint.json";
     CheckpointEnabled := true |}.

Definition emptyBatch : batchInfo := {| files := []; size := 0 |}.

(** [targetSize := int64(mc.config.ChunkSizeMB) * 1024 * 1024]. *)
Definition targetSize (config : Config) : Z :=
  Int64.mul (Int64.mul (wrap64 (ChunkSizeMB config)) 1024) 1024.

(** The body of the [for _, file := range files] loop of [binPackFiles],
    on the pair (batches, currentBatch). *)
Definition packFile (target : Z) (st : list batchInfo * batchInfo)
    (file : FileInfo) : list batchInfo * batchInfo :=
  let '(batches, currentBatch) := st in
  let '(batches, currentBatch) :=
    if (0 <? size currentBatch)
       && (target <? Int64.add (size currentBatch) (Size file))
    then (batches ++ [currentBatch], emptyBatch)
    else (batches, currentBatch) in
  (batches,
   {| files := files currentBatch ++ [Path file];
      size := Int64.add (size currentBatch) (Size file) |}).

Fixpoint packLoop (target : Z) (fs : list FileInfo)
    (st : list batchInfo * batchInfo) : list batchInfo * batchInfo :=
  match fs with
  | [] => st
  | file :: rest => packLoop target rest (packFile target st file)
  end.

(** [binPackFiles]: the loop, then the final batch when it has files. *)
Definition binPackFiles (config : Config) (fs : list FileInfo)
    : list batchInfo :=
  let '(batches, currentBatch) :=
    packLoop (targetSize config) fs ([], emptyBatch) in
  if (0 <? len (files currentBatch))
  then batches ++ [currentBatch] else batches.

(** *** manifest.go *)

(** Batch status strings of the source, as an enumeration. *)
Inductive BatchStatus :=
  | pending | downloading | buffered | uploading | completed | failed.

#[global] Instance BatchStatus_eq_dec : EqDecision BatchStatus.
Proof. solve_decision. Defined.

Inductive ManifestStatus :=
  | m_pending | m_in_progress | m_completed | m_failed.

(** [Batch]; the fields carry a [B_] prefix because [Size] and [Status]
    also name fields of [FileInfo] and [Manifest]. Timestamps and the
    unused checksum are left out. *)
Record Batch := mkBatch {
  B_ID : Z;
  B_Files : list string;
  B_Size : Z;
  B_FileCount : Z;
  B_Status : BatchStatus;
  B_LocalPath : string;
  B_Error : string
}.

(** [Manifest], fields with an [M_] prefix. *)
Record Manifest := mkManifest {
  M_ID : string;
  M_CreatedAt : Z;
  M_Source : string;
  M_Destination : string;
  M_TotalFiles : Z;
  M_TotalSize : Z;
  M_ChunkSizeMB : Z;
  M_Batches : list Batch;
  M_Status : ManifestStatus
}.

(** [NewManifest]; [now] is [time.Now().UnixNano()] and [id] the string
    [fmt.Sprintf("manifest-%d", now)]. *)
Definition NewManifest (id : string) (now : Z)
    (source destination : string) (chunkSizeMB : Z) : Manifest :=
  {| M_ID := id; M_CreatedAt := now; M_Source := source;
     M_Destination := destination; M_TotalFiles := 0; M_TotalSize := 0;
     M_ChunkSizeMB := chunkSizeMB; M_Batches := [];
     M_Status := m_pending |}.

(** [AddBatch]: the new manifest and the batch that was appended. *)
Definition AddBatch (m : Manifest) (fls : list string) (sz : Z)
    : Manifest * Batch :=
  let batch :=
    {| B_ID := len (M_Batches m); B_Files := fls; B_Size := sz;
       B_FileCount := len fls; B_Status := pending;
       B_LocalPath := ""; B_Error := "" |} in
  ({| M_ID := M_ID m; M_CreatedAt := M_CreatedAt m;
      M_Source := M_Source m; M_Destination := M_Destination m;
      M_TotalFiles := Int64.add (M_TotalFiles m) (len fls);
      M_TotalSize := Int64.add (M_TotalSize m) sz;
      M_ChunkSizeMB := M_ChunkSizeMB m;
      M_Batches := M_Batches m ++ [batch];
      M_Status := M_Status m |},
   batch).

(** A sequence of [AddBatch] calls, [manifest.AddBatch(batch.files,
    batch.size)] for each element in turn. *)
Definition addBatches (m : Manifest) (bs : list batchInfo) : Manifest :=
  fold_left (fun m b => fst (AddBatch m (files b) (size b))) bs m.

Definition SetManifestStatus (m : Manifest) (st : ManifestStatus)
    : Manifest :=
  {| M_ID := M_ID m; M_CreatedAt := M_CreatedAt m;
     M_Source := M_Source m; M_Destination := M_Destination m;
     M_TotalFiles := M_TotalFiles m; M_TotalSize := M_TotalSize m;
     M_ChunkSizeMB := M_ChunkSizeMB m; M_Batches := M_Batches m;
     M_Status := st |}.

(** Batch setters ([SetStatus], [SetError], [SetLocalPath]). *)
Definition SetStatus (b : Batch) (st : BatchStatus) : Batch :=
  {| B_ID := B_ID b; B_Files := B_Files b; B_Size := B_Size b;
     B_FileCount := B_FileCount b; B_Status := st;
     B_LocalPath := B_LocalPath b; B_Error := B_Error b |}.

Definition SetError (b : Batch) (err : string) : Batch :=
  {| B_ID := B_ID b; B_Files := B_Files b; B_Size := B_Size b;
     B_FileCount := B_FileCount b; B_Status := failed;
     B_LocalPath := B_LocalPath b; B_Error := err |}.

Definition SetLocalPath (b : Batch) (path : string) : Batch :=
  {| B_ID := B_ID b; B_Files := B_Files b; B_Size := B_Size b;
     B_FileCount := B_FileCount b; B_Status := B_Status b;
     B_LocalPath := path; B_Error := B_Error b |}.

Definition SetSize (b : Batch) (sz : Z) : Batch :=
  {| B_ID := B_ID b; B_Files := B_Files b; B_Size := sz;
     B_FileCount := B_FileCount b; B_Status := B_Status b;
     B_LocalPath := B_LocalPath b; B_Error := B_Error b |}.

(** *** Location parsing (manifest_creator.go, source_worker.go) *)

(** [parseLocation]: host, path and the error result, which no branch
    ever sets. *)
Definition parseLocation (location : string)
    : string * string * option string :=
  let first :=
    if Contains location "@"%char && Contains location ":"%char then
      match Index location "@"%char, Index location ":"%char with
      | Some atIndex, Some colonIndex =>
          if (atIndex <? colonIndex)%nat
          then Some (slice location (atIndex + 1) colonIndex,
                     sliceFrom location (colonIndex + 1), None)
          else None
      | _, _ => None
      end
    else None in
  match first with
  | Some r => r
  | None =>
      if Contains location ":"%char && negb (HasPrefix location "/") then
        match Index location ":"%char with
        | Some colonIndex =>
            (* strings.SplitN(location, ":", 2) has two parts here *)
            (slice location 0 colonIndex,
             sliceFrom location (colonIndex + 1), None)
        | None => ("", location, None)
        end
      else ("", location, None)
  end.

(** *** CreateManifest and the head of Transfer *)

(** [CreateManifest]. [enumerateFiles] stands for the method of that
    name, which runs [find] locally or through ssh: its outcome for the
    parsed host and path is an argument. [id] and [now] are the clock
    values used by [NewManifest]. *)
Definition CreateManifest (config : Config) (id : string) (now : Z)
    (enumerateFiles : string -> string -> result (list FileInfo))
    (source destination : string) : result Manifest :=
  match parseLocation source with
  | (_, _, Some err) => Err ("parse source: " +:+ err)
  | (sourceHost, sourcePath, None) =>
      match enumerateFiles sourceHost sourcePath with
      | Err err => Err ("enumerate files: " +:+ err)
      | Ok fs =>
          if len fs =? 0 then Err "no files found at source"
          else
            let manifest :=
              NewManifest id now source destination (ChunkSizeMB config) in
            Ok (addBatches manifest (binPackFiles config fs))
      end
  end.

(** What [Transfer] does to the buffer and the pools, in order. *)
Inductive Effect :=
  | BufferInitialized
  | WorkersStarted
  | Coordinated
  | CleanedUp (success : bool).

(** [Transfer]: the effects performed and the returned error ([None] is
    Go's nil). [initialize] is the outcome of [bufferMgr.Initialize] and
    [coordinate] that of [coordinateTransfer] on the manifest. *)
Definition Transfer (config : Config) (id : string) (now : Z)
    (enumerateFiles : string -> string -> result (list FileInfo))
    (initialize : option string)
    (coordinate : Manifest -> option string)
    (source destination : string) : list Effect * option string :=
  match CreateManifest config id now enumerateFiles source destination with
  | Err err => ([], Some ("create manifest: " +:+ err))
  | Ok manifest =>
      let manifest := SetManifestStatus manifest m_in_progress in
      match initialize with
      | Some err => ([], Some ("initialize buffer: " +:+ err))
      | None =>
          match coordinate manifest with
          | Some err =>
              ([BufferInitialized; WorkersStarted; Coordinated;
                CleanedUp false],
               Some ("transfer failed: " +:+ err))
          | None =>
              ([BufferInitialized; WorkersStarted; Coordinated;
                CleanedUp true], None)
          end
      end
  end.

(** *** buffer.go *)

Record BufferManager := mkBufferManager {
  path : string;
  maxSize : Z;
  currentSize : Z
}.

Definition NewBufferManager (config : Config) : BufferManager :=
  {| path := BufferPath config;
     maxSize :=
       Int64.mul (Int64.mul (Int64.mul (wrap64 (BufferMaxSizeGB config))
                                       1024) 1024) 1024;
     currentSize := 0 |}.

Definition setCurrent (bm : BufferManager) (v : Z) : BufferManager :=
  {| path := path bm; maxSize := maxSize bm; currentSize := v |}.

(** The program points of one [ReserveSpace(size)] call: before the
    [Load], between the [Load] and the [CompareAndSwap] (holding the
    loaded value), and after the return. *)
Inductive ReservePC :=
  | AtLoad
  | AtCAS (current : Z)
  | Returned (ok : bool).

(** One atomic action of a [ReserveSpace(size)] call on the shared
    counter. *)
Definition reserveStep (size : Z) (bm : BufferManager) (pc : ReservePC)
    : BufferManager * ReservePC :=
  match pc with
  | AtLoad => (bm, AtCAS (currentSize bm))
  | AtCAS current =>
      if maxSize bm <? Int64.add current size then (bm, Returned false)
      else if currentSize bm =? current
           then (setCurrent bm (Int64.add current size), Returned true)
           else (bm, AtLoad)
  | Returned ok => (bm, Returned ok)
  end.

(** [ReserveSpace] when no other goroutine touches the counter between
    the [Load] and the [CompareAndSwap]. *)
Definition ReserveSpace (bm : BufferManager) (size : Z)
    : bool * BufferManager :=
  let current := currentSize bm in
  if maxSize bm <? Int64.add current size then (false, bm)
  else (true, setCurrent bm (Int64.add current size)).

(** [ReleaseSpace]: [bm.currentSize.Add(-size)]. *)
Definition ReleaseSpace (bm : BufferManager) (size : Z) : BufferManager :=
  setCurrent bm (Int64.add (currentSize bm) (Int64.neg size)).

(** [Cleanup]; [removeErr] is the error of [os.RemoveAll] that is not
    [IsNotExist], if any. *)
Definition Cleanup (bm : BufferManager) (removeErr : option string)
    : BufferManager * option string :=
  match removeErr with
  | Some err => (bm, Some ("cleanup buffer: " +:+ err))
  | None => (setCurrent bm 0, None)
  end.

(** Goroutines sharing one buffer manager: the counter and, for every
    [ReserveSpace] call in progress, its argument and program point. *)
Record Shared := mkShared {
  manager : BufferManager;
  calls : list (Z * ReservePC)
}.

Inductive BufferEvent :=
  | CallReserve (size : Z)      (* a goroutine enters ReserveSpace(size) *)
  | StepReserve (call : nat)    (* the next atomic action of a call *)
  | DoRelease (size : Z)        (* ReleaseSpace(size) *)
  | DoCleanup (removeErr : option string).

Definition bufferStep (s : Shared) (e : BufferEvent) : Shared :=
  match e with
  | CallReserve size =>
      {| manager := manager s; calls := calls s ++ [(size, AtLoad)] |}
  | StepReserve call =>
      match calls s !! call with
      | Some (size, pc) =>
          let '(bm, pc') := reserveStep size (manager s) pc in
          {| manager := bm; calls := <[call := (size, pc')]> (calls s) |}
      | None => s
      end
  | DoRelease size =>
      {| manager := ReleaseSpace (manager s) size; calls := calls s |}
  | DoCleanup removeErr =>
      {| manager := fst (Cleanup (manager s) removeErr); calls := calls s |}
  end.

Definition bufferRun (s : Shared) (evs : list BufferEvent) : Shared :=
  fold_left bufferStep evs s.

Definition freshShared (config : Config) : Shared :=
  {| manager := NewBufferManager config; calls := [] |}.

(** *** source_worker.go *)

(** The buffer directory: the byte length of every file present. *)
Abbreviation Disk := (gmap string Z).

(** What the world does while a worker spins on a failed reservation:
    the stop channel is closed, or another goroutine releases space. *)
Inductive WaitEvent :=
  | Stopped
  | Freed (n : Z).

(** Everything [processBatch] obtains from outside for one batch. *)
Record SourceRun := mkSourceRun {
  batchPath : string;             (* GetBatchPath(manifest.ID, batch.ID) *)
  ensureDirErr : option string;   (* EnsureBatchDir *)
  waits : list WaitEvent;         (* between reservation attempts *)
  fileListErr : option string;    (* createFileList *)
  tarErr : option (string * string);
                                  (* cmd.CombinedOutput: error, output *)
  tarWrote : option Z             (* length left at the output path *)
}.

Record Worker := mkWorker {
  w_buffer : BufferManager;
  w_batch : Batch;
  w_disk : Disk
}.

(** How a call ends: it returns (nil or an error) or it is still
    spinning in the reservation loop when the wait events run out. *)
Inductive Outcome :=
  | Return (err : option string)
  | Spinning.

(** The loop [for !ReserveSpace(batch.Size) { select ... }]. *)
Fixpoint reserveLoop (bm : BufferManager) (size : Z)
    (ws : list WaitEvent) : BufferManager * Outcome :=
  let '(ok, bm') := ReserveSpace bm size in
  if ok then (bm', Return None)
  else match ws with
       | [] => (bm, Spinning)
       | Stopped :: _ =>
           (bm, Return (Some "stopped while waiting for buffer space"))
       | Freed n :: rest => reserveLoop (ReleaseSpace bm n) size rest
       end.

(** [createTarArchive]: run tar, stat the output, adjust the accounting
    and [batch.Size]. *)
Definition createTarArchive (w : Worker) (run : SourceRun)
    : Worker * option string :=
  let disk :=
    match tarWrote run with
    | Some n => <[batchPath run := n]> (w_disk w)
    | None => w_disk w
    end in
  match tarErr run with
  | Some failure =>
      ({| w_buffer := w_buffer w; w_batch := w_batch w; w_disk := disk |},
       Some ("tar failed: " +:+ fst failure +:+ " (output: "
             +:+ snd failure +:+ ")"))
  | None =>
      match disk !! batchPath run with
      | None =>
          ({| w_buffer := w_buffer w; w_batch := w_batch w;
              w_disk := disk |},
           Some ("verify archive: stat " +:+ batchPath run
                 +:+ ": no such file or directory"))
      | Some infoSize =>
          if infoSize =? B_Size (w_batch w) then
            ({| w_buffer := w_buffer w; w_batch := w_batch w;
                w_disk := disk |}, None)
          else
            let diff := Int64.sub infoSize (B_Size (w_batch w)) in
            let bm :=
              if 0 <? diff then snd (ReserveSpace (w_buffer w) diff)
              else ReleaseSpace (w_buffer w) (Int64.neg diff) in
            ({| w_buffer := bm; w_batch := SetSize (w_batch w) infoSize;
                w_disk := disk |}, None)
      end
  end.

(** [processBatch] of the source pool. *)
Definition processBatch (w : Worker) (run : SourceRun) : Worker * Outcome :=
  let batch := SetStatus (w_batch w) downloading in
  let w := {| w_buffer := w_buffer w; w_batch := batch;
              w_disk := w_disk w |} in
  match ensureDirErr run with
  | Some err => (w, Return (Some ("ensure batch dir: " +:+ err)))
  | None =>
      match reserveLoop (w_buffer w) (B_Size batch) (waits run) with
      | (bm, Spinning) =>
          ({| w_buffer := bm; w_batch := batch; w_disk := w_disk w |},
           Spinning)
      | (bm, Return (Some err)) =>
          ({| w_buffer := bm; w_batch := batch; w_disk := w_disk w |},
           Return (Some err))
      | (bm, Return None) =>
          let w := {| w_buffer := bm; w_batch := batch;
                      w_disk := w_disk w |} in
          match fileListErr run with
          | Some err =>
              ({| w_buffer := ReleaseSpace bm (B_Size batch);
                  w_batch := batch; w_disk := w_disk w |},
               Return (Some ("create file list: " +:+ err)))
          | None =>
              match createTarArchive w run with
              | (w', Some err) =>
                  ({| w_buffer :=
                        ReleaseSpace (w_buffer w') (B_Size (w_batch w'));
                      w_batch := w_batch w'; w_disk := w_disk w' |},
                   Return (Some ("create tar: " +:+ err)))
              | (w', None) =>
                  let b := SetLocalPath (w_batch w') (batchPath run) in
                  ({| w_buffer := w_buffer w';
                      w_batch := SetStatus b buffered;
                      w_disk := w_disk w' |}, Return None)
              end
          end
      end
  end.

(** The worker loop body: [processBatch], and [SetError] on failure. *)
Definition sourceWork (w : Worker) (run : SourceRun) : Worker * Outcome :=
  match processBatch w run with
  | (w', Return (Some err)) =>
      ({| w_buffer := w_buffer w'; w_batch := SetError (w_batch w') err;
          w_disk := w_disk w' |}, Return (Some err))
  | r => r
  end.

(** *** engine.go: coordinateTransfer

    The goroutines of one run (feeder, source workers, destination
    poller, destination workers) are interleaved by a trace of events;
    every event is one action that the source performs without
    releasing the lock or channel it uses. A [*Batch] is the index of
    the batch in [manifest.Batches]. *)

Inductive PollerPC :=
  | Waiting                       (* in the select of the for loop *)
  | Scanning (i : nat)            (* holds enqueuedMutex, at batch i *)
  | Exited (err : option string). (* returned, or sent on transferErr *)

Record Engine := mkEngine {
  config : Config;
  batches : list Batch;           (* be.manifest.Batches *)
  fed : nat;                      (* position of the feeder's range loop *)
  sourceQueue : list nat;         (* sourcePool.batchQueue *)
  sourceActive : list nat;        (* batches inside a source processBatch *)
  destQueue : list nat;           (* destPool.batchQueue *)
  destActive : list nat;          (* batches inside a dest processBatch *)
  enqueuedToDest : gmap Z bool;   (* the map guarded by enqueuedMutex *)
  poller : PollerPC;
  stopChan : bool;                (* be.stopChan is closed *)
  received : list Z;              (* history: ids passed to destPool *)
  reachedBuffered : gset nat      (* history: batches set to buffered *)
}.

Inductive Event :=
  | Feed                          (* sourcePool.EnqueueBatch(batch) *)
  | SourceTake                    (* a worker receives; SetStatus downloading *)
  | SourceDone (i : nat) (r : result (string * Z))
                                  (* processBatch returns: path and size *)
  | Tick                          (* <-ticker.C; enqueuedMutex.Lock() *)
  | Visit                         (* one iteration of the scan, or its end *)
  | EnqueueRefused                (* destPool.EnqueueBatch returns an error *)
  | PollerStop                    (* the poller selects <-be.stopChan *)
  | DestTake                      (* a worker receives; SetStatus uploading *)
  | DestDone (i : nat) (err : option string)
  | Stop.                         (* close(be.stopChan) *)

Definition initEngine (cfg : Config) (m : Manifest) : Engine :=
  {| config := cfg; batches := M_Batches m; fed := 0;
     sourceQueue := []; sourceActive := []; destQueue := [];
     destActive := []; enqueuedToDest := ∅; poller := Waiting;
     stopChan := false; received := []; reachedBuffered := ∅ |}.

Definition isTerminal (st : BatchStatus) : bool :=
  match st with completed | failed => true | _ => false end.

(** [allBatchesCompleted]. *)
Definition allBatchesCompleted (e : Engine) : bool :=
  forallb (fun b => isTerminal (B_Status b)) (batches e).

(** [enqueuedToDest[id]]: a missing key reads as false. *)
Definition wasEnqueued (e : Engine) (id : Z) : bool :=
  default false (enqueuedToDest e !! id).

(** Remove the first occurrence of [i]. *)
Fixpoint removeFirst (i : nat) (l : list nat) : list nat :=
  match l with
  | [] => []
  | j :: rest => if decide (i = j) then rest else j :: removeFirst i rest
  end.

Definition withBatches (e : Engine) (bs : list Batch) : Engine :=
  {| config := config e; batches := bs; fed := fed e;
     sourceQueue := sourceQueue e; sourceActive := sourceActive e;
     destQueue := destQueue e; destActive := destActive e;
     enqueuedToDest := enqueuedToDest e; poller := poller e;
     stopChan := stopChan e; received := received e;
     reachedBuffered := reachedBuffered e |}.

Definition withPoller (e : Engine) (pc : PollerPC) : Engine :=
  {| config := config e; batches := batches e; fed := fed e;
     sourceQueue := sourceQueue e; sourceActive := sourceActive e;
     destQueue := destQueue e; destActive := destActive e;
     enqueuedToDest := enqueuedToDest e; poller := pc;
     stopChan := stopChan e; received := received e;
     reachedBuffered := reachedBuffered e |}.

(** The poller's test [batch.GetStatus() == "buffered" &&
    !enqueuedToDest[batch.ID]]. *)
Definition shouldDispatch (e : Engine) (b : Batch) : bool :=
  bool_decide (B_Status b = buffered) && negb (wasEnqueued e (B_ID b)).

Definition step (e : Engine) (ev : Event) : option Engine :=
  match ev with
  | Feed =>
      (* the feeder may already be blocked in the send when the stop
         channel closes, so the send does not depend on it *)
      if bool_decide (fed e < length (batches e))%nat
         && (len (sourceQueue e) <? SourceWorkers (config e) * 2)
      then Some {| config := config e; batches := batches e;
                   fed := S (fed e);
                   sourceQueue := sourceQueue e ++ [fed e];
                   sourceActive := sourceActive e;
                   destQueue := destQueue e; destActive := destActive e;
                   enqueuedToDest := enqueuedToDest e; poller := poller e;
                   stopChan := stopChan e; received := received e;
                   reachedBuffered := reachedBuffered e |}
      else None
  | SourceTake =>
      match sourceQueue e with
      | i :: rest =>
          if len (sourceActive e) <? SourceWorkers (config e) then
            Some {| config := config e;
                    batches := alter (fun b => SetStatus b downloading) i
                                     (batches e);
                    fed := fed e; sourceQueue := rest;
                    sourceActive := i :: sourceActive e;
                    destQueue := destQueue e; destActive := destActive e;
                    enqueuedToDest := enqueuedToDest e;
                    poller := poller e; stopChan := stopChan e;
                    received := received e;
                    reachedBuffered := reachedBuffered e |}
          else None
      | [] => None
      end
  | SourceDone i r =>
      if bool_decide (i ∈ sourceActive e) then
        Some {| config := config e;
                batches :=
                  alter (fun b =>
                           match r with
                           | Ok (p, sz) =>
                               SetStatus (SetLocalPath (SetSize b sz) p)
                                         buffered
                           | Err err => SetError b err
                           end) i (batches e);
                fed := fed e; sourceQueue := sourceQueue e;
                sourceActive := removeFirst i (sourceActive e);
                destQueue := destQueue e; destActive := destActive e;
                enqueuedToDest := enqueuedToDest e; poller := poller e;
                stopChan := stopChan e; received := received e;
                reachedBuffered :=
                  match r with
                  | Ok _ => {[ i ]} ∪ reachedBuffered e
                  | Err _ => reachedBuffered e
                  end |}
      else None
  | Tick =>
      match poller e with
      | Waiting => Some (withPoller e (Scanning 0))
      | _ => None
      end
  | Visit =>
      match poller e with
      | Scanning i =>
          match batches e !! i with
          | Some b =>
              if shouldDispatch e b then
                if len (destQueue e) <? DestWorkers (config e) * 2 then
                  Some {| config := config e; batches := batches e;
                          fed := fed e; sourceQueue := sourceQueue e;
                          sourceActive := sourceActive e;
                          destQueue := destQueue e ++ [i];
                          destActive := destActive e;
                          enqueuedToDest :=
                            <[B_ID b := true]> (enqueuedToDest e);
                          poller := Scanning (S i);
                          stopChan := stopChan e;
                          received := received e ++ [B_ID b];
                          reachedBuffered := reachedBuffered e |}
                else None (* the send blocks while the queue is full *)
              else Some (withPoller e (Scanning (S i)))
          | None =>
              (* enqueuedMutex.Unlock(); allBatchesCompleted() *)
              if allBatchesCompleted e
              then Some (withPoller e (Exited None))
              else Some (withPoller e Waiting)
          end
      | _ => None
      end
  | EnqueueRefused =>
      match poller e with
      | Scanning i =>
          match batches e !! i with
          | Some b =>
              if shouldDispatch e b
              then Some (withPoller e
                     (Exited (Some "enqueue dest batch: worker pool stopped")))
              else None
          | None => None
          end
      | _ => None
      end
  | PollerStop =>
      match poller e with
      | Waiting =>
          if stopChan e then Some (withPoller e (Exited None)) else None
      | _ => None
      end
  | DestTake =>
      match destQueue e with
      | i :: rest =>
          if len (destActive e) <? DestWorkers (config e) then
            Some {| config := config e;
                    batches := alter (fun b => SetStatus b uploading) i
                                     (batches e);
                    fed := fed e; sourceQueue := sourceQueue e;
                    sourceActive := sourceActive e;
                    destQueue := rest; destActive := i :: destActive e;
                    enqueuedToDest := enqueuedToDest e;
                    poller := poller e; stopChan := stopChan e;
                    received := received e;
                    reachedBuffered := reachedBuffered e |}
          else None
      | [] => None
      end
  | DestDone i err =>
      if bool_decide (i ∈ destActive e) then
        Some {| config := config e;
                batches :=
                  alter (fun b =>
                           match err with
                           | None => SetStatus b completed
                           | Some msg => SetError b msg
                           end) i (batches e);
                fed := fed e; sourceQueue := sourceQueue e;
                sourceActive := sourceActive e;
                destQueue := destQueue e;
                destActive := removeFirst i (destActive e);
                enqueuedToDest := enqueuedToDest e; poller := poller e;
                stopChan := stopChan e; received := received e;
                reachedBuffered := reachedBuffered e |}
      else None
  | Stop =>
      if stopChan e then None
      else Some {| config := config e; batches := batches e; fed := fed e;
                   sourceQueue := sourceQueue e;
                   sourceActive := sourceActive e;
                   destQueue := destQueue e; destActive := destActive e;
                   enqueuedToDest := enqueuedToDest e; poller := poller e;
                   stopChan := true; received := received e;
                   reachedBuffered := reachedBuffered e |}
  end.

(** A run: the events of a trace applied in order. *)
Fixpoint run (e : Engine) (evs : list Event) : option Engine :=
  match evs with
  | [] => Some e
  | ev :: rest =>
      match step e ev with
      | Some e' => run e' rest
      | None => None
      end
  end.

(** *** The other location parsers *)

(** [parseRemoteLocation] of source_worker.go. *)
Definition parseRemoteLocation (location : string) : string * string :=
  let first :=
    if Contains location "@"%char && Contains location ":"%char then
      match Index location "@"%char, Index location ":"%char with
      | Some atIndex, Some colonIndex =>
          if (atIndex <? colonIndex)%nat
          then Some (slice location (atIndex + 1) colonIndex,
                     sliceFrom location (colonIndex + 1))
          else None
      | _, _ => None
      end
    else None in
  match first with
  | Some r => r
  | None =>
      if Contains location ":"%char && negb (HasPrefix location "/") then
        match Index location ":"%char with
        | Some colonIndex =>
            (slice location 0 colonIndex,
             sliceFrom location (colonIndex + 1))
        | None => ("", location)
        end
      else ("", location)
  end.

(** [parseDestLocation] of dest_worker.go. *)
Definition parseDestLocation (location : string) : string * string :=
  let first :=
    if Contains location "@"%char && Contains location ":"%char then
      match Index location "@"%char, Index location ":"%char with
      | Some atIndex, Some colonIndex =>
          if (atIndex <? colonIndex)%nat
          then Some (slice location (atIndex + 1) colonIndex,
                     sliceFrom location (colonIndex + 1))
          else None
      | _, _ => None
      end
    else None in
  match first with
  | Some r => r
  | None =>
      if Contains location ":"%char && negb (HasPrefix location "/") then
        match Index location ":"%char with
        | Some colonIndex =>
            (slice location 0 colonIndex,
             sliceFrom location (colonIndex + 1))
        | None => ("", location)
        end
      else ("", location)
  end.

(** *** enumerateFiles: parsing the output of find *)

Definition isDigit (c : ascii) : bool :=
  (48 <=? nat_of_ascii c)%nat && (nat_of_ascii c <=? 57)%nat.

Definition digitValue (c : ascii) : Z := Z.of_nat (nat_of_ascii c) - 48.

(** The digits of [s] read from the left onto [acc]; [None] when a
    byte is not a decimal digit. *)
Fixpoint parseDigits (s : string) (acc : Z) : option Z :=
  match s with
  | EmptyString => Some acc
  | String c rest =>
      if isDigit c then parseDigits rest (acc * 10 + digitValue c)
      else None
  end.

(** [strconv.ParseInt(s, 10, 64)]; [None] stands for either error
    (syntax or range). *)
Definition ParseInt (s : string) : option Z :=
  match s with
  | EmptyString => None
  | String c rest =>
      let '(neg, digits) :=
        if Ascii.eqb c "+" then (false, rest)
        else if Ascii.eqb c "-" then (true, rest)
        else (false, s) in
      match digits with
      | EmptyString => None
      | _ =>
          match parseDigits digits 0 with
          | None => None
          | Some un =>
              if neg then
                if un <=? 9223372036854775808 then Some (- un) else None
              else
                if un <=? max_int then Some un else None
          end
      end
  end.

(** [strings.TrimPrefix(s, "./")]. *)
Definition trimDotSlash (s : string) : string :=
  if HasPrefix s "./" then sliceFrom s 2 else s.

(** The body of the scanner loop of [enumerateFiles] for one line:
    the entry appended to [files], or [None] when the line is
    skipped. *)
Definition parseFindLine (line : string) : option FileInfo :=
  match Index line " "%char with
  | None => None                        (* len(parts) != 2 *)
  | Some i =>
      match ParseInt (slice line 0 i) with
      | None => None
      | Some sz =>
          let relPath := trimDotSlash (sliceFrom line (i + 1)) in
          if String.eqb relPath "" || String.eqb relPath "." then None
          else Some {| Path := relPath; Size := sz |}
      end
  end.

(** The line feed and the carriage return. *)
Definition LF : ascii := "010"%char.
Definition CR : ascii := "013"%char.

(** [dropCR] of bufio: the data without one trailing CR. *)
Fixpoint dropCR (data : string) : string :=
  match data with
  | EmptyString => EmptyString
  | String c rest =>
      if Ascii.eqb c CR && String.eqb rest "" then EmptyString
      else String c (dropCR rest)
  end.

(** The data cut at every LF; what follows the last LF is a piece of
    its own when it is not empty. *)
Fixpoint cutLines (data : string) : list string :=
  match data with
  | EmptyString => []
  | String c rest =>
      if Ascii.eqb c LF then EmptyString :: cutLines rest
      else match cutLines rest with
           | [] => [String c EmptyString]
           | line :: lines => String c line :: lines
           end
  end.

(** The tokens that the [bufio.Scanner] of [enumerateFiles], with the
    default split function [bufio.ScanLines], yields for the bytes
    [data] when no token exceeds its buffer; a longer token ends the
    scan with the error that [enumerateFiles] takes as [scanErr]. *)
Definition ScanLines (data : string) : list string :=
  map dropCR (cutLines data).

(** [enumerateFiles] after the command was built: [output] is the
    result of [cmd.Output()], already cut into the lines that the
    scanner yields, and [scanErr] the scanner's error, if any. *)
Definition enumerateFiles (output : result (list string))
    (scanErr : option string) : result (list FileInfo) :=
  match output with
  | Err err => Err ("execute find: " +:+ err)
  | Ok lines =>
      let fs := omap parseFindLine lines in
      match scanErr with
      | Some err => Err ("scan output: " +:+ err)
      | None => Ok fs
      end
  end.

(** *** More of manifest.go and buffer.go *)

(** [GetPendingBatches]. *)
Definition GetPendingBatches (m : Manifest) : list Batch :=
  filter (fun b => B_Status b = pending) (M_Batches m).

(** [DeleteBatch]; [removeErr] is the error of [os.Remove] other than
    [IsNotExist]. *)
Definition DeleteBatch (bm : BufferManager) (disk : Disk) (pth : string)
    (sz : Z) (removeErr : option string)
    : BufferManager * Disk * option string :=
  match removeErr with
  | Some err => (bm, disk, Some ("delete batch: " +:+ err))
  | None => (ReleaseSpace bm sz, delete pth disk, None)
  end.

(** *** dest_worker.go *)

(** What one [processBatch] of the destination pool obtains from
    outside: the error of the extraction command and of [os.Remove]. *)
Record DestRun := mkDestRun {
  extractErr : option string;
  removeErr : option string
}.

(** [processBatch] of the destination pool. *)
Definition destProcessBatch (cfg : Config) (w : Worker) (r : DestRun)
    : Worker * option string :=
  let batch := SetStatus (w_batch w) uploading in
  let pth := B_LocalPath batch in
  if String.eqb pth "" then
    ({| w_buffer := w_buffer w; w_batch := batch; w_disk := w_disk w |},
     Some "batch has no local path")
  else
    match extractErr r with
    | Some err =>
        ({| w_buffer := w_buffer w; w_batch := batch; w_disk := w_disk w |},
         Some ("extract tar: " +:+ err))
    | None =>
        let '(bm, disk) :=
          if CleanupBuffer cfg then
            let '(bm, disk, _) :=
              DeleteBatch (w_buffer w) (w_disk w) pth (B_Size batch)
                          (removeErr r) in
            (bm, disk)
          else (w_buffer w, w_disk w) in
        ({| w_buffer := bm; w_batch := SetStatus batch completed;
            w_disk := disk |}, None)
    end.

(** The destination worker loop body. *)
Definition destWork (cfg : Config) (w : Worker) (r : DestRun)
    : Worker * option string :=
  match destProcessBatch cfg w r with
  | (w', Some err) =>
      ({| w_buffer := w_buffer w'; w_batch := SetError (w_batch w') err;
          w_disk := w_disk w' |}, Some err)
  | res => res
  end.

End batch.

(** ** Package core: strategies, protocols, exit codes, remote paths *)

Module core.

(** [Strategy]; [StrategyUnset] is the zero value, the empty string. *)
Inductive Strategy :=
  | StrategyUnset
  | StrategyAuto | StrategyRclone | StrategyRsync | StrategyTar
  | StrategyProxy | StrategySkopeo | StrategyRestic.

(** [Protocol]; [ProtocolUnset] is the zero value. *)
Inductive Protocol :=
  | ProtocolUnset
  | ProtocolLocal | ProtocolSSH | ProtocolS3 | ProtocolGCS
  | ProtocolAzure | ProtocolHTTP | ProtocolFTP | ProtocolWebDAV.

#[global] Instance Protocol_eq_dec : EqDecision Protocol.
Proof. solve_decision. Defined.

#[global] Instance Strategy_eq_dec : EqDecision Strategy.
Proof. solve_decision. Defined.

(** [FileAnalysis], without the sample time, the compressibility and
    the formatted reason text. *)
Record FileAnalysis := mkFileAnalysis {
  TotalSize : Z;
  TotalFiles : Z;
  AverageFileSize : Z;
  SmallFiles : Z;
  MediumFiles : Z;
  LargeFiles : Z;
  FileTypes : gmap string Z;
  SourceProtocol : Protocol;
  DestProtocol : Protocol;
  Recommendation : Strategy
}.

(** *** Exit codes *)

Definition ExitSuccess : Z := 0.
Definition ExitGeneralError : Z := 1.
Definition ExitConfigError : Z := 10.
Definition ExitAuthError : Z := 11.
Definition ExitNetworkError : Z := 12.
Definition ExitSourceNotFound : Z := 20.
Definition ExitDestNotWritable : Z := 21.
Definition ExitPermissionDenied : Z := 22.
Definition ExitInsufficientSpace : Z := 23.
Definition ExitTransferFailed : Z := 30.
Definition ExitChecksumMismatch : Z := 31.
Definition ExitPartialTransfer : Z := 32.
Definition ExitEngineNotFound : Z := 40.
Definition ExitUnsupportedProtocol : Z := 41.
Definition ExitInvalidStrategy : Z := 42.
Definition ExitUserCanceled : Z := 50.
Definition ExitTimeout : Z := 51.
Definition ExitQuotaExceeded : Z := 52.

Inductive ErrorCategory :=
  | CategoryRetryable | CategoryFatal | CategoryConfiguration
  | CategoryAuth | CategoryResource | CategoryUser.

Record ExitCodeInfo := mkExitCodeInfo {
  Code : Z;
  Category : ErrorCategory;
  Description : string;
  Retryable : bool;
  Suggestion : string
}.

(** The entries of the [ExitCodeRegistry] literal, in its order. *)
Definition registryEntries : list (Z * ExitCodeInfo) :=
  [ (ExitSuccess,
     mkExitCodeInfo ExitSuccess CategoryUser
       "Operation completed successfully" false "");
    (ExitConfigError,
     mkExitCodeInfo ExitConfigError CategoryConfiguration
       "Configuration error" false
       "Check configuration file syntax and required fields");
    (ExitAuthError,
     mkExitCodeInfo ExitAuthError CategoryAuth
       "Authentication failed" false
       "Verify credentials and access permissions");
    (ExitNetworkError,
     mkExitCodeInfo ExitNetworkError CategoryRetryable
       "Network error" true "Check network connectivity and retry");
    (ExitSourceNotFound,
     mkExitCodeInfo ExitSourceNotFound CategoryFatal
       "Source path not found" false
       "Verify source path exists and is accessible");
    (ExitDestNotWritable,
     mkExitCodeInfo ExitDestNotWritable CategoryFatal
       "Destination not writable" false
       "Check destination permissions and path validity");
    (ExitPermissionDenied,
     mkExitCodeInfo ExitPermissionDenied CategoryAuth
       "Permission denied" false "Verify user has required permissions");
    (ExitInsufficientSpace,
     mkExitCodeInfo ExitInsufficientSpace CategoryResource
       "Insufficient disk space" false
       "Free up space at destination or use different location");
    (ExitTransferFailed,
     mkExitCodeInfo ExitTransferFailed CategoryRetryable
       "Transfer failed" true
       "Retry with checkpoint enabled to resume from failure point");
    (ExitChecksumMismatch,
     mkExitCodeInfo ExitChecksumMismatch CategoryFatal
       "Checksum verification failed" true
       "Data corruption detected, retry transfer");
    (ExitPartialTransfer,
     mkExitCodeInfo ExitPartialTransfer CategoryRetryable
       "Partial transfer (some files failed)" true
       "Review failed files and retry");
    (ExitEngineNotFound,
     mkExitCodeInfo ExitEngineNotFound CategoryConfiguration
       "Transfer engine not found" false
       "Install required transfer engine (rclone, rsync, etc.)");
    (ExitUnsupportedProtocol,
     mkExitCodeInfo ExitUnsupportedProtocol CategoryConfiguration
       "Protocol not supported" false
       "Use different strategy or install engine with protocol support");
    (ExitUserCanceled,
     mkExitCodeInfo ExitUserCanceled CategoryUser
       "Operation canceled by user" false "");
    (ExitTimeout,
     mkExitCodeInfo ExitTimeout CategoryRetryable
       "Operation timed out" true
       "Increase timeout or check for hanging processes");
    (ExitQuotaExceeded,
     mkExitCodeInfo ExitQuotaExceeded CategoryResource
       "Quota or rate limit exceeded" true
       "Wait for quota reset or increase limits") ].

(** [ExitCodeRegistry], a [map[int]ExitCodeInfo]. *)
Definition ExitCodeRegistry : gmap Z ExitCodeInfo :=
  list_to_map registryEntries.

Definition GetExitCodeInfo (code : Z) : ExitCodeInfo :=
  match ExitCodeRegistry !! code with
  | Some info => info
  | None =>
      mkExitCodeInfo code CategoryFatal "Unknown error" false
        "Check logs for details"
  end.

Definition IsRetryable (code : Z) : bool :=
  Retryable (GetExitCodeInfo code).

(** *** ParseRemotePath (interfaces.go) *)

Record RemoteLocation := mkRemoteLocation {
  User : string;
  Host : string;
  Port : Z;
  RPath : string
}.

Definition invalidFormat (remotePath : string) : string :=
  "invalid remote path format: expected user@host:path, got "
  +:+ remotePath.

Definition ParseRemotePath (remotePath : string) : result RemoteLocation :=
  match Index remotePath "@"%char with
  | None => Err (invalidFormat remotePath)
  | Some atIndex =>
      let user := slice remotePath 0 atIndex in
      match IndexFrom remotePath (atIndex + 1) ":"%char with
      | None => Err (invalidFormat remotePath)
      | Some colonIndex =>
          let host := slice remotePath (atIndex + 1) colonIndex in
          let pth := sliceFrom remotePath (colonIndex + 1) in
          if String.eqb user "" then Err "user is empty"
          else if String.eqb host "" then Err "host is empty"
          else if String.eqb pth "" then Err "path is empty"
          else Ok {| User := user; Host := host; Port := 22;
                     RPath := pth |}
      end
  end.

(** [RemoteLocation.String]. *)
Definition RemoteLocationString (r : RemoteLocation) : string :=
  User r +:+ "@" +:+ Host r +:+ ":" +:+ RPath r.

End core.

(** ** IEEE 754 binary64, Go's float64 *)

Module Float64.

Definition prec : Z := 53.
Definition emax : Z := 1024.

(** [float64(x)] for an integer [x]: rounded to nearest, ties to even. *)
Definition of_int (x : Z) : spec_float := binary_normalize prec emax x 0 false.
Definition div (x y : spec_float) : spec_float := SFdiv prec emax x y.
Definition mul (x y : spec_float) : spec_float := SFmul prec emax x y.
(** [x > y]; false when either side is NaN. *)
Definition gt (x y : spec_float) : bool := SFltb y x.

End Float64.

(** ** Package analyzer *)

Module analyzer.

Import core.

Record FileAnalyzer := mkFileAnalyzer {
  smallFileThreshold : Z;
  largeFileThreshold : Z;
  manyFilesCount : Z;
  smallFilePercent : spec_float;
  largeFilePercent : spec_float;
  fewFilesCount : Z;
  maxSampleSize : Z
}.

(** [New]: the default thresholds. *)
Definition New : FileAnalyzer :=
  {| smallFileThreshold := 10 * 1024;
     largeFileThreshold := 100 * 1024 * 1024;
     manyFilesCount := 1000;
     smallFilePercent := Float64.of_int 80;
     largeFilePercent := Float64.of_int 50;
     fewFilesCount := 10;
     maxSampleSize := 10000 |}.

Definition WithThresholds (a : FileAnalyzer)
    (smallKB largeMB manyFiles fewFiles maxSample : Z)
    (smallPercent largePercent : spec_float) : FileAnalyzer :=
  {| smallFileThreshold := Int64.mul (wrap64 smallKB) 1024;
     largeFileThreshold := Int64.mul (Int64.mul (wrap64 largeMB) 1024) 1024;
     manyFilesCount := manyFiles;
     smallFilePercent := smallPercent;
     largeFilePercent := largePercent;
     fewFilesCount := fewFiles;
     maxSampleSize := maxSample |}.

(** [detectProtocol]. *)
Definition detectProtocol (pth : string) : Protocol :=
  if HasPrefix pth "s3://" then ProtocolS3
  else if HasPrefix pth "gs://" || HasPrefix pth "gcs://" then ProtocolGCS
  else if HasPrefix pth "azure://" || HasPrefix pth "wasb://"
       then ProtocolAzure
  else if HasPrefix pth "http://" || HasPrefix pth "https://"
       then ProtocolHTTP
  else if HasPrefix pth "ftp://" || HasPrefix pth "ftps://" then ProtocolFTP
  else if Contains pth "@"%char && Contains pth ":"%char then ProtocolSSH
  else ProtocolLocal.

Definition isLocalPath (pth : string) : bool :=
  bool_decide (detectProtocol pth = ProtocolLocal).

(** One callback of [filepath.WalkDir]: the error passed to the
    callback, whether the entry is a directory, the size reported by
    [d.Info()] (or its failure) and
    [strings.ToLower(filepath.Ext(path))]. *)
Record Entry := mkEntry {
  walkErr : bool;
  isDir : bool;
  info : option Z;
  ext : string
}.

(** How a call ends: a value, a returned error, or a run-time panic. *)
Inductive Res (A : Type) :=
  | Value (a : A)
  | Error (msg : string)
  | Panics.
Arguments Value {A} a.
Arguments Error {A} msg.
Arguments Panics {A}.

(** First walk of [analyzeLocal]: count the entries that are not
    directories. *)
Definition countFiles (walk : list Entry) : Z :=
  fold_left
    (fun fileCount d =>
       if walkErr d then fileCount
       else if negb (isDir d) then Int64.add fileCount 1 else fileCount)
    walk 0.

(** The accumulators updated by the second walk. *)
Definition classify (a : FileAnalyzer) (sampleInterval : Z)
    (an : FileAnalysis) (sz : Z) (e : string) : FileAnalysis :=
  let totalSize :=
    if 1 <? sampleInterval
    then Int64.add (TotalSize an) (Int64.mul sz sampleInterval)
    else Int64.add (TotalSize an) sz in
  let totalFiles :=
    if 1 <? sampleInterval
    then Int64.add (TotalFiles an) sampleInterval
    else Int64.add (TotalFiles an) 1 in
  let small := sz <? smallFileThreshold a in
  let large := negb small && (largeFileThreshold a <? sz) in
  let e := if String.eqb e "" then "(no extension)" else e in
  {| TotalSize := totalSize;
     TotalFiles := totalFiles;
     AverageFileSize := AverageFileSize an;
     SmallFiles :=
       if small then Int64.add (SmallFiles an) 1 else SmallFiles an;
     MediumFiles :=
       if negb small && negb large then Int64.add (MediumFiles an) 1
       else MediumFiles an;
     LargeFiles :=
       if large then Int64.add (LargeFiles an) 1 else LargeFiles an;
     FileTypes :=
       <[e := Int64.add (default 0 (FileTypes an !! e)) 1]> (FileTypes an);
     SourceProtocol := SourceProtocol an;
     DestProtocol := DestProtocol an;
     Recommendation := Recommendation an |}.

(** Second walk: [cancelled k] tells whether [ctx] is done at the
    [k]-th callback; [currentFile] counts the files seen so far. *)
Fixpoint sampleWalk (a : FileAnalyzer) (sampleInterval : Z)
    (cancelled : nat -> bool) (k : nat) (walk : list Entry)
    (currentFile : Z) (an : FileAnalysis) : Res FileAnalysis :=
  match walk with
  | [] => Value an
  | d :: rest =>
      if cancelled k then Error "context canceled"
      else if walkErr d || isDir d
      then sampleWalk a sampleInterval cancelled (S k) rest currentFile an
      else
        let currentFile := Int64.add currentFile 1 in
        if (1 <? sampleInterval)
           && negb (Z.rem currentFile sampleInterval =? 0)
        then sampleWalk a sampleInterval cancelled (S k) rest currentFile an
        else
          match info d with
          | None =>
              sampleWalk a sampleInterval cancelled (S k) rest
                currentFile an
          | Some sz =>
              sampleWalk a sampleInterval cancelled (S k) rest currentFile
                (classify a sampleInterval an sz (ext d))
          end
  end.

(** [sampleInterval] as computed between the two walks; the division
    panics on a zero [maxSampleSize]. *)
Definition samplingInterval (a : FileAnalyzer) (fileCount : Z) : Res Z :=
  if maxSampleSize a <? fileCount then
    if maxSampleSize a =? 0 then Panics
    else Value (Z.quot fileCount (maxSampleSize a))
  else Value 1.

(** [analyzeLocal] on the callbacks [walk] of the source tree. *)
Definition analyzeLocal (a : FileAnalyzer) (cancelled : nat -> bool)
    (walk : list Entry) (an : FileAnalysis) : Res FileAnalysis :=
  match samplingInterval a (countFiles walk) with
  | Value sampleInterval =>
      sampleWalk a sampleInterval cancelled 0 walk 0 an
  | Error msg => Error msg
  | Panics => Panics
  end.

(** [float64(part) / float64(total) * 100]. *)
Definition percentOf (part total : Z) : spec_float :=
  Float64.mul (Float64.div (Float64.of_int part) (Float64.of_int total))
              (Float64.of_int 100).

(** [recommendStrategy]. *)
Definition recommendStrategy (a : FileAnalyzer) (an : FileAnalysis)
    : Strategy :=
  if TotalFiles an <? fewFilesCount a then StrategyRsync
  else
    let smallFileRatio := percentOf (SmallFiles an) (TotalFiles an) in
    if Float64.gt smallFileRatio (smallFilePercent a)
       && (manyFilesCount a <? TotalFiles an)
    then StrategyTar
    else
      let largeFileRatio := percentOf (LargeFiles an) (TotalFiles an) in
      if Float64.gt largeFileRatio (largeFilePercent a) then StrategyRsync
      else StrategyRclone.

Definition emptyAnalysis (src : Protocol) : FileAnalysis :=
  {| TotalSize := 0; TotalFiles := 0; AverageFileSize := 0;
     SmallFiles := 0; MediumFiles := 0; LargeFiles := 0; FileTypes := ∅;
     SourceProtocol := src; DestProtocol := ProtocolUnset;
     Recommendation := StrategyUnset |}.

Definition withRecommendation (an : FileAnalysis) (st : Strategy)
    : FileAnalysis :=
  {| TotalSize := TotalSize an; TotalFiles := TotalFiles an;
     AverageFileSize := AverageFileSize an; SmallFiles := SmallFiles an;
     MediumFiles := MediumFiles an; LargeFiles := LargeFiles an;
     FileTypes := FileTypes an; SourceProtocol := SourceProtocol an;
     DestProtocol := DestProtocol an; Recommendation := st |}.

Definition withAverage (an : FileAnalysis) (avg : Z) : FileAnalysis :=
  {| TotalSize := TotalSize an; TotalFiles := TotalFiles an;
     AverageFileSize := avg; SmallFiles := SmallFiles an;
     MediumFiles := MediumFiles an; LargeFiles := LargeFiles an;
     FileTypes := FileTypes an; SourceProtocol := SourceProtocol an;
     DestProtocol := DestProtocol an;
     Recommendation := Recommendation an |}.

Definition withDestProtocol (an : FileAnalysis) (p : Protocol)
    : FileAnalysis :=
  {| TotalSize := TotalSize an; TotalFiles := TotalFiles an;
     AverageFileSize := AverageFileSize an; SmallFiles := SmallFiles an;
     MediumFiles := MediumFiles an; LargeFiles := LargeFiles an;
     FileTypes := FileTypes an; SourceProtocol := SourceProtocol an;
     DestProtocol := p; Recommendation := Recommendation an |}.

(** [Analyze]; [walk] is what [filepath.WalkDir(source, ...)] visits. *)
Definition Analyze (a : FileAnalyzer) (cancelled : nat -> bool)
    (walk : list Entry) (source : string) : Res FileAnalysis :=
  let an := emptyAnalysis (detectProtocol source) in
  if negb (isLocalPath source) then
    Value (withRecommendation an StrategyRclone)
  else
    match analyzeLocal a cancelled walk an with
    | Error msg => Error ("analyze local: " +:+ msg)
    | Panics => Panics
    | Value an =>
        let an :=
          if 0 <? TotalFiles an
          then withAverage an (Z.quot (TotalSize an) (TotalFiles an))
          else an in
        Value (withRecommendation an (recommendStrategy a an))
    end.

(** [AnalyzeTransfer]. *)
Definition AnalyzeTransfer (a : FileAnalyzer) (cancelled : nat -> bool)
    (walk : list Entry) (source destination : string)
    : Res FileAnalysis :=
  let sourceProto := detectProtocol source in
  let destProto := detectProtocol destination in
  if bool_decide (sourceProto = ProtocolSSH)
     && bool_decide (destProto = ProtocolSSH)
  then
    Value {| TotalSize := 0; TotalFiles := 0; AverageFileSize := 0;
             SmallFiles := 0; MediumFiles := 0; LargeFiles := 0;
             FileTypes := ∅; SourceProtocol := sourceProto;
             DestProtocol := destProto; Recommendation := StrategyProxy |}
  else
    match Analyze a cancelled walk source with
    | Value an => Value (withDestProtocol an destProto)
    | r => r
    end.

End analyzer.

(** ** Package orchestrator: engine selection *)

Module orchestrator.

Import core analyzer.

(** [Orchestrator]: the analyzer and the keys of the [engines] map. *)
Record Orchestrator := mkOrchestrator {
  o_analyzer : FileAnalyzer;
  engines : list Strategy
}.

Definition RegisterEngine (o : Orchestrator) (st : Strategy)
    : Orchestrator :=
  {| o_analyzer := o_analyzer o;
     engines := if bool_decide (st ∈ engines o) then engines o
                else engines o ++ [st] |}.

(** [New]: the four engines registered. *)
Definition New : Orchestrator :=
  RegisterEngine
    (RegisterEngine
       (RegisterEngine
          (RegisterEngine {| o_analyzer := analyzer.New; engines := [] |}
                          StrategyRclone)
          StrategyRsync)
       StrategyTar)
    StrategyProxy.

(** [GetEngine]: the strategy whose engine is returned, or the
    engine-not-found error with its exit code. *)
Definition GetEngine (o : Orchestrator) (st : Strategy) : Strategy + Z :=
  if bool_decide (st ∈ engines o) then inl st else inr ExitEngineNotFound.

(** [SelectStrategy]. *)
Definition SelectStrategy (o : Orchestrator) (cancelled : nat -> bool)
    (walk : list Entry) (source destination : string) : Res Strategy :=
  match AnalyzeTransfer (o_analyzer o) cancelled walk source destination
  with
  | Value an => Value (Recommendation an)
  | Error msg => Error ("analyze for strategy selection: " +:+ msg)
  | Panics => Panics
  end.

(** How the choice of an engine in [Transfer] ends. *)
Inductive Choice :=
  | Chosen (st : Strategy)        (* engine.Transfer is called *)
  | SelectFailed (msg : string)   (* "select strategy: ..." *)
  | NoEngine (exitCode : Z)       (* EngineNotFoundError *)
  | Panicked.

(** [Transfer] up to the call of the engine, for the strategy given in
    the options. *)
Definition chooseEngine (o : Orchestrator) (cancelled : nat -> bool)
    (walk : list Entry) (requested : Strategy)
    (source destination : string) : Choice :=
  let selected :=
    if bool_decide (requested = StrategyAuto)
       || bool_decide (requested = StrategyUnset)
    then SelectStrategy o cancelled walk source destination
    else Value requested in
  match selected with
  | Error msg => SelectFailed ("select strategy: " +:+ msg)
  | Panics => Panicked
  | Value st =>
      match GetEngine o st with
      | inl st' => Chosen st'
      | inr code => NoEngine code
      end
  end.

End orchestrator.

(** ** manifest.go: progress *)

Module progress.

Import batch.

(** [GetProgress]: completed batches, all batches, percentage. *)
Definition GetProgress (m : Manifest) : Z * Z * spec_float :=
  let total := len (M_Batches m) in
  let completedCount :=
    fold_left
      (fun n b =>
         if bool_decide (B_Status b = completed) then Int64.add n 1 else n)
      (M_Batches m) 0 in
  let percentage :=
    if 0 <? total
    then Float64.mul (Float64.div (Float64.of_int completedCount)
                                  (Float64.of_int total))
                     (Float64.of_int 100)
    else Float64.of_int 0 in
  (completedCount, total, percentage).

End progress.

(** ** The design document's side of the comparisons

    Definitions that follow the words of the design document; the
    theorems below compare them with the code. *)

Module Design.

Import batch core analyzer.

(** Sum of a list of int64 values, as a Go loop [s += x] computes it. *)
Definition sum64 (l : list Z) : Z := fold_left Int64.add l 0.

(** The exact sum. *)
Definition sumZ (l : list Z) : Z := fold_right Z.add 0 l.

(** Pre-archive size of a group of enumerated files. *)
Definition totalSize (fs : list FileInfo) : Z := sumZ (map Size fs).

(** The batch that holds exactly the files [seg], in order. *)
Definition batchOf (seg : list FileInfo) : batchInfo :=
  {| files := map Path seg; size := totalSize seg |}.

(** Exit codes listed by the design document, and those it marks
    retryable. *)
Definition documentedExitCodes : list Z :=
  [0; 1; 10; 11; 12; 20; 21; 22; 23; 30; 31; 32; 40; 41; 42; 50; 51; 52].

Definition markedRetryable : list Z := [12; 30; 32; 51; 52].

(** The text prefixes that give an endpoint the tag of an object store,
    of http or of ftp. *)
Definition schemeTags : list (string * Protocol) :=
  [ ("s3://", ProtocolS3); ("gs://", ProtocolGCS); ("gcs://", ProtocolGCS);
    ("azure://", ProtocolAzure); ("wasb://", ProtocolAzure);
    ("http://", ProtocolHTTP); ("https://", ProtocolHTTP);
    ("ftp://", ProtocolFTP); ("ftps://", ProtocolFTP) ].

(** The protocol tag of an endpoint, read off its text: the tag of the
    first prefix of [schemeTags] it starts with; failing that, ssh when
    the text has both an '@' and a ':'; failing that, local. A text
    [host:path] without '@' is tagged local. *)
Definition protocolTag (endpoint : string) : Protocol :=
  match find (fun st => HasPrefix endpoint (fst st)) schemeTags with
  | Some st => snd st
  | None =>
      if Contains endpoint "@"%char && Contains endpoint ":"%char
      then ProtocolSSH else ProtocolLocal
  end.

(** [part] of [total] as a percentage in float64: the quotient of the
    two counts, each converted to float64, times 100; every step is
    rounded to binary64. *)
Definition percentage (part total : Z) : spec_float :=
  SFmul 53 1024
    (SFdiv 53 1024 (binary_normalize 53 1024 part 0 false)
                   (binary_normalize 53 1024 total 0 false))
    (binary_normalize 53 1024 100 0 false).

(** The recommendation rules, first applicable rule first, on the
    endpoint texts and the counts of the analysis. *)
Definition firstApplicableRule (a : FileAnalyzer)
    (source destination : string) (an : FileAnalysis) : Strategy :=
  if bool_decide (protocolTag source = ProtocolSSH
                  ∧ protocolTag destination = ProtocolSSH)
  then StrategyProxy                                          (* rule 1 *)
  else if bool_decide (protocolTag source ≠ ProtocolLocal)
  then StrategyRclone                                         (* rule 2 *)
  else if bool_decide (TotalFiles an < fewFilesCount a)
  then StrategyRsync                                          (* rule 3 *)
  else if bool_decide (TotalFiles an > manyFilesCount a)
          && SFltb (smallFilePercent a)
                   (percentage (SmallFiles an) (TotalFiles an))
  then StrategyTar                                            (* rule 4 *)
  else if SFltb (largeFilePercent a)
                (percentage (LargeFiles an) (TotalFiles an))
  then StrategyRsync                                          (* rule 5 *)
  else StrategyRclone.                                        (* rule 6 *)

(** The three location shapes. *)
Inductive Shape :=
  | LocalShape (pth : string)
  | HostShape (host pth : string)
  | UserHostShape (user host pth : string).

(** Classification of an input by the design document: a leading '/'
    means local; otherwise the first ':' separates the host part from
    the path and an '@' in the host part separates the user. An input
    with an empty component has none of the three shapes. *)
Definition shapeOf (s : string) : option Shape :=
  if String.eqb s "" then None
  else if HasPrefix s "/" then Some (LocalShape s)
  else
    match Index s ":"%char with
    | None => Some (LocalShape s)
    | Some c =>
        let hostPart := slice s 0 c in
        let pth := sliceFrom s (c + 1) in
        match Index hostPart "@"%char with
        | None =>
            if String.eqb hostPart "" || String.eqb pth "" then None
            else Some (HostShape hostPart pth)
        | Some a =>
            let user := slice hostPart 0 a in
            let host := sliceFrom hostPart (a + 1) in
            if String.eqb user "" || String.eqb host ""
               || String.eqb pth ""
            then None
            else Some (UserHostShape user host pth)
        end
    end.

(** Whether the design document makes an endpoint remote: it has the
    shape [host:path] or [user@host:path]. *)
Definition remoteEndpoint (endpoint : string) : bool :=
  match shapeOf endpoint with
  | Some (HostShape _ _) | Some (UserHostShape _ _ _) => true
  | _ => false
  end.

(** The recommendation rules in the words of the design document:
    remote endpoints by their shape, ratios as exact quotients
    ([pSmall] and [pLarge] in per cent). *)
Definition documentedRule (nFew nMany pSmall pLarge : Z)
    (source destination : string) (total small large : Z) : Strategy :=
  if remoteEndpoint source && remoteEndpoint destination
  then StrategyProxy
  else if remoteEndpoint source then StrategyRclone
  else if total <? nFew then StrategyRsync
  else if (nMany <? total) && (pSmall * total <? 100 * small)
  then StrategyTar
  else if pLarge * total <? 100 * large then StrategyRsync
  else StrategyRclone.

(** Whether the first '@' of [s] comes before its first ':'. *)
Definition userBeforeColon (s : string) : bool :=
  match Index s "@"%char, Index s ":"%char with
  | Some a, Some c => (a <? c)%nat
  | _, _ => false
  end.

(** Whether [s] ends in the byte [c]. *)
Fixpoint endsWith (s : string) (c : ascii) : bool :=
  match s with
  | EmptyString => false
  | String x rest =>
      if String.eqb rest "" then Ascii.eqb x c else endsWith rest c
  end.

(** [⌈t / m⌉] for positive [m]. *)
Definition ceilDiv (t m : Z) : Z := (t + m - 1) / m.

(** A walk of [n] regular files of [sz] bytes each, no extension. *)
Definition plainFiles (n : nat) (sz : Z) : list Entry :=
  repeat {| walkErr := false; isDir := false; info := Some sz; ext := "" |}
         n.

(** *** Bin packing: groups of enumerated files *)

Definition nonneg (f : FileInfo) : Prop := 0 <= Size f.

(** Consecutive groups: the first was sealed because its size was
    positive and the first file of the next one did not fit. *)
Definition sealedRight (target : Z) (l : list (list FileInfo)) : Prop :=
  forall (i : nat) s1 s2 f,
    l !! i = Some s1 -> l !! S i = Some s2 -> head s2 = Some f ->
    0 < totalSize s1 /\ target < totalSize s1 + Size f.

(** Inside a group no seal was due: before each of its files the group
    had size zero or the file still fitted. *)
Definition notSealedInside (target : Z) (l : list (list FileInfo)) : Prop :=
  forall s p f rest,
    s ∈ l -> s = p ++ f :: rest ->
    totalSize p = 0 \/ totalSize p + Size f <= target.

(** The loop invariant of [binPackFiles]: the sealed groups and the
    current one. *)
Record packed (target : Z) (segs : list (list FileInfo))
    (cur : list FileInfo) : Prop := {
  packed_nonempty : Forall (fun s => s <> []) segs;
  packed_cur : segs <> [] -> cur <> [];
  packed_sealed : sealedRight target (segs ++ [cur]);
  packed_inside : notSealedInside target (segs ++ [cur])
}.

(** *** Manifest *)

(** What [AddBatch] keeps true of a manifest. *)
Definition conserved (m : Manifest) : Prop :=
  M_TotalFiles m = sum64 (map B_FileCount (M_Batches m)) /\
  M_TotalSize m = sum64 (map B_Size (M_Batches m)) /\
  (forall (i : nat) b, M_Batches m !! i = Some b -> B_ID b = Z.of_nat i) /\
  Forall (fun b => B_FileCount b = len (B_Files b) /\ B_Status b = pending)
         (M_Batches m).

(** *** Buffer *)

(** A release whose argument is not negative and which does not take
    the counter below the least int64. *)
Definition releaseInRange (s : Shared) (e : BufferEvent) : Prop :=
  match e with
  | DoRelease n => 0 <= n /\ min_int <= currentSize (manager s) - n
  | _ => True
  end.

Fixpoint admissible (s : Shared) (evs : list BufferEvent) : Prop :=
  match evs with
  | [] => True
  | e :: rest => releaseInRange s e /\ admissible (bufferStep s e) rest
  end.

Definition bounded (s : Shared) : Prop :=
  0 <= maxSize (manager s) <= max_int /\
  currentSize (manager s) <= maxSize (manager s).

(** A buffer of 1 GiB with 1100 bytes left, a batch declared at 1000
    bytes, and a tar run that leaves an archive of 1536 bytes. *)
Definition nearlyFull : BufferManager :=
  {| path := "/tmp/difpipe-buffer"; maxSize := 1024 * 1024 * 1024;
     currentSize := 1024 * 1024 * 1024 - 1100 |}.

Definition smallBatch : Batch :=
  {| B_ID := 7; B_Files := ["a.jpg"; "b.jpg"]; B_Size := 1000;
     B_FileCount := 2; B_Status := pending; B_LocalPath := "";
     B_Error := "" |}.

Definition archiveLarger : SourceRun :=
  {| batchPath := "/tmp/difpipe-buffer/manifest-1/batch_00007.tar.gz";
     ensureDirErr := None; waits := []; fileListErr := None;
     tarErr := None; tarWrote := Some 1536 |}.

(** *** Dispatcher *)

Definition statusAt (e : Engine) (i : nat) (st : BatchStatus) : Prop :=
  forall b, batches e !! i = Some b -> B_Status b = st.

(** The invariant of a run of [coordinateTransfer]. *)
Record dispatchInv (e : Engine) : Prop := {
  inv_ids : forall (i : nat) b,
    batches e !! i = Some b -> B_ID b = Z.of_nat i;
  inv_fed : (fed e <= length (batches e))%nat;
  inv_received : NoDup (received e);
  inv_map : forall id, wasEnqueued e id = true <-> id ∈ received e;
  inv_destQueue : forall i, i ∈ destQueue e ->
    (i ∈ reachedBuffered e) /\ (Z.of_nat i ∈ received e);
  inv_destActive : forall i, i ∈ destActive e ->
    (i ∈ reachedBuffered e) /\ (Z.of_nat i ∈ received e);
  inv_reached : forall i, i ∈ reachedBuffered e ->
    exists b, batches e !! i = Some b /\
              (B_Status b = buffered \/ (Z.of_nat i ∈ received e));
  inv_buffered : forall (i : nat) b,
    batches e !! i = Some b -> B_Status b = buffered ->
    i ∈ reachedBuffered e;
  inv_sourceQueue : forall i, i ∈ sourceQueue e ->
    (i < fed e)%nat /\ (i ∉ reachedBuffered e) /\ statusAt e i pending;
  inv_sourceQueue_nodup : NoDup (sourceQueue e);
  inv_sourceActive : forall i, i ∈ sourceActive e ->
    (i < length (batches e))%nat /\ (i ∉ reachedBuffered e)
    /\ statusAt e i downloading;
  inv_sourceActive_nodup : NoDup (sourceActive e);
  inv_unfed : forall i, (fed e <= i)%nat ->
    (i ∉ reachedBuffered e) /\ statusAt e i pending
}.

(** *** Sample inputs *)

(** The six files of TestBinPackFiles, with a 10 MB chunk size. *)
Definition MiB : Z := 1024 * 1024.

Definition sixFiles : list FileInfo :=
  [ {| Path := "file1.txt"; Size := 5 * MiB |};
    {| Path := "file2.txt"; Size := 3 * MiB |};
    {| Path := "file3.txt"; Size := 7 * MiB |};
    {| Path := "file4.txt"; Size := 2 * MiB |};
    {| Path := "file5.txt"; Size := 15 * MiB |};
    {| Path := "file6.txt"; Size := 1 * MiB |} ].

Definition tenMBChunks : Config :=
  {| ChunkSizeMB := 10; SourceWorkers := 4; DestWorkers := 2;
     BufferEnabled := true; BufferPath := "/tmp/difpipe-buffer";
     BufferMaxSizeGB := 100; CleanupBuffer := true; KeepOnFailure := true;
     CheckpointPath := "/tmp/difpipe-checkpoint.json";
     CheckpointEnabled := true |}.

(** A manifest of two batches and a run that takes batch 0 through
    both pools while batch 1 fails at the source. *)
Definition twoBatches : Manifest :=
  addBatches (NewManifest "manifest-1" 1 "/srv/data" "/mnt/backup" 50)
    [ {| files := ["a.txt"; "b.txt"]; size := 10 |};
      {| files := ["c.txt"]; size := 20 |} ].

Definition sampleRun : list Event :=
  [ Feed; Feed; SourceTake; SourceTake;
    SourceDone 0 (Ok ("/tmp/difpipe-buffer/manifest-1/batch_00000.tar.gz",
                      128));
    Tick; Visit; Visit; Visit;
    DestTake; SourceDone 1 (Err "create tar: tar failed");
    DestDone 0 None;
    Tick; Visit; Visit; Visit ].

(** *** The batch state machine *)

(** The status changes that a run performs. *)
Inductive advances : BatchStatus -> BatchStatus -> Prop :=
  | adv_take : advances pending downloading
  | adv_archived : advances downloading buffered
  | adv_source_failed : advances downloading failed
  | adv_dispatch : advances buffered uploading
  | adv_extracted : advances uploading completed
  | adv_dest_failed : advances uploading failed.

(** What holds of the destination side of a run, besides
    [dispatchInv]. *)
Record destInv (e : Engine) : Prop := {
  dest_queue : forall i, i ∈ destQueue e ->
    (i < length (batches e))%nat /\ statusAt e i buffered;
  dest_queue_nodup : NoDup (destQueue e);
  dest_active : forall i, i ∈ destActive e ->
    (i < length (batches e))%nat /\ statusAt e i uploading;
  dest_active_nodup : NoDup (destActive e)
}.

(** Queue and worker bounds of both pools. *)
Definition withinCapacity (e : Engine) : Prop :=
  len (sourceQueue e) <= Z.max 0 (SourceWorkers (config e) * 2) /\
  len (sourceActive e) <= Z.max 0 (SourceWorkers (config e)) /\
  len (destQueue e) <= Z.max 0 (DestWorkers (config e) * 2) /\
  len (destActive e) <= Z.max 0 (DestWorkers (config e)).

(** The number of files that the second walk of [analyzeLocal]
    classified. *)
Definition classified (an : core.FileAnalysis) : Z :=
  core.SmallFiles an + core.MediumFiles an + core.LargeFiles an.

(** What one event does to a batch: the status stays or moves along
    [advances]; id, files and file count stay. *)
Definition moved (b b' : Batch) : Prop :=
  (B_Status b' = B_Status b \/ advances (B_Status b) (B_Status b')) /\
  B_ID b' = B_ID b /\ B_Files b' = B_Files b /\
  B_FileCount b' = B_FileCount b.

(** The poller has returned nil only after a stop or with every batch
    terminal. *)
Definition returnedWhenDone (e : Engine) : Prop :=
  poller e = Exited None ->
  stopChan e = true \/ allBatchesCompleted e = true.

(** Releases by other goroutines, between two reservation attempts,
    that keep the counter at or above zero from the value [cur]. *)
Fixpoint keepsNonneg (cur : Z) (ws : list WaitEvent) : Prop :=
  match ws with
  | [] => True
  | Stopped :: _ => True
  | Freed n :: rest => 0 <= n /\ 0 <= cur - n /\ keepsNonneg (cur - n) rest
  end.

(** *** The second walk of the analyzer *)

(** [countFiles] from a running count. *)
Definition countFrom (walk : list analyzer.Entry) (n : Z) : Z :=
  fold_left
    (fun fileCount d =>
       if analyzer.walkErr d then fileCount
       else if negb (analyzer.isDir d) then Int64.add fileCount 1
            else fileCount)
    walk n.

(** What the second walk keeps, [currentFile] files into the tree;
    [Z.max 1 interval] is the step by which [classify] advances
    [TotalFiles]. *)
Record sampled (interval currentFile : Z) (an : core.FileAnalysis)
    : Prop := {
  small_nonneg : 0 <= core.SmallFiles an;
  medium_nonneg : 0 <= core.MediumFiles an;
  large_nonneg : 0 <= core.LargeFiles an;
  total_scaled : core.TotalFiles an = Z.max 1 interval * classified an;
  classified_le : classified an <= currentFile / Z.max 1 interval;
  no_empty_extension : core.FileTypes an !! "" = None;
  extension_range : forall e n,
    core.FileTypes an !! e = Some n -> 1 <= n <= classified an
}.

End Design.

(** * Properties *)

Import Int64 Go batch core analyzer Design.

(** ** int64 arithmetic *)

Section Int64Facts.

Lemma wrap64_range z : in_range (wrap64 z).
Proof.
  unfold in_range, wrap64, min_int, max_int, modulus.
  pose proof (Z.mod_pos_bound (z - -9223372036854775808)
                18446744073709551616 ltac:(lia)).
  lia.
Qed.

Lemma wrap64_id z : in_range z -> wrap64 z = z.
Proof.
  unfold in_range, wrap64, min_int, max_int, modulus. intros H.
  rewrite Z.mod_small; lia.
Qed.

Lemma wrap64_add_l a b : wrap64 (wrap64 a + b) = wrap64 (a + b).
Proof.
  unfold wrap64. generalize min_int modulus. intros m M.
  replace ((a - m) mod M + m + b - m) with ((a - m) mod M + b) by lia.
  rewrite Zplus_mod_idemp_l.
  replace (a - m + b) with (a + b - m) by lia. reflexivity.
Qed.

Lemma wrap64_add_r a b : wrap64 (a + wrap64 b) = wrap64 (a + b).
Proof. rewrite Z.add_comm, wrap64_add_l. f_equal. lia. Qed.

End Int64Facts.

(** ** Manifest conservation *)

Section Manifest.

Lemma sum64_snoc l x : sum64 (l ++ [x]) = Int64.add (sum64 l) x.
Proof. unfold sum64. by rewrite fold_left_app. Qed.

Lemma sum64_wrap_from l a :
  fold_left Int64.add l (wrap64 a) = wrap64 (a + sumZ l).
Proof.
  revert a. induction l as [|x l IH]; intros a; simpl.
  - f_equal. lia.
  - unfold Int64.add at 2. rewrite wrap64_add_l, IH. f_equal. lia.
Qed.

Lemma sum64_wrap l : sum64 l = wrap64 (sumZ l).
Proof.
  unfold sum64. change 0 with (wrap64 0) at 1. by rewrite sum64_wrap_from.
Qed.

Lemma NewManifest_conserved id now src dst chunk :
  conserved (NewManifest id now src dst chunk).
Proof. repeat split; simpl; try done. Qed.

Lemma AddBatch_conserved m fls sz :
  conserved m -> conserved (fst (AddBatch m fls sz)).
Proof.
  intros (Hf & Hs & Hid & Hall). unfold conserved; simpl.
  rewrite !map_app; simpl. rewrite !sum64_snoc, <- Hf, <- Hs.
  repeat split; try done.
  - intros i b Hi. apply lookup_app_Some in Hi as [Hi|[Hlen Hi]].
    + by apply Hid.
    + apply list_lookup_singleton_Some in Hi as [Hi <-]. simpl.
      unfold len. lia.
  - apply Forall_app; split; [done|]. by repeat constructor.
Qed.

Lemma addBatches_conserved calls : forall m,
  conserved m -> conserved (addBatches m calls).
Proof.
  induction calls as [|c calls IH]; intros m Hm; [done|].
  change (addBatches m (c :: calls))
    with (addBatches (fst (AddBatch m (files c) (size c))) calls).
  apply IH. by apply AddBatch_conserved.
Qed.

Lemma addBatches_batches calls : forall m,
  map B_Size (M_Batches (addBatches m calls))
    = map B_Size (M_Batches m) ++ map size calls /\
  map B_Files (M_Batches (addBatches m calls))
    = map B_Files (M_Batches m) ++ map files calls.
Proof.
  induction calls as [|c calls IH]; intros m.
  - simpl. by rewrite !app_nil_r.
  - change (addBatches m (c :: calls))
      with (addBatches (fst (AddBatch m (files c) (size c))) calls).
    destruct (IH (fst (AddBatch m (files c) (size c)))) as [-> ->].
    simpl. rewrite !map_app; simpl. by rewrite <- !app_assoc.
Qed.

End Manifest.

(** Claim C3, as the code has it. Whatever sequence of [AddBatch] calls
    builds a manifest
    (the builder makes one call per packed batch), [TotalFiles] is the
    sum of the batches' [FileCount] and [TotalSize] the sum of their
    declared [Size], both sums taken in the fields' int64 arithmetic and
    hence exact whenever the true sum is an int64; the declared sizes are
    the arguments of the calls, and batch [i] has id [i] and as many
    files as its [FileCount]. *)
Theorem manifest_conservation id now source destination chunk
    (calls : list batchInfo) :
  let m := addBatches (NewManifest id now source destination chunk) calls in
  M_TotalFiles m = sum64 (map B_FileCount (M_Batches m)) /\
  M_TotalSize m = sum64 (map B_Size (M_Batches m)) /\
  map B_Size (M_Batches m) = map size calls /\
  (forall (i : nat) b, M_Batches m !! i = Some b ->
     B_ID b = Z.of_nat i /\ B_FileCount b = len (B_Files b)) /\
  (in_range (sumZ (map B_FileCount (M_Batches m))) ->
     M_TotalFiles m = sumZ (map B_FileCount (M_Batches m))) /\
  (in_range (sumZ (map B_Size (M_Batches m))) ->
     M_TotalSize m = sumZ (map B_Size (M_Batches m))).
Proof.
  intros m.
  destruct (addBatches_conserved calls _
              (NewManifest_conserved id now source destination chunk))
    as (Hf & Hs & Hid & Hall).
  fold m in Hf, Hs, Hid, Hall.
  repeat split; try done.
  - apply (addBatches_batches calls
             (NewManifest id now source destination chunk)).
  - by apply Hid.
  - rewrite Forall_forall in Hall. apply Hall.
    by eapply list_elem_of_lookup_2.
  - intros Hr. by rewrite Hf, sum64_wrap, wrap64_id.
  - intros Hr. by rewrite Hs, sum64_wrap, wrap64_id.
Qed.

(** The conservation theorem on the manifest of the six test files:
    both sums are in range, so the totals are the exact sums. *)
Lemma manifest_conservation_witness :
  let m := addBatches
             (NewManifest "manifest-1" 1 "/srv/data" "/mnt/backup" 10)
             (binPackFiles tenMBChunks sixFiles) in
  M_TotalFiles m = sumZ (map B_FileCount (M_Batches m)) /\
  M_TotalSize m = sumZ (map B_Size (M_Batches m)) /\
  M_TotalFiles m = 6 /\ M_TotalSize m = 33 * MiB /\
  (forall b, M_Batches m !! 2%nat = Some b ->
     B_ID b = 2 /\ B_FileCount b = len (B_Files b)).
Proof.
  intros m.
  destruct (manifest_conservation "manifest-1" 1 "/srv/data" "/mnt/backup"
              10 (binPackFiles tenMBChunks sixFiles))
    as (_ & _ & _ & Hid & Hfiles & Hsize).
  fold m in Hid, Hfiles, Hsize.
  split; [apply Hfiles; vm_compute; split; discriminate|].
  split; [apply Hsize; vm_compute; split; discriminate|].
  split; [reflexivity|]. split; [reflexivity|].
  intros b Hb. apply (Hid 2%nat b Hb).
Defined.

(** Against claim C3 as worded: two batches declared at 2^62 bytes
    each. The sum of the declared sizes is 2^63, one more than the
    largest int64, and [TotalSize] has wrapped to -2^63; [TotalFiles]
    and the ids are as claimed. *)
Lemma manifest_total_size_wraps_counterexample :
  let m := addBatches
             (NewManifest "manifest-1" 1 "/srv/data" "/mnt/backup" 50)
             [ {| files := ["a.img"]; size := 2 ^ 62 |};
               {| files := ["b.img"]; size := 2 ^ 62 |} ] in
  map B_Size (M_Batches m) = [2 ^ 62; 2 ^ 62] /\
  sumZ (map B_Size (M_Batches m)) = 2 ^ 63 /\
  M_TotalSize m = - 2 ^ 63 /\
  M_TotalSize m <> sumZ (map B_Size (M_Batches m)) /\
  M_TotalSize m = sum64 (map B_Size (M_Batches m)) /\
  M_TotalFiles m = sumZ (map B_FileCount (M_Batches m)).
Proof. vm_compute. repeat split; (reflexivity || discriminate). Qed.

(** ** Bin packing *)

Section BinPack.

Variable target : Z.

Lemma totalSize_app a b : totalSize (a ++ b) = totalSize a + totalSize b.
Proof.
  unfold totalSize. induction a as [|x a IH]; simpl; [lia|].
  rewrite IH. lia.
Qed.

Lemma totalSize_nonneg l : Forall nonneg l -> 0 <= totalSize l.
Proof.
  unfold totalSize. induction 1 as [|x l Hx _ IH]; simpl; [lia|].
  unfold nonneg in Hx. lia.
Qed.

(** Order is kept whatever the sizes are. *)
Lemma packLoop_order fs : forall batches cur,
  let '(batches', cur') := packLoop target fs (batches, cur) in
  concat (map files batches') ++ files cur'
    = concat (map files batches) ++ files cur ++ map Path fs.
Proof.
  induction fs as [|f fs IH]; intros batches cur; simpl.
  - by rewrite app_nil_r.
  - destruct ((0 <? size cur) && (target <? Int64.add (size cur) (Size f))).
    + specialize (IH (batches ++ [cur])
                     {| files := files emptyBatch ++ [Path f];
                        size := Int64.add (size emptyBatch) (Size f) |}).
      destruct (packLoop target fs _) as [b' c']. rewrite IH. simpl.
      rewrite map_app, concat_app. simpl. by rewrite app_nil_r, <- !app_assoc.
    + specialize (IH batches
                     {| files := files cur ++ [Path f];
                        size := Int64.add (size cur) (Size f) |}).
      destruct (packLoop target fs _) as [b' c']. rewrite IH. simpl.
      by rewrite <- !app_assoc.
Qed.

Lemma packed_init : packed target [] [].
Proof.
  split; try done.
  - intros s p f rest Hs ->. apply list_elem_of_singleton in Hs.
    by destruct p.
Qed.

Lemma packed_seal segs cur f :
  packed target segs cur -> cur <> [] ->
  0 < totalSize cur -> target < totalSize cur + Size f ->
  packed target (segs ++ [cur]) [f].
Proof.
  intros [Hne Hcur Hs Hi] Hc Hpos Hfit. split.
  - apply Forall_app. split; [done|]. by constructor.
  - done.
  - intros i s1 s2 g H1 H2 Hg.
    destruct (decide (S i < length (segs ++ [cur]))%nat) as [Hlt|Hge].
    + rewrite lookup_app_l in H1 by lia. rewrite lookup_app_l in H2 by lia.
      by eapply Hs.
    + apply lookup_lt_Some in H2 as Hlen. rewrite length_app in Hlen.
      simpl in Hlen.
      assert (S i = length (segs ++ [cur])) as Hi' by lia.
      rewrite Hi' in H2. rewrite lookup_app_r in H2 by lia.
      rewrite Nat.sub_diag in H2. simpl in H2. injection H2 as <-.
      simpl in Hg. injection Hg as <-.
      rewrite lookup_app_l in H1 by lia.
      rewrite length_app in Hi'. simpl in Hi'.
      assert (i = length segs) as -> by lia.
      rewrite lookup_app_r in H1 by lia. rewrite Nat.sub_diag in H1.
      simpl in H1. injection H1 as <-. done.
  - intros s p g rest Hs' ->. apply elem_of_app in Hs' as [Hs'|Hs'].
    + by eapply Hi.
    + apply list_elem_of_singleton in Hs'. destruct p as [|? [|]]; simpl in *.
      * by left.
      * discriminate.
      * discriminate.
Qed.

Lemma packed_extend segs cur f :
  packed target segs cur ->
  (totalSize cur = 0 \/ totalSize cur + Size f <= target) ->
  packed target segs (cur ++ [f]).
Proof.
  intros [Hne Hcur Hs Hi] Hfit. split.
  - done.
  - intros _. by destruct cur.
  - intros i s1 s2 g H1 H2 Hg.
    destruct (decide (S i < length segs)%nat) as [Hlt|Hge].
    + rewrite lookup_app_l in H1 by lia. rewrite lookup_app_l in H2 by lia.
      apply (Hs i s1 s2 g); [|by rewrite lookup_app_l by lia|done].
      by rewrite lookup_app_l by lia.
    + apply lookup_lt_Some in H2 as Hlen. rewrite length_app in Hlen.
      simpl in Hlen. assert (S i = length segs) as Hi' by lia.
      rewrite Hi' in H2. rewrite lookup_app_r in H2 by lia.
      rewrite Nat.sub_diag in H2. simpl in H2. injection H2 as <-.
      rewrite lookup_app_l in H1 by lia.
      assert (cur <> []) as Hc by (apply Hcur; destruct segs; [simpl in *; lia|done]).
      apply (Hs i s1 cur g).
      * by rewrite lookup_app_l by lia.
      * rewrite Hi', lookup_app_r by lia. by rewrite Nat.sub_diag.
      * by destruct cur.
  - intros s p g rest Hs' Heq. apply elem_of_app in Hs' as [Hs'|Hs'].
    + apply (Hi s p g rest); [|done]. apply elem_of_app. by left.
    + apply list_elem_of_singleton in Hs'. subst s.
      destruct (decide (rest = [])) as [->|Hrest].
      * apply app_inj_tail in Heq as [-> ->]. done.
      * destruct (exists_last Hrest) as (rest' & x & ->).
        rewrite app_comm_cons, app_assoc in Heq.
        apply app_inj_tail in Heq as [Heq ->].
        apply (Hi cur p g rest'); [|done].
        apply elem_of_app. right. by apply list_elem_of_singleton.
Qed.

Lemma batchOf_snoc cur f :
  in_range (totalSize cur + Size f) ->
  {| files := files (batchOf cur) ++ [Path f];
     size := Int64.add (size (batchOf cur)) (Size f) |} = batchOf (cur ++ [f]).
Proof.
  intros Hr. unfold batchOf; simpl. f_equal.
  - by rewrite map_app.
  - unfold Int64.add. rewrite wrap64_id by done. by rewrite totalSize_app; unfold totalSize; simpl; lia.
Qed.

Lemma packLoop_packed fs : forall segs cur,
  Forall nonneg fs -> Forall nonneg cur ->
  totalSize cur + totalSize fs <= max_int ->
  packed target segs cur ->
  exists segs' cur',
    packLoop target fs (map batchOf segs, batchOf cur)
      = (map batchOf segs', batchOf cur') /\
    packed target segs' cur' /\
    concat segs' ++ cur' = concat segs ++ cur ++ fs.
Proof.
  induction fs as [|f fs IH]; intros segs cur Hfs Hcur Hsum Hp.
  - exists segs, cur. by rewrite app_nil_r.
  - apply Forall_cons in Hfs as [Hf Hfs].
    pose proof (totalSize_nonneg _ Hcur) as Hc0.
    pose proof (totalSize_nonneg _ Hfs) as Hfs0.
    assert (totalSize (f :: fs) = Size f + totalSize fs) as Hcons by done.
    unfold nonneg in Hf.
    assert (in_range (totalSize cur + Size f)) as Hr
      by (unfold in_range, min_int, max_int in *; lia).
    simpl packLoop. unfold packFile.
    change (size (batchOf cur)) with (totalSize cur).
    unfold Int64.add at 1. rewrite (wrap64_id _ Hr).
    destruct ((0 <? totalSize cur) && (target <? totalSize cur + Size f))
      eqn:Hseal.
    + apply andb_prop in Hseal as [Hpos Hfit].
      apply Z.ltb_lt in Hpos. apply Z.ltb_lt in Hfit.
      assert (cur <> []) as Hne by (intros ->; unfold totalSize in Hpos; simpl in Hpos; lia).
      destruct (IH (segs ++ [cur]) [f]) as (segs' & cur' & Hrun & Hp' & Hcat).
      * done.
      * by constructor.
      * unfold totalSize at 1. simpl. lia.
      * by apply packed_seal.
      * exists segs', cur'. split; [|split; [done|]].
        -- rewrite <- Hrun. rewrite map_app. simpl. do 2 f_equal.
           unfold batchOf, emptyBatch, Int64.add; simpl. f_equal.
           unfold totalSize; simpl. rewrite wrap64_id; [lia|].
           unfold in_range, min_int, max_int in *. lia.
        -- rewrite Hcat, concat_app. simpl. by rewrite app_nil_r, <- !app_assoc.
    + destruct (IH segs (cur ++ [f])) as (segs' & cur' & Hrun & Hp' & Hcat).
      * done.
      * apply Forall_app. split; [done|]. by constructor.
      * rewrite totalSize_app. unfold totalSize at 2. simpl. lia.
      * apply packed_extend; [done|].
        apply andb_false_iff in Hseal as [H|H].
        -- left. apply Z.ltb_ge in H. lia.
        -- right. apply Z.ltb_ge in H. lia.
      * exists segs', cur'. split; [|split; [done|]].
        -- rewrite <- Hrun. do 2 f_equal.
           by apply batchOf_snoc.
        -- rewrite Hcat. by rewrite <- !app_assoc.
Qed.

Lemma packed_all segs cur :
  packed target segs cur ->
  let all := if decide (cur = []) then segs else segs ++ [cur] in
  Forall (fun s => s <> []) all /\ sealedRight target all /\ notSealedInside target all.
Proof.
  intros [Hne Hcur Hs Hi]. destruct (decide (cur = [])) as [->|Hc]; simpl.
  - destruct segs as [|s segs]; [|by destruct Hcur].
    split; [done|]. split.
    + intros i s1 s2 f H. by rewrite lookup_nil in H.
    + intros s p f rest H. by apply elem_of_nil in H.
  - split; [|done]. apply Forall_app. split; [done|].
    by constructor.
Qed.

End BinPack.

Lemma oversize_alone target segs :
  Forall (Forall nonneg) segs -> notSealedInside target segs ->
  forall s p f rest,
    s ∈ segs -> s = p ++ f :: rest -> target < Size f ->
    totalSize p = 0 /\ (0 < Size f -> rest = []).
Proof.
  intros Hnn Hin s p f rest Hs Heq Hbig.
  rewrite Forall_forall in Hnn. specialize (Hnn s Hs). subst s.
  apply Forall_app in Hnn as [Hp Hfr]. apply Forall_cons in Hfr as [Hf Hrest].
  pose proof (totalSize_nonneg _ Hp) as Hp0.
  split.
  - destruct (Hin _ p f rest Hs eq_refl); lia.
  - intros Hpos. destruct rest as [|g rest]; [done|]. exfalso.
    apply Forall_cons in Hrest as [Hg _]. unfold nonneg in Hg.
    destruct (Hin _ (p ++ [f]) g rest Hs) as [H|H].
    + by rewrite <- app_assoc.
    + rewrite totalSize_app in H. unfold totalSize at 2 in H. simpl in H. lia.
    + rewrite totalSize_app in H. unfold totalSize at 2 in H. simpl in H. lia.
Qed.

(** Claim C2, as the code has it. For every list of files and every
    chunk size:
    - concatenating the batches in order gives back the enumerated
      paths, whatever the sizes;
    - when the sizes are not negative and their total is an int64, the
      batches are the enumeration cut into non-empty consecutive groups
      [segs], each batch holding the paths and the exact size of its
      group, such that a group was sealed only when its size was
      positive and the first file of the next group did not fit
      ([sealedRight]), no seal was due inside a group: before each file
      the group had size zero or the file still fitted
      ([notSealedInside]), and a file larger than the chunk size is
      preceded in its batch by zero-size files only and, when its own
      size is positive, is the last file of its batch. *)
Theorem binPackFiles_first_fit config fs :
  concat (map files (binPackFiles config fs)) = map Path fs /\
  (Forall (fun f => 0 <= Size f) fs -> totalSize fs <= max_int ->
   exists segs,
     concat segs = fs /\
     binPackFiles config fs = map batchOf segs /\
     Forall (fun s => s <> []) segs /\
     sealedRight (targetSize config) segs /\
     notSealedInside (targetSize config) segs /\
     (forall s p f rest,
        s ∈ segs -> s = p ++ f :: rest -> targetSize config < Size f ->
        totalSize p = 0 /\ (0 < Size f -> rest = []))).
Proof.
  split.
  - unfold binPackFiles.
    pose proof (packLoop_order (targetSize config) fs [] emptyBatch) as H.
    destruct (packLoop _ fs _) as [batches cur]. simpl in H.
    destruct (0 <? len (files cur)) eqn:E.
    + rewrite map_app, concat_app. simpl. by rewrite app_nil_r.
    + apply Z.ltb_ge in E. unfold len in E.
      destruct (files cur); [|simpl in E; lia]. by rewrite app_nil_r in H.
  - intros Hnn Hsum.
    destruct (packLoop_packed (targetSize config) fs [] [])
      as (segs & cur & Hrun & Hp & Hcat); [done|done| |apply packed_init|].
    { unfold totalSize at 1. simpl. lia. }
    simpl in Hcat.
    pose proof (packed_all _ _ _ Hp) as Hall.
    exists (if decide (cur = []) then segs else segs ++ [cur]).
    assert (concat (if decide (cur = []) then segs else segs ++ [cur]) = fs)
      as Hconcat.
    { destruct (decide (cur = [])) as [->|_].
      - by rewrite app_nil_r in Hcat.
      - rewrite concat_app. simpl. by rewrite app_nil_r. }
    destruct Hall as (Hne & Hs & Hi).
    split; [done|]. split; [|split; [done|split; [done|split; [done|]]]].
    + unfold binPackFiles. change ([], emptyBatch)
        with (map batchOf [], batchOf []). rewrite Hrun.
      destruct (decide (cur = [])) as [->|Hc]; [done|].
      destruct cur; [done|]. simpl. by rewrite map_app.
    + apply oversize_alone; [|done].
      rewrite <- Hconcat in Hnn. clear -Hnn.
      induction (if decide (cur = []) then segs else segs ++ [cur])
        as [|s l IH]; [done|].
      simpl in Hnn. apply Forall_app in Hnn as [? ?].
      constructor; [done|]. by apply IH.
Qed.

(** Against claim C2: after a zero-size file the current batch is not
    empty, yet the next file, larger than the 50 MiB chunk size, is not
    given a batch of its own. *)
Lemma binPackFiles_zero_size_counterexample :
  targetSize DefaultConfig = 50 * MiB /\
  binPackFiles DefaultConfig
    [ {| Path := "empty.txt"; Size := 0 |};
      {| Path := "big.iso"; Size := 60 * MiB |} ]
  = [ {| files := ["empty.txt"; "big.iso"]; size := 60 * MiB |} ].
Proof. split; vm_compute; reflexivity. Qed.

(** The grouping theorem on the six test files. *)
Lemma binPackFiles_first_fit_witness :
  Forall (fun f => 0 <= Size f) sixFiles /\
  totalSize sixFiles <= max_int /\
  exists segs,
    concat segs = sixFiles /\
    binPackFiles tenMBChunks sixFiles = map batchOf segs /\
    Forall (fun s => s <> []) segs /\
    sealedRight (targetSize tenMBChunks) segs /\
    notSealedInside (targetSize tenMBChunks) segs /\
    (forall s p f rest,
       s ∈ segs -> s = p ++ f :: rest -> targetSize tenMBChunks < Size f ->
       totalSize p = 0 /\ (0 < Size f -> rest = [])).
Proof.
  assert (Forall (fun f => 0 <= Size f) sixFiles) as Hnn.
  { repeat constructor; vm_compute; discriminate. }
  assert (totalSize sixFiles <= max_int) as Hsum.
  { vm_compute; discriminate. }
  split; [exact Hnn|]. split; [exact Hsum|].
  exact (proj2 (binPackFiles_first_fit tenMBChunks sixFiles) Hnn Hsum).
Defined.

(** TestBinPackFiles: batches of 8, 9, 15 and 1 MiB. *)
Example binPackFiles_six_files :
  binPackFiles tenMBChunks sixFiles
  = [ {| files := ["file1.txt"; "file2.txt"]; size := 8 * MiB |};
      {| files := ["file3.txt"; "file4.txt"]; size := 9 * MiB |};
      {| files := ["file5.txt"]; size := 15 * MiB |};
      {| files := ["file6.txt"]; size := 1 * MiB |} ].
Proof. vm_compute. reflexivity. Qed.

(** ** Buffer reservations *)

Section Buffer.

Lemma ReserveSpace_cases bm n :
  ReserveSpace bm n =
    if decide (Int64.add (currentSize bm) n <= maxSize bm)
    then (true, setCurrent bm (Int64.add (currentSize bm) n))
    else (false, bm).
Proof.
  unfold ReserveSpace. case_decide as H.
  - apply Z.ltb_ge in H. by rewrite H.
  - apply Z.nle_gt, Z.ltb_lt in H. by rewrite H.
Qed.

Lemma reserve_alone bm n :
  let '(bm1, pc1) := reserveStep n bm AtLoad in
  reserveStep n bm1 pc1
    = (snd (ReserveSpace bm n), Returned (fst (ReserveSpace bm n))).
Proof.
  unfold ReserveSpace; simpl.
  destruct (maxSize bm <? Int64.add (currentSize bm) n); [done|].
  by rewrite Z.eqb_refl.
Qed.

Lemma reserveStep_swap n bm current bm' :
  reserveStep n bm (AtCAS current) = (bm', Returned true) <->
  Int64.add current n <= maxSize bm /\ currentSize bm = current /\
  bm' = setCurrent bm (Int64.add current n).
Proof.
  simpl. destruct (maxSize bm <? Int64.add current n) eqn:Hfull.
  - apply Z.ltb_lt in Hfull. split; [done|]. lia.
  - apply Z.ltb_ge in Hfull.
    destruct (currentSize bm =? current) eqn:Hsame.
    + apply Z.eqb_eq in Hsame. split.
      * by intros [= <-].
      * by intros (_ & _ & ->).
    + apply Z.eqb_neq in Hsame. split; [done|]. by intros (_ & ? & _).
Qed.

Lemma reserveStep_max n bm pc :
  maxSize (fst (reserveStep n bm pc)) = maxSize bm.
Proof.
  destruct pc as [|cur|ok]; simpl; try done.
  destruct (maxSize bm <? Int64.add cur n); [done|].
  by destruct (currentSize bm =? cur).
Qed.

Lemma reserveStep_bound n bm pc :
  currentSize bm <= maxSize bm ->
  currentSize (fst (reserveStep n bm pc)) <= maxSize bm.
Proof.
  intros H. destruct pc as [|cur|ok]; simpl; try done.
  destruct (maxSize bm <? Int64.add cur n) eqn:E; [done|].
  destruct (currentSize bm =? cur); [|done]. simpl.
  by apply Z.ltb_ge in E.
Qed.

Lemma bufferStep_bounded s e :
  bounded s -> releaseInRange s e -> bounded (bufferStep s e).
Proof.
  intros [Hmax Hcur] Hrel. destruct e as [n|call|n|removeErr]; simpl.
  - done.
  - destruct (calls s !! call) as [[n pc]|]; [|done].
    pose proof (reserveStep_max n (manager s) pc) as Hm.
    pose proof (reserveStep_bound n (manager s) pc Hcur) as Hb.
    destruct (reserveStep n (manager s) pc) as [bm pc']. simpl in *.
    split; simpl; by rewrite ?Hm.
  - simpl in Hrel. destruct Hrel as [Hn Hlow]. split; simpl; [done|].
    unfold Int64.add, Int64.neg. rewrite wrap64_add_r, wrap64_id.
    + lia.
    + unfold in_range. lia.
  - destruct removeErr; simpl; [done|]. split; simpl; lia.
Qed.

Lemma bufferRun_bounded evs : forall s,
  bounded s -> admissible s evs ->
  forall k, bounded (bufferRun s (take k evs)).
Proof.
  induction evs as [|e evs IH]; intros s Hs Hadm k.
  - by rewrite take_nil.
  - destruct k as [|k]; [done|]. destruct Hadm as [Hrel Hadm]. simpl.
    apply IH; [|done]. by apply bufferStep_bounded.
Qed.

End Buffer.

(** Claim C4, as the code has it.
    - [ReserveSpace(n)] succeeds, adding [n] to the counter, exactly
      when the int64 sum [current + n] is at most [max]; otherwise it
      returns false and leaves the counter alone.
    - A call that runs without interference returns after one load and
      one compare-and-swap: it never waits. Among concurrent calls, a
      compare-and-swap makes its call return true exactly when the
      counter still holds the loaded value and that value plus [n] is
      at most [max], and it then stores the sum.
    - For a buffer whose [max] is not negative, along every interleaving
      of reserve calls (stepped action by action), releases and
      cleanups in which each release has a non-negative argument and
      does not take the counter below the least int64, the counter is
      at most [max] after every event. *)
Theorem reservation_bound :
  (forall bm n,
     ReserveSpace bm n =
       if decide (Int64.add (currentSize bm) n <= maxSize bm)
       then (true, setCurrent bm (Int64.add (currentSize bm) n))
       else (false, bm)) /\
  (forall bm n,
     let '(bm1, pc1) := reserveStep n bm AtLoad in
     reserveStep n bm1 pc1
       = (snd (ReserveSpace bm n), Returned (fst (ReserveSpace bm n)))) /\
  (forall n bm current bm',
     reserveStep n bm (AtCAS current) = (bm', Returned true) <->
     Int64.add current n <= maxSize bm /\ currentSize bm = current /\
     bm' = setCurrent bm (Int64.add current n)) /\
  (forall config evs,
     0 <= maxSize (NewBufferManager config) ->
     admissible (freshShared config) evs ->
     forall k,
       let s := bufferRun (freshShared config) (take k evs) in
       currentSize (manager s) <= maxSize (manager s)).
Proof.
  split; [apply ReserveSpace_cases|]. split; [apply reserve_alone|].
  split; [apply reserveStep_swap|].
  intros config evs Hmax Hadm k.
  apply (bufferRun_bounded evs (freshShared config)); [|done].
  split; simpl; [|done]. split; [done|].
  apply wrap64_range.
Qed.

(** Against claim C4: two releases with non-negative arguments wrap the
    counter around to the greatest int64, far above the 100 GiB limit. *)
Lemma release_wraps_counterexample :
  let s := bufferRun (freshShared DefaultConfig)
             [DoRelease (2 ^ 63 - 1); DoRelease 2] in
  maxSize (manager s) = 100 * 1024 * 1024 * 1024 /\
  currentSize (manager s) = 2 ^ 63 - 1 /\
  maxSize (manager s) < currentSize (manager s).
Proof. vm_compute. repeat split; reflexivity. Qed.

(** The bound along a run of two competing reservations (the second
    one retries after its compare-and-swap fails), a release and a
    cleanup. *)
Lemma reservation_bound_witness :
  let evs := [CallReserve 60; CallReserve 70; StepReserve 0; StepReserve 1;
              StepReserve 0; StepReserve 1; StepReserve 1; StepReserve 1;
              DoRelease 60; DoCleanup None] in
  0 <= maxSize (NewBufferManager DefaultConfig) /\
  admissible (freshShared DefaultConfig) evs /\
  forall k,
    let s := bufferRun (freshShared DefaultConfig) (take k evs) in
    currentSize (manager s) <= maxSize (manager s).
Proof.
  split; [vm_compute; discriminate|]. split.
  - vm_compute. repeat split; discriminate.
  - apply (proj2 (proj2 (proj2 reservation_bound)) DefaultConfig).
    + vm_compute; discriminate.
    + vm_compute. repeat split; discriminate.
Defined.

(** ** Location parsing *)

Section Strings.

Lemma append_nil r : "" +:+ r = r.
Proof. reflexivity. Qed.

Lemma append_cons x a r : String x a +:+ r = String x (a +:+ r).
Proof. reflexivity. Qed.

Ltac norm := rewrite ?append_cons, ?append_nil; simpl.

Lemma Index_app_None a r c :
  Index a c = None ->
  Index (a +:+ r) c = (fun i => (String.length a + i)%nat) <$> Index r c.
Proof.
  induction a as [|x a IH]; norm; intros H.
  - by destruct (Index r c).
  - destruct (Ascii.eqb x c); [discriminate|].
    destruct (Index a c); [discriminate|]. rewrite IH by done.
    by destruct (Index r c).
Qed.

Lemma Index_here c r : Index (String c r) c = Some 0%nat.
Proof. simpl. by rewrite Ascii.eqb_refl. Qed.

Lemma Index_skip x r c :
  x <> c -> Index (String x r) c = S <$> Index r c.
Proof.
  intros H. simpl. apply Ascii.eqb_neq in H. rewrite H.
  by destruct (Index r c).
Qed.

Lemma Contains_false s c : Contains s c = false <-> Index s c = None.
Proof. unfold Contains. by destruct (Index s c). Qed.

Lemma substring_skip a r k m :
  String.substring (String.length a + k) m (a +:+ r) = String.substring k m r.
Proof. induction a as [|x a IH]; norm; [done|]. apply IH. Qed.

Lemma substring_prefix h r :
  String.substring 0 (String.length h) (h +:+ r) = h.
Proof. induction h as [|x h IH]; norm; [by destruct r|]. by rewrite IH. Qed.

Lemma substring_all s : String.substring 0 (String.length s) s = s.
Proof. induction s as [|x s IH]; simpl; [done|]. by rewrite IH. Qed.

Lemma length_app_string a b :
  String.length (a +:+ b) = (String.length a + String.length b)%nat.
Proof. induction a as [|x a IH]; norm; [done|]. by rewrite IH. Qed.

Lemma slice_middle a h r :
  slice (a +:+ (h +:+ r)) (String.length a)
        (String.length a + String.length h) = h.
Proof.
  unfold slice.
  replace (String.length a + String.length h - String.length a)%nat
    with (String.length h) by lia.
  rewrite <- (Nat.add_0_r (String.length a)) at 1.
  rewrite substring_skip. apply substring_prefix.
Qed.

Lemma sliceFrom_suffix a r :
  sliceFrom (a +:+ r) (String.length a) = r.
Proof.
  unfold sliceFrom. rewrite length_app_string.
  replace (String.length a + String.length r - String.length a)%nat
    with (String.length r) by lia.
  rewrite <- (Nat.add_0_r (String.length a)) at 1.
  rewrite substring_skip. apply substring_all.
Qed.

Lemma HasPrefix_slash_app h r :
  HasPrefix h "/" = false ->
  HasPrefix (h +:+ String ":" r) "/" = false.
Proof.
  destruct h as [|x h]; [done|].
  rewrite append_cons. by cbn [HasPrefix].
Qed.

Lemma append_assoc a b c : (a +:+ b) +:+ c = a +:+ (b +:+ c).
Proof. induction a as [|x a IH]; norm; [done|]. by rewrite IH. Qed.

End Strings.

Lemma parseLocation_no_error s : snd (parseLocation s) = None.
Proof. unfold parseLocation. repeat case_match; by simplify_eq. Qed.

Lemma parseLocation_user_host u h p :
  Contains u "@" = false -> Contains u ":" = false ->
  Contains h ":" = false ->
  parseLocation (u +:+ String "@" (h +:+ String ":" p)) = (h, p, None).
Proof.
  intros Hu1%Contains_false Hu2%Contains_false Hh%Contains_false.
  assert (Index (u +:+ String "@" (h +:+ String ":" p)) "@"
          = Some (String.length u)) as Hat.
  { rewrite Index_app_None by done. rewrite Index_here. simpl.
    f_equal. lia. }
  assert (Index (u +:+ String "@" (h +:+ String ":" p)) ":"
          = Some (String.length u + 1 + String.length h)%nat) as Hcolon.
  { rewrite Index_app_None by done. rewrite Index_skip by done.
    rewrite Index_app_None by done. rewrite Index_here. simpl.
    f_equal. lia. }
  unfold parseLocation, Contains. rewrite Hat, Hcolon. simpl.
  replace (String.length u <? String.length u + 1 + String.length h)%nat
    with true by (symmetry; apply Nat.ltb_lt; lia).
  f_equal. f_equal.
  - replace (u +:+ String "@" (h +:+ String ":" p))
      with ((u +:+ "@") +:+ (h +:+ String ":" p)).
    + replace (String.length u + 1)%nat with (String.length (u +:+ "@")).
      * replace (String.length u + 1 + String.length h)%nat
          with (String.length (u +:+ "@") + String.length h)%nat.
        -- apply slice_middle.
        -- rewrite length_app_string. simpl. lia.
      * rewrite length_app_string. simpl. lia.
    + by rewrite append_assoc.
  - replace (u +:+ String "@" (h +:+ String ":" p))
      with ((u +:+ String "@" (h +:+ ":")) +:+ p).
    + replace (String.length u + 1 + String.length h + 1)%nat
        with (String.length (u +:+ String "@" (h +:+ ":"))).
      * apply sliceFrom_suffix.
      * rewrite length_app_string. simpl. rewrite length_app_string.
        simpl. lia.
    + rewrite append_assoc, append_cons. by rewrite append_assoc.
Qed.

Lemma parseLocation_host h p :
  Contains h "@" = false -> Contains h ":" = false ->
  HasPrefix h "/" = false ->
  parseLocation (h +:+ String ":" p) = (h, p, None).
Proof.
  intros Hat%Contains_false Hc%Contains_false Hpre.
  assert (Index (h +:+ String ":" p) ":" = Some (String.length h)) as Hcolon.
  { rewrite Index_app_None by done. rewrite Index_here. simpl.
    f_equal. lia. }
  assert (match Index (h +:+ String ":" p) "@" with
          | Some a => (String.length h < a)%nat
          | None => True
          end) as Hlater.
  { rewrite Index_app_None by done. rewrite Index_skip by done.
    destruct (Index p "@"); simpl; [lia|done]. }
  unfold parseLocation, Contains. rewrite Hcolon.
  rewrite (HasPrefix_slash_app _ _ Hpre).
  assert (slice (h +:+ String ":" p) 0 (String.length h) = h) as Hs.
  { unfold slice. rewrite Nat.sub_0_r. apply substring_prefix. }
  assert (sliceFrom (h +:+ String ":" p) (String.length h + 1) = p) as Hp.
  { replace (h +:+ String ":" p) with ((h +:+ ":") +:+ p).
    - replace (String.length h + 1)%nat with (String.length (h +:+ ":")).
      + apply sliceFrom_suffix.
      + rewrite length_app_string. simpl. lia.
    - by rewrite append_assoc. }
  destruct (Index (h +:+ String ":" p) "@") as [a|]; simpl.
  - replace (a <? String.length h)%nat with false
      by (symmetry; apply Nat.ltb_ge; lia).
    by rewrite Hs, Hp.
  - by rewrite Hs, Hp.
Qed.

Lemma parseLocation_no_colon s :
  Contains s ":" = false -> parseLocation s = ("", s, None).
Proof.
  intros H. unfold parseLocation. rewrite H. simpl.
  by rewrite andb_false_r.
Qed.

Lemma parseLocation_absolute s :
  HasPrefix s "/" = true -> Contains s "@" = false ->
  parseLocation s = ("", s, None).
Proof.
  intros Hp Hat. unfold parseLocation. rewrite Hp, Hat. simpl.
  by rewrite andb_false_r.
Qed.

Lemma ParseRemotePath_needs_user s :
  Contains s "@" = false -> ParseRemotePath s = Err (invalidFormat s).
Proof.
  intros H%Contains_false. unfold ParseRemotePath. by rewrite H.
Qed.

Lemma parseLocation_first s a c :
  Index s "@" = Some a -> Index s ":" = Some c -> (a < c)%nat ->
  parseLocation s = (slice s (a + 1) c, sliceFrom s (c + 1), None).
Proof.
  intros Ha Hc Hlt. unfold parseLocation, Contains. rewrite Ha, Hc.
  cbn [andb]. by rewrite (proj2 (Nat.ltb_lt a c) Hlt).
Qed.

Lemma parseLocation_not_first s :
  userBeforeColon s = false ->
  parseLocation s =
    if Contains s ":" && negb (HasPrefix s "/") then
      match Index s ":" with
      | Some c => (slice s 0 c, sliceFrom s (c + 1), None)
      | None => ("", s, None)
      end
    else ("", s, None).
Proof.
  unfold userBeforeColon, parseLocation, Contains.
  destruct (Index s "@") as [a|], (Index s ":") as [c|]; cbn [andb];
    try done.
  by intros ->.
Qed.

Lemma parseLocation_second s c :
  userBeforeColon s = false -> HasPrefix s "/" = false ->
  Index s ":" = Some c ->
  parseLocation s = (slice s 0 c, sliceFrom s (c + 1), None).
Proof.
  intros Hu Hp Hc. rewrite parseLocation_not_first by done.
  unfold Contains. by rewrite Hc, Hp.
Qed.

Lemma parseLocation_third s :
  userBeforeColon s = false ->
  Contains s ":" = false \/ HasPrefix s "/" = true ->
  parseLocation s = ("", s, None).
Proof.
  intros Hu H. rewrite parseLocation_not_first by done.
  destruct H as [-> | ->]; [done|]. by rewrite andb_false_r.
Qed.

Section RemotePaths.

Lemma at_append r : "@" +:+ r = String "@" r.
Proof. reflexivity. Qed.

Lemma colon_append r : ":" +:+ r = String ":" r.
Proof. reflexivity. Qed.

Lemma RemoteLocationString_form loc :
  RemoteLocationString loc
  = User loc +:+ String "@" (Host loc +:+ String ":" (RPath loc)).
Proof. unfold RemoteLocationString. by rewrite at_append, colon_append. Qed.

Lemma Index_split s c i :
  Index s c = Some i ->
  exists u r, s = u +:+ String c r /\ String.length u = i /\ Index u c = None.
Proof.
  revert i. induction s as [|x s IH]; intros i; simpl; [done|].
  destruct (Ascii.eqb x c) eqn:Hx.
  - apply Ascii.eqb_eq in Hx as ->. intros [= <-]. by exists "", s.
  - destruct (Index s c) as [j|] eqn:Hj; [|done]. intros [= <-].
    destruct (IH j eq_refl) as (u & r & -> & Hlen & Hu).
    exists (String x u), r. rewrite append_cons. simpl.
    by rewrite Hx, Hu, Hlen.
Qed.

Lemma string_eqb_empty s : String.eqb s "" = false <-> s <> "".
Proof. by destruct s. Qed.

(** What [ParseRemotePath] does on an input of the form u@h:p. *)
Lemma ParseRemotePath_form u h p :
  Index u "@" = None -> Index h ":" = None ->
  ParseRemotePath (u +:+ String "@" (h +:+ String ":" p))
  = if String.eqb u "" then Err "user is empty"
    else if String.eqb h "" then Err "host is empty"
    else if String.eqb p "" then Err "path is empty"
    else Ok {| User := u; Host := h; Port := 22; RPath := p |}.
Proof.
  intros Hu Hh. unfold ParseRemotePath.
  rewrite Index_app_None, Index_here by done. simpl.
  rewrite Nat.add_0_r.
  assert (sliceFrom (u +:+ String "@" (h +:+ String ":" p))
                    (String.length u + 1) = h +:+ String ":" p) as Hrest.
  { replace (u +:+ String "@" (h +:+ String ":" p))
      with ((u +:+ "@") +:+ (h +:+ String ":" p))
      by (by rewrite append_assoc).
    replace (String.length u + 1)%nat with (String.length (u +:+ "@"))
      by (rewrite length_app_string; simpl; lia).
    apply sliceFrom_suffix. }
  unfold IndexFrom. rewrite Hrest, Index_app_None, Index_here by done.
  simpl. rewrite Nat.add_0_r.
  assert (slice (u +:+ String "@" (h +:+ String ":" p)) 0 (String.length u)
          = u) as ->.
  { unfold slice. rewrite Nat.sub_0_r. apply substring_prefix. }
  assert (slice (u +:+ String "@" (h +:+ String ":" p))
                (String.length u + 1)
                (String.length u + 1 + String.length h) = h) as ->.
  { replace (u +:+ String "@" (h +:+ String ":" p))
      with ((u +:+ "@") +:+ (h +:+ String ":" p))
      by (by rewrite append_assoc).
    replace (String.length u + 1)%nat with (String.length (u +:+ "@"))
      by (rewrite length_app_string; simpl; lia).
    apply slice_middle. }
  assert (sliceFrom (u +:+ String "@" (h +:+ String ":" p))
                    (String.length u + 1 + String.length h + 1) = p) as ->.
  { replace (u +:+ String "@" (h +:+ String ":" p))
      with ((u +:+ String "@" (h +:+ ":")) +:+ p)
      by (rewrite append_assoc, append_cons; by rewrite append_assoc).
    replace (String.length u + 1 + String.length h + 1)%nat
      with (String.length (u +:+ String "@" (h +:+ ":")))
      by (rewrite length_app_string; simpl; rewrite length_app_string;
          simpl; lia).
    apply sliceFrom_suffix. }
  done.
Qed.

(** Every accepted input has the form u@h:p. *)
Lemma ParseRemotePath_accepted s loc :
  ParseRemotePath s = Ok loc ->
  exists u h p,
    s = u +:+ String "@" (h +:+ String ":" p) /\
    Index u "@" = None /\ Index h ":" = None.
Proof.
  unfold ParseRemotePath.
  destruct (Index s "@") as [a|] eqn:Hat; [|done].
  destruct (Index_split _ _ _ Hat) as (u & rest & -> & Hlen & Hu).
  subst a. unfold IndexFrom.
  assert (sliceFrom (u +:+ String "@" rest) (String.length u + 1) = rest)
    as ->.
  { replace (u +:+ String "@" rest) with ((u +:+ "@") +:+ rest)
      by (by rewrite append_assoc).
    replace (String.length u + 1)%nat with (String.length (u +:+ "@"))
      by (rewrite length_app_string; simpl; lia).
    apply sliceFrom_suffix. }
  destruct (Index rest ":") as [k|] eqn:Hcolon; [|done].
  destruct (Index_split _ _ _ Hcolon) as (h & p & -> & _ & Hh).
  intros _. by exists u, h, p.
Qed.

End RemotePaths.

Lemma ParseRemotePath_only s loc :
  ParseRemotePath s = Ok loc ->
  exists u h p,
    s = u +:+ String "@" (h +:+ String ":" p) /\
    u <> "" /\ h <> "" /\ p <> "" /\
    Contains u "@" = false /\ Contains h ":" = false /\
    loc = {| User := u; Host := h; Port := 22; RPath := p |}.
Proof.
  intros Hok.
  destruct (ParseRemotePath_accepted s loc Hok) as (u & h & p & -> & Hu & Hh).
  rewrite ParseRemotePath_form in Hok by done.
  destruct (String.eqb u "") eqn:Eu; [done|].
  destruct (String.eqb h "") eqn:Eh; [done|].
  destruct (String.eqb p "") eqn:Ep; [done|].
  injection Hok as <-. exists u, h, p.
  apply string_eqb_empty in Eu, Eh, Ep.
  by rewrite !Contains_false.
Qed.

Lemma ParseRemotePath_shape u h p :
  u <> "" -> h <> "" -> p <> "" ->
  Contains u "@" = false -> Contains h ":" = false ->
  ParseRemotePath (u +:+ String "@" (h +:+ String ":" p))
    = Ok {| User := u; Host := h; Port := 22; RPath := p |}.
Proof.
  intros Hu%string_eqb_empty Hh%string_eqb_empty Hp%string_eqb_empty
         Hat%Contains_false Hcolon%Contains_false.
  rewrite ParseRemotePath_form by done. by rewrite Hu, Hh, Hp.
Qed.

(** Claim C9, as the code has it. [parseLocation] returns no error for
    any input, and every input falls under exactly one of three cases.
    When the first '@' comes before the first ':' it is read as
    [user@host:path]: the host is the text between the two and the
    path what follows the ':' (the user is dropped). Otherwise, when
    there is a ':' and the input does not start with '/', it is read
    as [host:path], cut at the first ':'. Otherwise, that is without a
    ':' or with a leading '/', it is a local path, whatever else it
    contains. [ParseRemotePath] accepts exactly the inputs
    [user@host:path] with a user free of '@', a host free of ':' and
    no empty part, with port 22; it rejects every input without '@',
    local paths and [host:path] included, as of invalid format. *)
Theorem parseLocation_accepts_every_input :
  (forall s, snd (parseLocation s) = None) /\
  (forall s a c,
     Index s "@" = Some a -> Index s ":" = Some c -> (a < c)%nat ->
     parseLocation s = (slice s (a + 1) c, sliceFrom s (c + 1), None)) /\
  (forall s c,
     userBeforeColon s = false -> HasPrefix s "/" = false ->
     Index s ":" = Some c ->
     parseLocation s = (slice s 0 c, sliceFrom s (c + 1), None)) /\
  (forall s,
     userBeforeColon s = false ->
     Contains s ":" = false \/ HasPrefix s "/" = true ->
     parseLocation s = ("", s, None)) /\
  (forall u h p,
     Contains u "@" = false -> Contains u ":" = false ->
     Contains h ":" = false ->
     parseLocation (u +:+ String "@" (h +:+ String ":" p)) = (h, p, None)) /\
  (forall h p,
     Contains h "@" = false -> Contains h ":" = false ->
     HasPrefix h "/" = false ->
     parseLocation (h +:+ String ":" p) = (h, p, None)) /\
  (forall s loc,
     ParseRemotePath s = Ok loc ->
     exists u h p,
       s = u +:+ String "@" (h +:+ String ":" p) /\
       u <> "" /\ h <> "" /\ p <> "" /\
       Contains u "@" = false /\ Contains h ":" = false /\
       loc = {| User := u; Host := h; Port := 22; RPath := p |}) /\
  (forall u h p,
     u <> "" -> h <> "" -> p <> "" ->
     Contains u "@" = false -> Contains h ":" = false ->
     ParseRemotePath (u +:+ String "@" (h +:+ String ":" p))
       = Ok {| User := u; Host := h; Port := 22; RPath := p |}) /\
  (forall s,
     Contains s "@" = false -> ParseRemotePath s = Err (invalidFormat s)).
Proof.
  split; [exact parseLocation_no_error|].
  split; [exact parseLocation_first|].
  split; [exact parseLocation_second|].
  split; [exact parseLocation_third|].
  split; [exact parseLocation_user_host|].
  split; [exact parseLocation_host|].
  split; [exact ParseRemotePath_only|].
  split; [exact ParseRemotePath_shape|].
  exact ParseRemotePath_needs_user.
Qed.

(** Against claim C9: an input with an empty host has none of the three
    shapes, and [ParseRemotePath] rejects it, but [parseLocation]
    accepts it and reads it as the local path [/data];
    [ParseRemotePath] in turn rejects a plain local path. *)
Lemma parseLocation_empty_host_counterexample :
  shapeOf "user@:/data" = None /\
  parseLocation "user@:/data" = ("", "/data", None) /\
  ParseRemotePath "user@:/data" = Err "host is empty" /\
  shapeOf "/home/user/data" = Some (LocalShape "/home/user/data") /\
  ParseRemotePath "/home/user/data"
    = Err (invalidFormat "/home/user/data").
Proof. vm_compute. repeat split; reflexivity. Qed.

(** The three inputs of TestParseLocation, a plain name, an absolute
    path with a ':' before an '@', and a remote and a local path
    passed to [ParseRemotePath]. *)
Lemma parseLocation_accepts_every_input_witness :
  parseLocation "root@104.238.147.39:~/test-small-files"
    = ("104.238.147.39", "~/test-small-files", None) /\
  parseLocation "example.com:/data" = ("example.com", "/data", None) /\
  parseLocation "/home/user/data" = ("", "/home/user/data", None) /\
  parseLocation "notes.txt" = ("", "notes.txt", None) /\
  parseLocation "/abs:with@colon" = ("", "/abs:with@colon", None) /\
  ParseRemotePath "root@104.238.147.39:~/test-small-files"
    = Ok {| User := "root"; Host := "104.238.147.39"; Port := 22;
            RPath := "~/test-small-files" |} /\
  ParseRemotePath "example.com:/data"
    = Err (invalidFormat "example.com:/data").
Proof.
  destruct parseLocation_accepts_every_input
    as (_ & _ & _ & Hlocal & Huser & Hhost & _ & Hshape & Hremote).
  split; [apply (Huser "root" "104.238.147.39" "~/test-small-files");
          reflexivity|].
  split; [apply (Hhost "example.com" "/data"); reflexivity|].
  split; [apply (Hlocal "/home/user/data"); [reflexivity|by right]|].
  split; [apply (Hlocal "notes.txt"); [reflexivity|by left]|].
  split; [apply (Hlocal "/abs:with@colon"); [reflexivity|by right]|].
  split; [apply (Hshape "root" "104.238.147.39" "~/test-small-files");
          (discriminate || reflexivity)|].
  apply (Hremote "example.com:/data"); reflexivity.
Defined.

(** ** Analyzer *)

Section Analyzer.

Lemma protocolTag_detectProtocol s : protocolTag s = detectProtocol s.
Proof.
  unfold protocolTag, detectProtocol, schemeTags. cbn [find fst snd].
  repeat (match goal with
          | |- context [HasPrefix s ?p] =>
              destruct (HasPrefix s p); cbn [orb]
          end; try reflexivity).
Qed.

Lemma recommendStrategy_rules a an source destination :
  protocolTag source = ProtocolLocal ->
  recommendStrategy a an = firstApplicableRule a source destination an.
Proof.
  intros Hlocal. unfold recommendStrategy, firstApplicableRule.
  rewrite Hlocal.
  rewrite bool_decide_eq_false_2 by (intros [? _]; discriminate).
  rewrite bool_decide_eq_false_2 by (intros H; by apply H).
  change (percentage (SmallFiles an) (TotalFiles an))
    with (percentOf (SmallFiles an) (TotalFiles an)).
  change (percentage (LargeFiles an) (TotalFiles an))
    with (percentOf (LargeFiles an) (TotalFiles an)).
  change (SFltb (smallFilePercent a)
                (percentOf (SmallFiles an) (TotalFiles an)))
    with (Float64.gt (percentOf (SmallFiles an) (TotalFiles an))
                     (smallFilePercent a)).
  change (SFltb (largeFilePercent a)
                (percentOf (LargeFiles an) (TotalFiles an)))
    with (Float64.gt (percentOf (LargeFiles an) (TotalFiles an))
                     (largeFilePercent a)).
  destruct (TotalFiles an <? fewFilesCount a) eqn:Hfew.
  - apply Z.ltb_lt in Hfew. by rewrite bool_decide_eq_true_2.
  - apply Z.ltb_ge in Hfew. rewrite bool_decide_eq_false_2 by lia.
    rewrite andb_comm.
    destruct (manyFilesCount a <? TotalFiles an) eqn:Hmany.
    + apply Z.ltb_lt in Hmany. by rewrite bool_decide_eq_true_2 by lia.
    + apply Z.ltb_ge in Hmany. by rewrite bool_decide_eq_false_2 by lia.
Qed.

Lemma sampleWalk_returns a interval cancelled walk :
  (forall k, cancelled k = false) ->
  forall k currentFile an,
    exists an', sampleWalk a interval cancelled k walk currentFile an
                = Value an'.
Proof.
  intros Hc. induction walk as [|d walk IH]; intros k cur an; simpl.
  - by eexists.
  - rewrite Hc. repeat case_match; apply IH.
Qed.

Lemma analyzeLocal_returns a cancelled walk an :
  (forall k, cancelled k = false) -> maxSampleSize a <> 0 ->
  exists an', analyzeLocal a cancelled walk an = Value an'.
Proof.
  intros Hc Hm. unfold analyzeLocal, samplingInterval.
  destruct (maxSampleSize a <? countFiles walk).
  - rewrite (proj2 (Z.eqb_neq _ _) Hm). by apply sampleWalk_returns.
  - by apply sampleWalk_returns.
Qed.

Lemma sampleWalk_keeps_tags a interval cancelled walk :
  forall k currentFile an an',
    sampleWalk a interval cancelled k walk currentFile an = Value an' ->
    SourceProtocol an' = SourceProtocol an /\
    DestProtocol an' = DestProtocol an.
Proof.
  induction walk as [|d walk IH]; intros k cur an an'; simpl.
  - by intros [= <-].
  - repeat case_match; try done; intros Hw; by apply IH in Hw as [-> ->].
Qed.

Lemma analyzeLocal_keeps_tags a cancelled walk an an' :
  analyzeLocal a cancelled walk an = Value an' ->
  SourceProtocol an' = SourceProtocol an.
Proof.
  unfold analyzeLocal. destruct (samplingInterval _ _); try done.
  intros H. by apply sampleWalk_keeps_tags in H as [? _].
Qed.

End Analyzer.

(** Claim C5, as the code has it. Whenever [AnalyzeTransfer] returns
    an analysis, it carries the protocol tags of the two endpoint
    texts, and its recommendation is the one of the first applicable
    rule, in the order: both endpoints tagged ssh, proxy; source not
    tagged local, rclone; fewer files than [fewFilesCount], rsync; more
    files than [manyFilesCount] and a float64 percentage of small
    files above [smallFilePercent], tar; a float64 percentage of large
    files above [largeFilePercent], rsync; otherwise rclone. The tag is
    read off the text alone, so [host:path] without '@' is local. It
    does return an analysis when the context is never cancelled and
    [maxSampleSize] is not zero. *)
Theorem recommendation_first_applicable_rule a cancelled walk
    source destination :
  (forall an,
     AnalyzeTransfer a cancelled walk source destination = Value an ->
     SourceProtocol an = protocolTag source /\
     DestProtocol an = protocolTag destination /\
     Recommendation an = firstApplicableRule a source destination an) /\
  ((forall k, cancelled k = false) -> maxSampleSize a <> 0 ->
   exists an,
     AnalyzeTransfer a cancelled walk source destination = Value an).
Proof.
  split.
  - intros an. unfold AnalyzeTransfer, Analyze, isLocalPath.
    destruct (bool_decide (detectProtocol source = ProtocolSSH)
              && bool_decide (detectProtocol destination = ProtocolSSH))
      eqn:Hssh.
    + intros [= <-]. cbn [SourceProtocol DestProtocol Recommendation].
      rewrite !protocolTag_detectProtocol.
      split; [done|]. split; [done|]. unfold firstApplicableRule.
      rewrite !protocolTag_detectProtocol.
      apply andb_prop in Hssh
        as [H1%bool_decide_eq_true H2%bool_decide_eq_true].
      by rewrite bool_decide_eq_true_2.
    + assert (~ (detectProtocol source = ProtocolSSH
                 /\ detectProtocol destination = ProtocolSSH)) as Hno.
      { intros [H1 H2]. by rewrite !bool_decide_eq_true_2 in Hssh. }
      destruct (decide (detectProtocol source = ProtocolLocal))
        as [Hlocal|Hlocal].
      * rewrite (bool_decide_eq_true_2 _ Hlocal). cbn [negb].
        destruct (analyzeLocal a cancelled walk _) as [an1| |] eqn:Hwalk;
          [|done|done].
        intros [= <-].
        assert (SourceProtocol an1 = detectProtocol source) as Hsrc.
        { by apply (analyzeLocal_keeps_tags a cancelled walk _ _ Hwalk). }
        rewrite !protocolTag_detectProtocol.
        assert (protocolTag source = ProtocolLocal) as Htag
          by (by rewrite protocolTag_detectProtocol).
        split; [by destruct (0 <? TotalFiles an1)|].
        split; [by destruct (0 <? TotalFiles an1)|].
        cbn [Recommendation withDestProtocol withRecommendation].
        rewrite (recommendStrategy_rules _ _ source destination Htag).
        unfold firstApplicableRule.
        by destruct (0 <? TotalFiles an1).
      * rewrite (bool_decide_eq_false_2 _ Hlocal). cbn [negb].
        intros [= <-]. rewrite !protocolTag_detectProtocol.
        split; [done|]. split; [done|].
        cbn [Recommendation withDestProtocol withRecommendation].
        unfold firstApplicableRule. rewrite !protocolTag_detectProtocol.
        rewrite bool_decide_eq_false_2 by done.
        by rewrite bool_decide_eq_true_2.
  - intros Hc Hm. unfold AnalyzeTransfer, Analyze.
    destruct (_ && _); [by eexists|].
    destruct (negb (isLocalPath source)); [by eexists|].
    destruct (analyzeLocal_returns a cancelled walk
                (emptyAnalysis (detectProtocol source)) Hc Hm) as [an' ->].
    by eexists.
Qed.

(** The analysis of 1201 small local files, default thresholds: rule 4
    applies. *)
Lemma recommendation_witness :
  exists an,
    AnalyzeTransfer New (fun _ => false) (plainFiles 1201 100)
      "/srv/photos" "backup@vault:/srv/photos" = Value an /\
    SourceProtocol an = ProtocolLocal /\ DestProtocol an = ProtocolSSH /\
    Recommendation an
      = firstApplicableRule New "/srv/photos" "backup@vault:/srv/photos"
          an /\
    Recommendation an = StrategyTar.
Proof.
  destruct (recommendation_first_applicable_rule New (fun _ => false)
              (plainFiles 1201 100) "/srv/photos"
              "backup@vault:/srv/photos") as [Hrule Hreturns].
  destruct Hreturns as [an Han]; [reflexivity|discriminate|].
  destruct (Hrule an Han) as (Hsrc & Hdst & Hrec).
  exists an. split; [exact Han|]. split; [exact Hsrc|].
  split; [exact Hdst|]. split; [exact Hrec|].
  vm_compute in Han. injection Han as <-. reflexivity.
Defined.

(** Against claim C5 as worded. A source [backup:/srv/photos] has the
    remote shape [host:path], so the second rule asks for rclone; the
    analyzer tags it local, walks the local tree of that name (here a
    walk that fails at the root) and recommends rsync for its zero
    files. And with 4 * 2^53 + 1 small files among 5 * 2^53 the exact
    ratio is above 80%, so the fourth rule asks for tar; the float64
    percentage is exactly 80 and the analyzer recommends rclone. *)
Lemma documented_rules_counterexample :
  shapeOf "backup:/srv/photos" = Some (HostShape "backup" "/srv/photos") /\
  documentedRule 10 1000 80 50 "backup:/srv/photos" "/mnt/backup" 0 0 0
    = StrategyRclone /\
  (exists an,
     AnalyzeTransfer New (fun _ => false)
       [ {| walkErr := true; isDir := false; info := None; ext := "" |} ]
       "backup:/srv/photos" "/mnt/backup" = Value an /\
     SourceProtocol an = ProtocolLocal /\ TotalFiles an = 0 /\
     Recommendation an = StrategyRsync) /\
  documentedRule 10 1000 80 50 "/srv/photos" "/mnt/backup"
    (5 * 2 ^ 53) (4 * 2 ^ 53 + 1) 0 = StrategyTar /\
  recommendStrategy New
    {| TotalSize := 0; TotalFiles := 5 * 2 ^ 53; AverageFileSize := 0;
       SmallFiles := 4 * 2 ^ 53 + 1; MediumFiles := 2 ^ 53 - 1;
       LargeFiles := 0; FileTypes := ∅; SourceProtocol := ProtocolLocal;
       DestProtocol := ProtocolLocal; Recommendation := StrategyUnset |}
    = StrategyRclone.
Proof.
  split; [by vm_compute|]. split; [by vm_compute|]. split.
  - eexists. split; [vm_compute; reflexivity|]. by vm_compute.
  - split; by vm_compute.
Qed.

(** 1201 small files: tar. Three files: rsync. *)
Example many_small_files_tar :
  match AnalyzeTransfer New (fun _ => false) (plainFiles 1201 100)
          "/srv/photos" "backup@vault:/srv/photos" with
  | Value an => Recommendation an = StrategyTar /\ TotalFiles an = 1201
  | _ => False
  end.
Proof. vm_compute. split; reflexivity. Qed.

Example few_files_rsync :
  match AnalyzeTransfer New (fun _ => false) (plainFiles 3 100)
          "/srv/photos" "/mnt/backup" with
  | Value an => Recommendation an = StrategyRsync
  | _ => False
  end.
Proof. vm_compute. reflexivity. Qed.

(** Claim C6, where the code departs from it. With [maxSampleSize]
    100 and 250 small files the interval is 250 / 100 = 2, not
    [⌈250/100⌉] = 3; the 125 sampled files are scaled to 250 files and
    25000 bytes, but the small-file bucket stays at 125. The analyzer
    then sees 50% small files and recommends rclone, where the same
    tree analysed without sampling gives 250 small files and tar. *)
Theorem sampling_leaves_buckets_unscaled :
  let a := WithThresholds New 10 100 100 10 100
             (Float64.of_int 80) (Float64.of_int 50) in
  let unsampled := WithThresholds New 10 100 100 10 1000
             (Float64.of_int 80) (Float64.of_int 50) in
  let walk := plainFiles 250 100 in
  countFiles walk = 250 /\
  samplingInterval a 250 = Value 2 /\
  ceilDiv 250 (maxSampleSize a) = 3 /\
  (exists an,
     Analyze a (fun _ => false) walk "/srv/photos" = Value an /\
     TotalFiles an = 250 /\ TotalSize an = 25000 /\
     SmallFiles an = 125 /\ MediumFiles an = 0 /\ LargeFiles an = 0 /\
     Recommendation an = StrategyRclone) /\
  (exists an,
     Analyze unsampled (fun _ => false) walk "/srv/photos" = Value an /\
     TotalFiles an = 250 /\ SmallFiles an = 250 /\
     Recommendation an = StrategyTar).
Proof.
  split; [by vm_compute|]. split; [by vm_compute|]. split; [by vm_compute|].
  split.
  - eexists. split; [vm_compute; reflexivity|]. by vm_compute.
  - eexists. split; [vm_compute; reflexivity|]. by vm_compute.
Qed.

(** ** Source worker, empty sources *)

Section SourceWorker.

Lemma createTarArchive_ok w run w' :
  createTarArchive w run = (w', None) ->
  w_disk w' !! batchPath run = Some (B_Size (w_batch w')) /\
  B_Status (w_batch w') = B_Status (w_batch w) /\
  B_ID (w_batch w') = B_ID (w_batch w).
Proof.
  unfold createTarArchive.
  set (disk := match tarWrote run with
               | Some n => <[batchPath run := n]> (w_disk w)
               | None => w_disk w
               end).
  destruct (tarErr run); [done|].
  destruct (disk !! batchPath run) as [infoSize|] eqn:Hstat; [|done].
  destruct (infoSize =? B_Size (w_batch w)) eqn:Heq.
  - intros [= <-]. simpl. apply Z.eqb_eq in Heq. by subst.
  - by intros [= <-].
Qed.

(** A batch that processBatch leaves buffered has its archive on disk
    under its local path, with the length recorded in its size. *)
Lemma processBatch_buffered w run w' :
  processBatch w run = (w', Return None) ->
  B_Status (w_batch w') = buffered /\
  B_LocalPath (w_batch w') = batchPath run /\
  w_disk w' !! B_LocalPath (w_batch w') = Some (B_Size (w_batch w')).
Proof.
  unfold processBatch. destruct (ensureDirErr run); [done|].
  destruct (reserveLoop _ _ _) as [bm [[err|]|]]; [done| |done].
  destruct (fileListErr run); [done|].
  destruct (createTarArchive _ run) as [w1 [err|]] eqn:Htar; [done|].
  intros [= <-]. simpl. split; [done|]. split; [done|].
  by apply createTarArchive_ok in Htar as (? & _).
Qed.

(** The status is buffered only when processBatch returned nil. *)
Lemma sourceWork_buffered_only_on_success w run w' out :
  sourceWork w run = (w', out) ->
  B_Status (w_batch w') = buffered -> out = Return None.
Proof.
  unfold sourceWork.
  destruct (processBatch w run) as [w1 [[err|]|]] eqn:Hp.
  - by intros [= <- <-].
  - by intros [= <- <-].
  - intros [= <- <-]. revert Hp. unfold processBatch.
    destruct (ensureDirErr run); [done|].
    destruct (reserveLoop _ _ _) as [bm [[err|]|]]; [done| |].
    + destruct (fileListErr run); [done|].
      by destruct (createTarArchive _ run) as [w1' [err|]].
    + by intros [= <-].
Qed.

End SourceWorker.

(** Claim C7, where the code departs from it. A batch declared at 1000
    bytes is archived into 1536 bytes while the buffer has 100 bytes
    left after the reservation: the batch becomes buffered with size
    1536 and its archive on disk, but [ReserveSpace(536)] was refused
    and its result ignored, so the counter still accounts for 1000
    bytes only. *)
Theorem reconcile_ignores_failed_reservation :
  let w := {| w_buffer := nearlyFull; w_batch := smallBatch; w_disk := ∅ |} in
  exists w',
    sourceWork w archiveLarger = (w', Return None) /\
    B_Status (w_batch w') = buffered /\
    B_Size (w_batch w') = 1536 /\
    w_disk w' !! B_LocalPath (w_batch w') = Some 1536 /\
    currentSize (w_buffer w') = currentSize nearlyFull + 1000 /\
    currentSize (w_buffer w') <> currentSize nearlyFull + 1536.
Proof.
  eexists. split; [vm_compute; reflexivity|]. by vm_compute.
Qed.

(** Against claim C8: with no file enumerated, [CreateManifest] returns
    an error instead of a manifest without batches, and [Transfer]
    fails. *)
Lemma empty_source_counterexample :
  CreateManifest DefaultConfig "manifest-1" 1 (fun _ _ => Ok [])
    "/srv/empty" "/mnt/backup" = Err "no files found at source" /\
  Transfer DefaultConfig "manifest-1" 1 (fun _ _ => Ok []) None
    (fun _ => None) "/srv/empty" "/mnt/backup"
  = ([], Some "create manifest: no files found at source").
Proof. split; reflexivity. Qed.

(** Claim C8, as the code has it. When the enumeration of the parsed
    source yields no file, [CreateManifest] returns the error "no files
    found at source" and [Transfer] returns it wrapped, before the
    buffer is initialized or any worker started. *)
Theorem empty_source_is_an_error config id now enumerateFiles initialize
    coordinate source destination :
  enumerateFiles (fst (fst (parseLocation source)))
                 (snd (fst (parseLocation source))) = Ok [] ->
  CreateManifest config id now enumerateFiles source destination
    = Err "no files found at source" /\
  Transfer config id now enumerateFiles initialize coordinate
           source destination
    = ([], Some "create manifest: no files found at source").
Proof.
  intros Henum.
  assert (CreateManifest config id now enumerateFiles source destination
          = Err "no files found at source") as Hc.
  { unfold CreateManifest.
    pose proof (eq_refl (parseLocation source)) as Hp.
    destruct (parseLocation source) as [[h p] err] eqn:E.
    assert (err = None) as ->.
    { pose proof (f_equal snd E) as H. simpl in H. rewrite <- H.
      unfold parseLocation. repeat case_match; by simplify_eq. }
    simpl in Henum. by rewrite Henum. }
  split; [done|]. unfold Transfer. by rewrite Hc.
Qed.

(** An empty remote source. *)
Lemma empty_source_witness :
  CreateManifest DefaultConfig "manifest-1" 1 (fun _ _ => Ok [])
    "root@10.0.0.5:~/empty" "/mnt/backup" = Err "no files found at source" /\
  Transfer DefaultConfig "manifest-1" 1 (fun _ _ => Ok []) None
    (fun _ => None) "root@10.0.0.5:~/empty" "/mnt/backup"
  = ([], Some "create manifest: no files found at source").
Proof.
  apply (empty_source_is_an_error DefaultConfig "manifest-1" 1
           (fun _ _ => Ok []) None (fun _ => None)).
  reflexivity.
Defined.

(** ** Exit codes *)

(** Against claim C10: the registry marks 31, checksum mismatch, as
    retryable. *)
Lemma IsRetryable_checksum_mismatch :
  In 31 documentedExitCodes /\ ~ In 31 markedRetryable /\
  IsRetryable ExitChecksumMismatch = true.
Proof.
  split; [vm_compute; tauto|]. split; [|reflexivity].
  vm_compute. intros H. repeat (destruct H as [H|H]; [discriminate H|]).
  exact H.
Qed.

(** Claim C10, as the code has it. [IsRetryable] is true exactly for
    12, 30, 31, 32, 51 and 52, and false for every other code,
    documented or not. *)
Theorem IsRetryable_codes code :
  IsRetryable code = true <-> code ∈ [12; 30; 31; 32; 51; 52].
Proof.
  split.
  - unfold IsRetryable, GetExitCodeInfo.
    destruct (ExitCodeRegistry !! code) as [i|] eqn:E; [|discriminate].
    intros Hr. apply elem_of_list_to_map_2 in E.
    unfold registryEntries in E.
    repeat (apply elem_of_cons in E as [E|E];
            [inversion E; subst; clear E;
             first [discriminate Hr | set_solver] |]).
    inversion E.
  - intros H.
    repeat (apply elem_of_cons in H as [->|H]; [vm_compute; reflexivity|]).
    inversion H.
Qed.

(** ** Dispatcher *)

Section Dispatch.

Ltac open_inv I :=
  destruct I as [Iids Ifed Irec Imap Idq Ida Ireach Ibuf Isq Isqnd Isa
                 Isand Iunfed].

Lemma removeFirst_subset i l j : j ∈ removeFirst i l -> j ∈ l.
Proof.
  induction l as [|x l IH]; simpl; [done|].
  case_decide as Hx; [by right|]. intros [->|Hj]%elem_of_cons; [by left|].
  right. by apply IH.
Qed.

Lemma removeFirst_NoDup i l :
  NoDup l -> NoDup (removeFirst i l) /\ i ∉ removeFirst i l.
Proof.
  induction l as [|x l IH]; simpl; intros Hnd.
  - split; [done|]. by intros ?%elem_of_nil.
  - apply NoDup_cons in Hnd as [Hx Hnd]. case_decide as Hi.
    + subst. done.
    + destruct (IH Hnd) as [H1 H2]. split.
      * apply NoDup_cons. split; [|done].
        intros Hin. by apply Hx, (removeFirst_subset i).
      * intros [->|Hin]%elem_of_cons; done.
Qed.

Lemma alter_lookup_inv (f : Batch -> Batch) (l : list Batch)
    (i j : nat) b :
  alter f i l !! j = Some b ->
  (j = i /\ exists b0, l !! i = Some b0 /\ b = f b0)
  \/ (j <> i /\ l !! j = Some b).
Proof.
  destruct (decide (j = i)) as [->|Hne].
  - rewrite list_lookup_alter_eq. destruct (l !! i) as [b0|]; [|done].
    intros [= <-]. left. eauto.
  - rewrite list_lookup_alter_ne by done. by right.
Qed.

Lemma initEngine_inv cfg m :
  conserved m -> dispatchInv (initEngine cfg m).
Proof.
  intros (_ & _ & Hid & Hall). rewrite Forall_forall in Hall.
  assert (forall (i : nat) b, M_Batches m !! i = Some b ->
            B_Status b = pending) as Hpend.
  { intros i b Hb. by destruct (Hall b); [by eapply list_elem_of_lookup_2|]. }
  split; simpl; try done.
  - lia.
  - constructor.
  - intros id. unfold wasEnqueued. simpl. rewrite lookup_empty. simpl.
    split; [done|]. by intros ?%elem_of_nil.
  - by intros i ?%elem_of_nil.
  - by intros i ?%elem_of_nil.
  - intros i b Hb Hst. rewrite (Hpend i b Hb) in Hst. discriminate.
  - by intros i ?%elem_of_nil.
  - constructor.
  - by intros i ?%elem_of_nil.
  - constructor.
  - intros i _. split; [done|]. intros b Hb. by eapply Hpend.
Qed.

(** Events of the poller and the stop channel leave everything the
    invariant mentions as it is. *)
Lemma withPoller_inv e pc : dispatchInv e -> dispatchInv (withPoller e pc).
Proof. by intros []. Qed.

Lemma feed_inv e e' : dispatchInv e -> step e Feed = Some e' -> dispatchInv e'.
Proof.
  intros I. unfold step.
  destruct (bool_decide (fed e < length (batches e))%nat) eqn:Hlt; [|done].
  apply bool_decide_eq_true in Hlt.
  destruct (len (sourceQueue e) <? _); [|done]. simpl. intros [= <-].
  open_inv I. unfold statusAt in *. split; unfold statusAt; simpl; try done.
  - intros i [Hi|Hi%list_elem_of_singleton]%elem_of_app.
    + destruct (Isq i Hi) as (? & ? & ?). split; [lia|done].
    + subst i. destruct (Iunfed (fed e)) as [? ?]; [lia|].
      split; [lia|done].
  - apply NoDup_app. split; [done|]. split; [|apply NoDup_singleton].
    intros i Hi ->%list_elem_of_singleton.
    destruct (Isq _ Hi). lia.
  - intros i Hi. apply Iunfed. lia.
Qed.

Lemma sourceTake_inv e e' :
  dispatchInv e -> step e SourceTake = Some e' -> dispatchInv e'.
Proof.
  intros I. unfold step. destruct (sourceQueue e) as [|i rest] eqn:Hq; [done|].
  destruct (len (sourceActive e) <? _); [|done]. intros [= <-].
  open_inv I. rewrite Hq in *.
  destruct (Isq i) as (Hifed & Hireach & Hipend); [by left|].
  apply NoDup_cons in Isqnd as [Hirest Hnd].
  destruct (lookup_lt_is_Some_2 (batches e) i) as [bi Hbi]; [lia|].
  unfold statusAt in *. split; unfold statusAt; simpl.
  - intros j b [(-> & b0 & Hb0 & ->)|(Hne & Hb)]%alter_lookup_inv;
      simpl; eauto.
  - by rewrite length_alter.
  - done.
  - done.
  - done.
  - done.
  - intros j Hj. destruct (Ireach j Hj) as (b & Hb & Hor).
    assert (j <> i) by (intros ->; done).
    exists b. by rewrite list_lookup_alter_ne.
  - intros j b [(-> & b0 & Hb0 & ->)|(Hne & Hb)]%alter_lookup_inv; [done|].
    eauto.
  - intros j Hj. destruct (Isq j) as (? & ? & Hst); [by right|].
    split; [done|]. split; [done|]. intros b Hb.
    assert (j <> i) by (intros ->; done).
    rewrite list_lookup_alter_ne in Hb by done. by apply Hst.
  - done.
  - intros j [->|Hj]%elem_of_cons.
    + rewrite length_alter. split; [lia|]. split; [done|].
      intros b. rewrite list_lookup_alter_eq, Hbi. by intros [= <-].
    + destruct (Isa j Hj) as (? & ? & Hst).
      rewrite length_alter. split; [done|]. split; [done|].
      intros b [(-> & b0 & Hb0 & ->)|(Hne & Hb)]%alter_lookup_inv; [done|].
      by apply Hst.
  - apply NoDup_cons. split; [|done]. intros Hin.
    destruct (Isa i Hin) as (_ & _ & Hst).
    specialize (Hst _ Hbi). specialize (Hipend _ Hbi). congruence.
  - intros j Hj. destruct (Iunfed j Hj) as [? Hst]. split; [done|].
    intros b Hb. assert (j <> i) by lia.
    rewrite list_lookup_alter_ne in Hb by done. by apply Hst.
Qed.

Lemma reached_mono (r : result (string * Z)) (i j : nat) (R : gset nat) :
  j ∈ R ->
  j ∈ match r with Ok _ => {[ i ]} ∪ R | Err _ => R end.
Proof. intros H. destruct r; [|done]. apply elem_of_union. by right. Qed.

Lemma reached_other (r : result (string * Z)) (i j : nat) (R : gset nat) :
  j ∉ R -> j <> i ->
  j ∉ match r with Ok _ => {[ i ]} ∪ R | Err _ => R end.
Proof.
  intros H Hne. destruct r; [|done].
  intros [Hj%elem_of_singleton|Hj]%elem_of_union; done.
Qed.

Lemma sourceDone_inv e e' i r :
  dispatchInv e -> step e (SourceDone i r) = Some e' -> dispatchInv e'.
Proof.
  intros I. unfold step. case_bool_decide as Hact; [|done]. intros [= <-].
  open_inv I. unfold statusAt in *.
  destruct (Isa i Hact) as (Hilen & Hireach & Hidown).
  destruct (lookup_lt_is_Some_2 (batches e) i Hilen) as [bi Hbi].
  destruct (removeFirst_NoDup i _ Isand) as [Hnd Hgone].
  assert (forall j, j ∈ sourceQueue e -> j <> i) as Hq.
  { intros j Hj ->. destruct (Isq i Hj) as (_ & _ & Hst).
    specialize (Hst _ Hbi). specialize (Hidown _ Hbi). congruence. }
  assert (forall j, (fed e <= j)%nat -> j <> i) as Hu.
  { intros j Hj ->. destruct (Iunfed i Hj) as (_ & Hst).
    specialize (Hst _ Hbi). specialize (Hidown _ Hbi). congruence. }
  split; unfold statusAt; simpl.
  - intros j b [(-> & b0 & Hb0 & ->)|(Hne & Hb)]%alter_lookup_inv;
      [destruct r as [[p sz]|err]|]; simpl; eauto.
  - by rewrite length_alter.
  - done.
  - done.
  - intros j Hj. destruct (Idq j Hj). split; [|done]. by apply reached_mono.
  - intros j Hj. destruct (Ida j Hj). split; [|done]. by apply reached_mono.
  - intros j Hj. destruct (decide (j = i)) as [->|Hne].
    + rewrite list_lookup_alter_eq, Hbi. simpl.
      destruct r as [[p sz]|err]; [|done]. eexists. split; [done|].
      by left.
    + rewrite list_lookup_alter_ne by done. apply Ireach.
      destruct r; [|done].
      by apply elem_of_union in Hj as [Hj%elem_of_singleton|Hj].
  - intros j b [(-> & b0 & Hb0 & ->)|(Hne & Hb)]%alter_lookup_inv.
    + destruct r as [[p sz]|err]; [|done]. intros _.
      apply elem_of_union. left. by apply elem_of_singleton.
    + intros Hst. by apply reached_mono, (Ibuf j b).
  - intros j Hj. destruct (Isq j Hj) as (? & ? & Hst). specialize (Hq j Hj).
    split; [done|]. split; [by apply reached_other|].
    intros b Hb. rewrite list_lookup_alter_ne in Hb by done. by apply Hst.
  - done.
  - intros j Hj. assert (j <> i) as Hne by (intros ->; done).
    apply removeFirst_subset in Hj.
    destruct (Isa j Hj) as (? & ? & Hst). rewrite length_alter.
    split; [done|]. split; [by apply reached_other|].
    intros b Hb. rewrite list_lookup_alter_ne in Hb by done. by apply Hst.
  - done.
  - intros j Hj. destruct (Iunfed j Hj) as (? & Hst). specialize (Hu j Hj).
    split; [by apply reached_other|].
    intros b Hb. rewrite list_lookup_alter_ne in Hb by done. by apply Hst.
Qed.

Lemma wasEnqueued_insert e id id' :
  default false (<[id := true]> (enqueuedToDest e) !! id') = true
  <-> id' = id \/ wasEnqueued e id' = true.
Proof.
  unfold wasEnqueued. destruct (decide (id = id')) as [->|Hne].
  - rewrite lookup_insert_eq. simpl. split; [by left|done].
  - rewrite lookup_insert_ne by done. split; [by right|].
    by intros [->|?].
Qed.

Lemma visit_inv e e' :
  dispatchInv e -> step e Visit = Some e' -> dispatchInv e'.
Proof.
  intros I. unfold step. destruct (poller e) as [|i|]; try done.
  destruct (batches e !! i) as [b|] eqn:Hb.
  2: { destruct (allBatchesCompleted e); intros [= <-];
       by apply withPoller_inv. }
  destruct (shouldDispatch e b) eqn:Hd.
  2: { intros [= <-]. by apply withPoller_inv. }
  destruct (len (destQueue e) <? _); [|done]. intros [= <-].
  apply andb_prop in Hd as [Hst%bool_decide_eq_true Hnew%negb_true_iff].
  open_inv I. pose proof (Iids i b Hb) as Hid.
  assert (B_ID b ∉ received e) as Hfresh.
  { intros Hin%Imap. congruence. }
  split; unfold statusAt; simpl; try done.
  - apply NoDup_app. split; [done|]. split; [|apply NoDup_singleton].
    by intros x Hx ->%list_elem_of_singleton.
  - intros id. unfold wasEnqueued at 1. simpl.
    rewrite wasEnqueued_insert, elem_of_app, list_elem_of_singleton, Imap.
    tauto.
  - intros j [Hj|Hj%list_elem_of_singleton]%elem_of_app.
    + destruct (Idq j Hj). split; [done|]. apply elem_of_app. by left.
    + subst j. split; [by eapply Ibuf|]. apply elem_of_app. right.
      apply list_elem_of_singleton. congruence.
  - intros j Hj. destruct (Ida j Hj). split; [done|].
    apply elem_of_app. by left.
  - intros j Hj. destruct (Ireach j Hj) as (b' & Hb' & Hor).
    exists b'. split; [done|]. destruct Hor; [by left|right].
    apply elem_of_app. by left.
Qed.

Lemma destTake_inv e e' :
  dispatchInv e -> step e DestTake = Some e' -> dispatchInv e'.
Proof.
  intros I. unfold step. destruct (destQueue e) as [|i rest] eqn:Hq; [done|].
  destruct (len (destActive e) <? _); [|done]. intros [= <-].
  open_inv I. unfold statusAt in *. rewrite Hq in *.
  destruct (Idq i) as [Hireach Hirec]; [by left|].
  split; unfold statusAt; simpl; try done.
  - intros j b [(-> & b0 & Hb0 & ->)|(Hne & Hb)]%alter_lookup_inv;
      simpl; eauto.
  - by rewrite length_alter.
  - intros j Hj. apply Idq. by right.
  - intros j [->|Hj]%elem_of_cons; [done|]. by apply Ida.
  - intros j Hj. destruct (Ireach j Hj) as (b & Hb & Hor).
    destruct (decide (j = i)) as [->|Hne].
    + rewrite list_lookup_alter_eq, Hb. simpl. eexists. split; [done|].
      by right.
    + rewrite list_lookup_alter_ne by done. eauto.
  - intros j b [(-> & b0 & Hb0 & ->)|(Hne & Hb)]%alter_lookup_inv; [done|].
    eauto.
  - intros j Hj. destruct (Isq j Hj) as (? & ? & Hst).
    split; [done|]. split; [done|]. intros b Hb.
    assert (j <> i) by (intros ->; done).
    rewrite list_lookup_alter_ne in Hb by done. by apply Hst.
  - intros j Hj. destruct (Isa j Hj) as (? & ? & Hst). rewrite length_alter.
    split; [done|]. split; [done|]. intros b Hb.
    assert (j <> i) by (intros ->; done).
    rewrite list_lookup_alter_ne in Hb by done. by apply Hst.
  - intros j Hj. destruct (Iunfed j Hj) as (? & Hst).
    split; [done|]. intros b Hb.
    assert (j <> i) by (intros ->; done).
    rewrite list_lookup_alter_ne in Hb by done. by apply Hst.
Qed.

Lemma destDone_inv e e' i err :
  dispatchInv e -> step e (DestDone i err) = Some e' -> dispatchInv e'.
Proof.
  intros I. unfold step. case_bool_decide as Hact; [|done]. intros [= <-].
  open_inv I. unfold statusAt in *.
  destruct (Ida i Hact) as [Hireach Hirec].
  split; unfold statusAt; simpl; try done.
  - intros j b [(-> & b0 & Hb0 & ->)|(Hne & Hb)]%alter_lookup_inv;
      [destruct err|]; simpl; eauto.
  - by rewrite length_alter.
  - intros j Hj%removeFirst_subset. by apply Ida.
  - intros j Hj. destruct (Ireach j Hj) as (b & Hb & Hor).
    destruct (decide (j = i)) as [->|Hne].
    + rewrite list_lookup_alter_eq, Hb. simpl. eexists. split; [done|].
      by right.
    + rewrite list_lookup_alter_ne by done. eauto.
  - intros j b [(-> & b0 & Hb0 & ->)|(Hne & Hb)]%alter_lookup_inv;
      [by destruct err|].
    eauto.
  - intros j Hj. destruct (Isq j Hj) as (? & ? & Hst).
    split; [done|]. split; [done|]. intros b Hb.
    assert (j <> i) by (intros ->; done).
    rewrite list_lookup_alter_ne in Hb by done. by apply Hst.
  - intros j Hj. destruct (Isa j Hj) as (? & ? & Hst). rewrite length_alter.
    split; [done|]. split; [done|]. intros b Hb.
    assert (j <> i) by (intros ->; done).
    rewrite list_lookup_alter_ne in Hb by done. by apply Hst.
  - intros j Hj. destruct (Iunfed j Hj) as (? & Hst).
    split; [done|]. intros b Hb.
    assert (j <> i) by (intros ->; done).
    rewrite list_lookup_alter_ne in Hb by done. by apply Hst.
Qed.

Lemma step_inv e ev e' :
  dispatchInv e -> step e ev = Some e' -> dispatchInv e'.
Proof.
  intros I. destruct ev.
  - by apply feed_inv.
  - by apply sourceTake_inv.
  - by apply sourceDone_inv.
  - simpl. destruct (poller e); try done. intros [= <-].
    by apply withPoller_inv.
  - by apply visit_inv.
  - simpl. destruct (poller e); try done.
    destruct (batches e !! i); [|done].
    destruct (shouldDispatch e b); [|done]. intros [= <-].
    by apply withPoller_inv.
  - simpl. destruct (poller e); try done.
    destruct (stopChan e); [|done]. intros [= <-]. by apply withPoller_inv.
  - by apply destTake_inv.
  - by apply destDone_inv.
  - simpl. destruct (stopChan e); [done|]. intros [= <-]. by destruct I.
Qed.

Lemma run_inv evs : forall e e',
  dispatchInv e -> run e evs = Some e' -> dispatchInv e'.
Proof.
  induction evs as [|ev evs IH]; intros e e' I; simpl.
  - by intros [= <-].
  - destruct (step e ev) as [e1|] eqn:Hs; [|done].
    apply IH. by eapply step_inv.
Qed.

(** Only the poller's visit of a buffered batch whose id is not yet in
    the map hands a batch to the destination pool, and it records the id
    in the map. *)
Lemma step_received e ev e' :
  step e ev = Some e' ->
  received e' = received e \/
  exists i b,
    ev = Visit /\ poller e = Scanning i /\ batches e !! i = Some b /\
    B_Status b = buffered /\ wasEnqueued e (B_ID b) = false /\
    received e' = received e ++ [B_ID b] /\
    wasEnqueued e' (B_ID b) = true.
Proof.
  destruct ev; simpl; repeat case_match; try done;
    try (intros [= <-]; by left).
  intros [= <-]. right.
  match goal with
  | H : shouldDispatch _ _ = true |- _ =>
      apply andb_prop in H as [Hst%bool_decide_eq_true Hnew%negb_true_iff]
  end.
  eexists _, _. repeat split; try done.
  unfold wasEnqueued. simpl. by rewrite lookup_insert_eq.
Qed.

End Dispatch.

Lemma NoDup_count_le (l : list Z) x :
  NoDup l -> (count_occ Z.eq_dec l x <= 1)%nat.
Proof. intros H%NoDup_ListNoDup. by apply List.NoDup_count_occ. Qed.

Lemma NoDup_count_one (l : list Z) x :
  NoDup l -> x ∈ l -> count_occ Z.eq_dec l x = 1%nat.
Proof.
  intros H%NoDup_ListNoDup Hx%list_elem_of_In.
  by apply List.NoDup_count_occ'.
Qed.

Lemma terminal_not_buffered e (i : nat) b :
  allBatchesCompleted e = true -> batches e !! i = Some b ->
  B_Status b <> buffered.
Proof.
  unfold allBatchesCompleted. intros Hall Hb Hst.
  rewrite forallb_forall in Hall.
  specialize (Hall b). rewrite Hst in Hall. simpl in Hall.
  assert (false = true) by (apply Hall, list_elem_of_In; by eapply list_elem_of_lookup_2).
  discriminate.
Qed.

(** Claim C1. In every state that a run of [coordinateTransfer]
    reaches from a manifest built by [AddBatch] calls:
    - no batch id has been handed to the destination pool more than
      once;
    - a further event hands over a batch only if it is the poller's
      visit of a batch whose status is buffered and whose id is not in
      [enqueuedToDest], and that visit records the id in the map;
    - if every batch is completed or failed, each batch that was ever
      buffered has been handed over exactly once. *)
Theorem exactly_once_dispatch cfg id now source destination chunk calls
    evs e :
  run (initEngine cfg
         (addBatches (NewManifest id now source destination chunk) calls))
      evs = Some e ->
  (forall bid, (count_occ Z.eq_dec (received e) bid <= 1)%nat) /\
  (forall ev e',
     step e ev = Some e' ->
     received e' = received e \/
     exists i b,
       ev = Visit /\ poller e = Scanning i /\ batches e !! i = Some b /\
       B_Status b = buffered /\ wasEnqueued e (B_ID b) = false /\
       received e' = received e ++ [B_ID b] /\
       wasEnqueued e' (B_ID b) = true) /\
  (allBatchesCompleted e = true ->
   forall (i : nat) b,
     batches e !! i = Some b -> i ∈ reachedBuffered e ->
     count_occ Z.eq_dec (received e) (B_ID b) = 1%nat).
Proof.
  intros Hrun.
  assert (dispatchInv e) as I.
  { eapply run_inv; [|exact Hrun]. apply initEngine_inv.
    apply addBatches_conserved, NewManifest_conserved. }
  split; [|split].
  - intros bid. apply NoDup_count_le, I.
  - intros ev e'. apply step_received.
  - intros Hall i b Hb Hreach. apply NoDup_count_one; [apply I|].
    destruct (inv_reached e I i Hreach) as (b' & Hb' & [Hst|Hin]).
    + by destruct (terminal_not_buffered e i b').
    + by rewrite (inv_ids e I i b Hb).
Qed.

(** The run [sampleRun] on two batches: batch 0 goes through both
    pools, batch 1 fails in its source worker; at the end both are
    terminal and id 0 was handed over once. *)
Lemma exactly_once_dispatch_witness :
  exists e,
    run (initEngine DefaultConfig twoBatches) sampleRun = Some e /\
    allBatchesCompleted e = true /\
    poller e = Exited None /\
    received e = [0] /\
    (forall bid, (count_occ Z.eq_dec (received e) bid <= 1)%nat) /\
    (forall ev e',
       step e ev = Some e' ->
       received e' = received e \/
       exists i b,
         ev = Visit /\ poller e = Scanning i /\ batches e !! i = Some b /\
         B_Status b = buffered /\ wasEnqueued e (B_ID b) = false /\
         received e' = received e ++ [B_ID b] /\
         wasEnqueued e' (B_ID b) = true) /\
    (forall (i : nat) b,
       batches e !! i = Some b -> i ∈ reachedBuffered e ->
       count_occ Z.eq_dec (received e) (B_ID b) = 1%nat).
Proof.
  destruct (run (initEngine DefaultConfig twoBatches) sampleRun)
    as [e|] eqn:Hrun; [|vm_compute in Hrun; discriminate Hrun].
  exists e. split; [reflexivity|].
  assert (allBatchesCompleted e = true /\ poller e = Exited None
          /\ received e = [0]) as (Hall & Hpoll & Hrec).
  { vm_compute in Hrun. injection Hrun as <-. vm_compute. by repeat split. }
  split; [exact Hall|]. split; [exact Hpoll|]. split; [exact Hrec|].
  destruct (exactly_once_dispatch DefaultConfig "manifest-1" 1 "/srv/data"
              "/mnt/backup" 50 _ sampleRun e Hrun) as (Hmost & Hstep & Hone).
  split; [exact Hmost|]. split; [exact Hstep|]. exact (Hone Hall).
Defined.

(** * Further properties *)

(** ** Remote paths: printing and parsing *)

(** Property X1. Printing a remote location and parsing the text gives
    the location back. *)
Theorem ParseRemotePath_of_String loc :
  User loc <> "" -> Host loc <> "" -> RPath loc <> "" -> Port loc = 22 ->
  Contains (User loc) "@" = false -> Contains (Host loc) ":" = false ->
  ParseRemotePath (RemoteLocationString loc) = Ok loc.
Proof.
  intros Hu%string_eqb_empty Hh%string_eqb_empty Hp%string_eqb_empty Hport
         Hat%Contains_false Hcolon%Contains_false.
  rewrite RemoteLocationString_form, ParseRemotePath_form by done.
  rewrite Hu, Hh, Hp. destruct loc; simpl in *. by subst.
Qed.

Lemma ParseRemotePath_of_String_witness :
  ParseRemotePath
    (RemoteLocationString
       {| User := "deploy"; Host := "10.0.0.5"; Port := 22;
          RPath := "/srv/data" |})
  = Ok {| User := "deploy"; Host := "10.0.0.5"; Port := 22;
          RPath := "/srv/data" |}.
Proof.
  apply (ParseRemotePath_of_String
           {| User := "deploy"; Host := "10.0.0.5"; Port := 22;
              RPath := "/srv/data" |}); simpl; done.
Defined.

(** Property X2. An input that [ParseRemotePath] accepts is the text of
    the location it returns; user, host and path are not empty, the user has no '@',
    the host no ':', and the port is 22. *)
Theorem String_of_ParseRemotePath s loc :
  ParseRemotePath s = Ok loc ->
  RemoteLocationString loc = s /\
  User loc <> "" /\ Host loc <> "" /\ RPath loc <> "" /\ Port loc = 22 /\
  Contains (User loc) "@" = false /\ Contains (Host loc) ":" = false.
Proof.
  intros Hok.
  destruct (ParseRemotePath_accepted s loc Hok) as (u & h & p & -> & Hu & Hh).
  rewrite ParseRemotePath_form in Hok by done.
  destruct (String.eqb u "") eqn:Eu; [done|].
  destruct (String.eqb h "") eqn:Eh; [done|].
  destruct (String.eqb p "") eqn:Ep; [done|].
  injection Hok as <-. rewrite RemoteLocationString_form. simpl.
  apply string_eqb_empty in Eu, Eh, Ep.
  by rewrite !Contains_false.
Qed.

Lemma String_of_ParseRemotePath_witness :
  RemoteLocationString
    {| User := "root"; Host := "104.238.147.39"; Port := 22;
       RPath := "~/test-small-files" |}
  = "root@104.238.147.39:~/test-small-files".
Proof.
  apply (String_of_ParseRemotePath
           "root@104.238.147.39:~/test-small-files"). reflexivity.
Defined.

(** Property X3. The three location parsers of the batch package are
    the same function of the location. *)
Theorem location_parsers_agree location :
  parseRemoteLocation location = fst (parseLocation location) /\
  parseDestLocation location = fst (parseLocation location).
Proof.
  unfold parseRemoteLocation, parseDestLocation, parseLocation.
  split; repeat case_match; by simplify_eq.
Qed.

(** Property X4. On every input that [ParseRemotePath] accepts and whose
    user has no ':', [parseLocation] finds the same host and path. *)
Theorem ParseRemotePath_parseLocation s loc :
  ParseRemotePath s = Ok loc -> Contains (User loc) ":" = false ->
  parseLocation s = (Host loc, RPath loc, None).
Proof.
  intros Hok Hcolon.
  destruct (ParseRemotePath_accepted s loc Hok) as (u & h & p & -> & Hu & Hh).
  rewrite ParseRemotePath_form in Hok by done.
  destruct (String.eqb u ""); [done|].
  destruct (String.eqb h ""); [done|].
  destruct (String.eqb p ""); [done|].
  injection Hok as <-. simpl in *.
  apply parseLocation_user_host; first [done | by apply Contains_false].
Qed.

Lemma ParseRemotePath_parseLocation_witness :
  parseLocation "root@104.238.147.39:~/test-small-files"
  = ("104.238.147.39", "~/test-small-files", None).
Proof.
  apply (ParseRemotePath_parseLocation
           "root@104.238.147.39:~/test-small-files"
           {| User := "root"; Host := "104.238.147.39"; Port := 22;
              RPath := "~/test-small-files" |}); reflexivity.
Defined.

(** Property X5. An input that [ParseRemotePath] accepts is never taken
    for a local path by the analyzer. *)
Theorem ParseRemotePath_not_local s loc :
  ParseRemotePath s = Ok loc -> isLocalPath s = false.
Proof.
  intros Hok.
  destruct (ParseRemotePath_accepted s loc Hok) as (u & h & p & -> & Hu & Hh).
  assert (Contains (u +:+ String "@" (h +:+ String ":" p)) "@" = true) as Ha.
  { unfold Contains. by rewrite Index_app_None, Index_here by done. }
  assert (Contains (u +:+ String "@" (h +:+ String ":" p)) ":" = true) as Hc.
  { unfold Contains.
    destruct (Index u ":") as [i|] eqn:Hi.
    - destruct (Index_split _ _ _ Hi) as (u1 & u2 & -> & _ & Hu1).
      rewrite append_assoc, append_cons.
      by rewrite Index_app_None, Index_here by done.
    - rewrite Index_app_None, Index_skip by done.
      by rewrite Index_app_None, Index_here by done. }
  unfold isLocalPath, detectProtocol. rewrite Ha, Hc.
  apply bool_decide_eq_false_2. by repeat case_match.
Qed.

Lemma ParseRemotePath_not_local_witness :
  isLocalPath "root@104.238.147.39:~/test-small-files" = false.
Proof.
  apply (ParseRemotePath_not_local _
           {| User := "root"; Host := "104.238.147.39"; Port := 22;
              RPath := "~/test-small-files" |}). reflexivity.
Defined.

(** ** Reservations across the two pools *)

Section Accounting.

Lemma wrap64_shift a : exists k, wrap64 a = a + k * modulus.
Proof.
  exists (- ((a - min_int) / modulus)). unfold wrap64.
  pose proof (Z.div_mod (a - min_int) modulus) as H.
  unfold modulus in *. lia.
Qed.

Lemma wrap64_period a k : wrap64 (a + k * modulus) = wrap64 a.
Proof.
  unfold wrap64.
  replace (a + k * modulus - min_int) with (a - min_int + k * modulus) by lia.
  by rewrite Z.mod_add.
Qed.

Lemma wrap64_neg a : wrap64 (- wrap64 a) = wrap64 (- a).
Proof.
  destruct (wrap64_shift a) as [k ->].
  replace (- (a + k * modulus)) with (- a + (- k) * modulus) by lia.
  apply wrap64_period.
Qed.

(** Adding [n] and then subtracting it, as [ReserveSpace] and
    [ReleaseSpace] do. *)
Lemma add_neg_cancel c n :
  in_range c -> Int64.add (Int64.add c n) (Int64.neg n) = c.
Proof.
  intros Hc. unfold Int64.add, Int64.neg.
  rewrite wrap64_add_r, wrap64_add_l.
  replace (c + n + - n) with c by lia. by apply wrap64_id.
Qed.

Lemma setCurrent_same bm : setCurrent bm (currentSize bm) = bm.
Proof. by destruct bm. Qed.

Lemma setCurrent_twice bm a b : setCurrent (setCurrent bm a) b = setCurrent bm b.
Proof. done. Qed.

Lemma reserveLoop_stopped bm size ws bm' :
  Forall (fun e => e = Stopped) ws ->
  reserveLoop bm size ws = (bm', Return None) ->
  ReserveSpace bm size = (true, bm').
Proof.
  intros Hws. destruct ws as [|e ws]; simpl.
  - destruct (ReserveSpace bm size) as [[] bm1]; by intros [= <-].
  - apply Forall_cons in Hws as [-> _].
    destruct (ReserveSpace bm size) as [[] bm1]; by intros [= <-].
Qed.

Lemma reserveLoop_stopped_error bm size ws bm' err :
  Forall (fun e => e = Stopped) ws ->
  reserveLoop bm size ws = (bm', Return (Some err)) -> bm' = bm.
Proof.
  intros Hws. destruct ws as [|e ws]; simpl.
  - by destruct (ReserveSpace bm size) as [[] bm1].
  - apply Forall_cons in Hws as [-> _].
    destruct (ReserveSpace bm size) as [[] bm1]; [done|]. by intros [= <-].
Qed.

Lemma ReserveSpace_true bm n bm' :
  ReserveSpace bm n = (true, bm') ->
  bm' = setCurrent bm (Int64.add (currentSize bm) n) /\
  Int64.add (currentSize bm) n <= maxSize bm.
Proof.
  unfold ReserveSpace.
  destruct (maxSize bm <? Int64.add (currentSize bm) n) eqn:E; [done|].
  apply Z.ltb_ge in E. by intros [= <-].
Qed.

Lemma createTarArchive_error_buffer w run w' err :
  createTarArchive w run = (w', Some err) ->
  w_buffer w' = w_buffer w /\ w_batch w' = w_batch w.
Proof.
  unfold createTarArchive. destruct (tarErr run); [by intros [= <-]|].
  destruct (_ !! batchPath run) as [infoSize|]; [|by intros [= <-]].
  by destruct (infoSize =? B_Size (w_batch w)).
Qed.

End Accounting.

(** Property X6. A reservation that succeeded is undone by the release of the same
    number of bytes, and [DeleteBatch] does so while removing the
    file. *)
Theorem release_undoes_reserve bm n bm' disk pth :
  in_range (currentSize bm) ->
  ReserveSpace bm n = (true, bm') ->
  ReleaseSpace bm' n = bm /\
  DeleteBatch bm' disk pth n None = (bm, delete pth disk, None).
Proof.
  intros Hc [-> _]%ReserveSpace_true.
  assert (ReleaseSpace (setCurrent bm (Int64.add (currentSize bm) n)) n = bm)
    as Hrel.
  { unfold ReleaseSpace. simpl. rewrite setCurrent_twice, add_neg_cancel by done.
    apply setCurrent_same. }
  split; [done|]. unfold DeleteBatch. by rewrite Hrel.
Qed.

Lemma release_undoes_reserve_witness :
  ReleaseSpace (snd (ReserveSpace nearlyFull 1000)) 1000 = nearlyFull.
Proof.
  apply (release_undoes_reserve nearlyFull 1000
           (snd (ReserveSpace nearlyFull 1000)) ∅ "").
  - vm_compute. split; discriminate.
  - reflexivity.
Defined.

(** Property X7. When nobody else releases space meanwhile, a source
    worker whose
    [processBatch] fails leaves the counter where it was, and the batch
    failed with the error recorded. *)
Theorem sourceWork_failure_keeps_counter w run w' err :
  Forall (fun e => e = Stopped) (waits run) ->
  in_range (currentSize (w_buffer w)) ->
  sourceWork w run = (w', Return (Some err)) ->
  currentSize (w_buffer w') = currentSize (w_buffer w) /\
  B_Status (w_batch w') = failed /\ B_Error (w_batch w') = err.
Proof.
  intros Hws Hc. unfold sourceWork.
  destruct (processBatch w run) as [w1 [[e1|]|]] eqn:Hp; [|done|done].
  intros [= <- <-]. simpl. split; [|done].
  revert Hp. unfold processBatch.
  destruct (ensureDirErr run); [by intros [= <- _]|].
  destruct (reserveLoop _ _ _) as [bm [[e2|]|]] eqn:Hloop; [| |done].
  - intros [= <- _]. simpl.
    by rewrite (reserveLoop_stopped_error _ _ _ _ _ Hws Hloop).
  - apply (reserveLoop_stopped _ _ _ _ Hws) in Hloop.
    apply ReserveSpace_true in Hloop as [-> _]. simpl in *.
    destruct (fileListErr run).
    + intros [= <- _]. simpl. by rewrite add_neg_cancel.
    + destruct (createTarArchive _ run) as [w2 [e3|]] eqn:Htar; [|done].
      apply createTarArchive_error_buffer in Htar as [Hb Hbatch].
      simpl in Hb, Hbatch. intros [= <- _]. simpl.
      rewrite Hb, Hbatch. simpl. by rewrite add_neg_cancel.
Qed.

Lemma sourceWork_failure_keeps_counter_witness :
  let w := {| w_buffer := nearlyFull; w_batch := smallBatch; w_disk := ∅ |} in
  let run :=
    {| batchPath := "/tmp/difpipe-buffer/manifest-1/batch_00007.tar.gz";
       ensureDirErr := None; waits := []; fileListErr := None;
       tarErr := Some ("exit status 2", "tar: a.jpg: Cannot stat");
       tarWrote := None |} in
  snd (sourceWork w run)
    = Return (Some ("create tar: tar failed: exit status 2 "
                    +:+ "(output: tar: a.jpg: Cannot stat)")) /\
  currentSize (w_buffer (fst (sourceWork w run))) = currentSize nearlyFull /\
  B_Status (w_batch (fst (sourceWork w run))) = failed.
Proof.
  intros w run. split; [reflexivity|].
  destruct (sourceWork_failure_keeps_counter w run (fst (sourceWork w run))
              ("create tar: tar failed: exit status 2 "
               +:+ "(output: tar: a.jpg: Cannot stat)"))
    as (Hc & Hs & _).
  - constructor.
  - vm_compute. split; discriminate.
  - reflexivity.
  - split; [exact Hc|exact Hs].
Defined.

(** Property X8. A destination worker that fails deletes nothing and releases
    nothing: disk and counter are as before, and the batch is failed
    with the error recorded. *)
Theorem destWork_failure_preserves cfg w r w' err :
  destWork cfg w r = (w', Some err) ->
  w_disk w' = w_disk w /\ w_buffer w' = w_buffer w /\
  B_Status (w_batch w') = failed /\ B_Error (w_batch w') = err /\
  B_LocalPath (w_batch w') = B_LocalPath (w_batch w) /\
  B_Size (w_batch w') = B_Size (w_batch w).
Proof.
  unfold destWork.
  destruct (destProcessBatch cfg w r) as [w1 [e1|]] eqn:Hp; [|done].
  intros [= <- <-]. simpl. revert Hp. unfold destProcessBatch. simpl.
  destruct (String.eqb (B_LocalPath (w_batch w)) ""); [by intros [= <- _]|].
  destruct (extractErr r); [by intros [= <- _]|].
  destruct (CleanupBuffer cfg); [|done].
  by destruct (DeleteBatch _ _ _ _ _) as [[? ?] ?].
Qed.

Lemma destWork_failure_preserves_witness :
  let w := {| w_buffer := nearlyFull;
              w_batch := SetLocalPath smallBatch "/tmp/b/batch_00007.tar.gz";
              w_disk := {[ "/tmp/b/batch_00007.tar.gz" := 1000 ]} |} in
  let r := {| extractErr := Some "exit status 2"; removeErr := None |} in
  snd (destWork DefaultConfig w r) = Some "extract tar: exit status 2" /\
  w_disk (fst (destWork DefaultConfig w r)) = w_disk w /\
  w_buffer (fst (destWork DefaultConfig w r)) = w_buffer w.
Proof.
  intros w r. split; [reflexivity|].
  destruct (destWork_failure_preserves DefaultConfig w r
              (fst (destWork DefaultConfig w r))
              "extract tar: exit status 2" eq_refl) as (Hd & Hb & _).
  split; [exact Hd|exact Hb].
Defined.

Section Pipeline.

Lemma wrap64_sub_r a b : wrap64 (a - wrap64 b) = wrap64 (a - b).
Proof.
  destruct (wrap64_shift b) as [k ->].
  replace (a - (b + k * modulus)) with (a - b + (- k) * modulus) by lia.
  apply wrap64_period.
Qed.

(** The reservation that a source worker holds for a buffered batch
    when the accounting could follow the archive. *)
Lemma processBatch_reserved w run w1 actual :
  Forall (fun e => e = Stopped) (waits run) ->
  tarWrote run = Some actual ->
  in_range (currentSize (w_buffer w)) ->
  in_range (maxSize (w_buffer w)) ->
  0 <= B_Size (w_batch w) <= max_int -> 0 <= actual <= max_int ->
  (actual <= B_Size (w_batch w)
   \/ currentSize (w_buffer w) + actual <= maxSize (w_buffer w)) ->
  processBatch w run = (w1, Return None) ->
  w_buffer w1
    = setCurrent (w_buffer w) (wrap64 (currentSize (w_buffer w) + actual)) /\
  B_Size (w_batch w1) = actual /\
  B_LocalPath (w_batch w1) = batchPath run /\
  w_disk w1 = <[batchPath run := actual]> (w_disk w).
Proof.
  intros Hws Hwrote Hc Hmax Hdecl Hact Hroom. unfold processBatch.
  destruct (ensureDirErr run); [done|].
  destruct (reserveLoop _ _ _) as [bm [[e|]|]] eqn:Hloop; [done| |done].
  apply (reserveLoop_stopped _ _ _ _ Hws) in Hloop.
  apply ReserveSpace_true in Hloop as [-> Hfit]. simpl in *.
  destruct (fileListErr run); [done|].
  unfold createTarArchive. simpl. rewrite Hwrote.
  destruct (tarErr run); [done|]. rewrite lookup_insert_eq.
  set (c0 := currentSize (w_buffer w)) in *.
  set (declared := B_Size (w_batch w)) in *.
  destruct (actual =? declared) eqn:Hsame.
  - apply Z.eqb_eq in Hsame. intros [= <-]. simpl.
    unfold Int64.add. by rewrite Hsame.
  - apply Z.eqb_neq in Hsame.
    assert (Int64.sub actual declared = actual - declared) as Hdiff.
    { unfold Int64.sub. apply wrap64_id.
      unfold in_range, min_int, max_int in *. lia. }
    rewrite Hdiff.
    destruct (0 <? actual - declared) eqn:Hpos.
    + apply Z.ltb_lt in Hpos.
      destruct Hroom as [Hroom|Hroom]; [lia|].
      assert (Int64.add (Int64.add c0 declared) (actual - declared)
              = c0 + actual) as Hsum.
      { unfold Int64.add. rewrite wrap64_add_l.
        replace (c0 + declared + (actual - declared)) with (c0 + actual)
          by lia.
        apply wrap64_id. unfold in_range, min_int, max_int in *. lia. }
      unfold ReserveSpace. simpl. rewrite Hsum.
      replace (maxSize (w_buffer w) <? c0 + actual) with false
        by (symmetry; apply Z.ltb_ge; lia).
      intros [= <-]. simpl. split; [|done].
      rewrite wrap64_id; [done|]. unfold in_range, min_int, max_int in *. lia.
    + apply Z.ltb_ge in Hpos. intros [= <-]. simpl. split; [|done].
      unfold ReleaseSpace, Int64.add, Int64.neg. simpl. f_equal.
      rewrite wrap64_neg, wrap64_add_r, wrap64_add_l. f_equal. lia.
Qed.

End Pipeline.



(** ** The batch state machine along a run *)

Section StateMachine.

Ltac open_dispatch I :=
  destruct I as [Iids Ifed Irec Imap Idq Ida Ireach Ibuf Isq Isqnd Isa
                 Isand Iunfed].

Ltac open_dest D := destruct D as [Dq Dqnd Da Dand].

Lemma initEngine_dest cfg m : destInv (initEngine cfg m).
Proof.
  split; simpl; try apply NoDup_nil_2; by intros i ?%elem_of_nil.
Qed.

Lemma withPoller_dest e pc : destInv e -> destInv (withPoller e pc).
Proof. by intros []. Qed.

(** A status change at a batch that is neither queued for nor inside
    the destination pool keeps [destInv]. *)
Lemma alter_elsewhere_dest e e' (f : Batch -> Batch) i :
  destInv e ->
  i ∉ destQueue e -> i ∉ destActive e ->
  batches e' = alter f i (batches e) ->
  destQueue e' = destQueue e -> destActive e' = destActive e ->
  destInv e'.
Proof.
  intros D Hq Ha Hb Hq' Ha'. open_dest D. unfold statusAt in *.
  split; unfold statusAt; rewrite ?Hb, ?Hq', ?Ha', ?length_alter; try done.
  - intros j Hj. destruct (Dq j Hj) as [? Hst]. split; [done|].
    intros b Hlook. assert (j <> i) by (intros ->; done).
    rewrite list_lookup_alter_ne in Hlook by done. by apply Hst.
  - intros j Hj. destruct (Da j Hj) as [? Hst]. split; [done|].
    intros b Hlook. assert (j <> i) by (intros ->; done).
    rewrite list_lookup_alter_ne in Hlook by done. by apply Hst.
Qed.

Lemma step_dest e ev e' :
  dispatchInv e -> destInv e -> step e ev = Some e' -> destInv e'.
Proof.
  intros I D. destruct ev as [| |i r| | | | | |i err|]; simpl.
  - (* Feed *)
    destruct (_ && _); [|done]. intros [= <-]. by destruct D.
  - (* SourceTake *)
    destruct (sourceQueue e) as [|i rest] eqn:Hq; [done|].
    destruct (len (sourceActive e) <? _); [|done]. intros [= <-].
    open_dispatch I.
    destruct (Isq i) as (_ & Hnr & _); [rewrite Hq; by left|].
    eapply (alter_elsewhere_dest e _ _ i D); simpl; try done.
    + intros Hin. by destruct (Idq i Hin).
    + intros Hin. by destruct (Ida i Hin).
  - (* SourceDone *)
    case_bool_decide as Hact; [|done]. intros [= <-].
    open_dispatch I. destruct (Isa i Hact) as (_ & Hnr & _).
    eapply (alter_elsewhere_dest e _ _ i D); simpl; try done.
    + intros Hin. by destruct (Idq i Hin).
    + intros Hin. by destruct (Ida i Hin).
  - (* Tick *)
    destruct (poller e); try done. intros [= <-]. by apply withPoller_dest.
  - (* Visit *)
    destruct (poller e) as [|i|]; try done.
    destruct (batches e !! i) as [b|] eqn:Hb.
    2: { destruct (allBatchesCompleted e); intros [= <-];
         by apply withPoller_dest. }
    destruct (shouldDispatch e b) eqn:Hd.
    2: { intros [= <-]. by apply withPoller_dest. }
    destruct (len (destQueue e) <? _); [|done]. intros [= <-].
    apply andb_prop in Hd as [Hst%bool_decide_eq_true Hnew%negb_true_iff].
    open_dispatch I. open_dest D. unfold statusAt in *.
    assert (i ∉ destQueue e) as Hfresh.
    { intros Hin. destruct (Idq i Hin) as [_ Hrec].
      apply Imap in Hrec. rewrite <- (Iids i b Hb) in Hrec. congruence. }
    split; unfold statusAt; simpl; try done.
    + intros j [Hj|Hj%list_elem_of_singleton]%elem_of_app; [by apply Dq|].
      subst j. split; [by eapply lookup_lt_Some|]. intros b' Hb'. congruence.
    + apply NoDup_app. split; [done|]. split; [|apply NoDup_singleton].
      by intros j Hj ->%list_elem_of_singleton.
  - (* EnqueueRefused *)
    destruct (poller e); try done. destruct (batches e !! i); [|done].
    destruct (shouldDispatch e b); [|done]. intros [= <-].
    by apply withPoller_dest.
  - (* PollerStop *)
    destruct (poller e); try done. destruct (stopChan e); [|done].
    intros [= <-]. by apply withPoller_dest.
  - (* DestTake *)
    destruct (destQueue e) as [|i rest] eqn:Hq; [done|].
    destruct (len (destActive e) <? _); [|done]. intros [= <-].
    open_dest D. unfold statusAt in *. rewrite Hq in *.
    apply NoDup_cons in Dqnd as [Hirest Hnd].
    destruct (Dq i) as [Hilen Hibuf]; [by left|].
    destruct (lookup_lt_is_Some_2 (batches e) i Hilen) as [bi Hbi].
    split; unfold statusAt; simpl; rewrite ?length_alter.
    + intros j Hj. destruct (Dq j) as [? Hst]; [by right|]. split; [done|].
      intros b Hb. assert (j <> i) by (intros ->; done).
      rewrite list_lookup_alter_ne in Hb by done. by apply Hst.
    + done.
    + intros j [->|Hj]%elem_of_cons.
      * split; [done|]. intros b. rewrite list_lookup_alter_eq, Hbi.
        by intros [= <-].
      * destruct (Da j Hj) as [? Hst]. split; [done|].
        intros b [(-> & b0 & Hb0 & ->)|(Hne & Hb)]%alter_lookup_inv; [done|].
        by apply Hst.
    + apply NoDup_cons. split; [|done]. intros Hin.
      destruct (Da i Hin) as [_ Hst]. specialize (Hst _ Hbi).
      specialize (Hibuf _ Hbi). congruence.
  - (* DestDone *)
    case_bool_decide as Hact; [|done]. intros [= <-].
    open_dest D. unfold statusAt in *.
    destruct (Da i Hact) as [Hilen Hiup].
    destruct (lookup_lt_is_Some_2 (batches e) i Hilen) as [bi Hbi].
    destruct (removeFirst_NoDup i _ Dand) as [Hnd Hgone].
    split; unfold statusAt; simpl; rewrite ?length_alter; try done.
    + intros j Hj. destruct (Dq j Hj) as [? Hst]. split; [done|].
      intros b Hb. assert (j <> i).
      { intros ->. specialize (Hst _ Hbi). specialize (Hiup _ Hbi).
        congruence. }
      rewrite list_lookup_alter_ne in Hb by done. by apply Hst.
    + intros j Hj. assert (j <> i) by (intros ->; done).
      apply removeFirst_subset in Hj. destruct (Da j Hj) as [? Hst].
      split; [done|]. intros b Hb.
      rewrite list_lookup_alter_ne in Hb by done. by apply Hst.
  - (* Stop *)
    destruct (stopChan e); [done|]. intros [= <-]. by destruct D.
Qed.

(** Both invariants hold in every state of a run on a fresh manifest. *)
Lemma run_invariants evs : forall e e',
  dispatchInv e -> destInv e -> run e evs = Some e' ->
  dispatchInv e' /\ destInv e'.
Proof.
  induction evs as [|ev evs IH]; intros e e' I D; simpl.
  - by intros [= <-].
  - destruct (step e ev) as [e1|] eqn:Hs; [|done].
    apply IH; [by eapply step_inv|by eapply step_dest].
Qed.

Lemma fresh_run_invariants cfg id now source destination chunk calls evs e :
  run (initEngine cfg
         (addBatches (NewManifest id now source destination chunk) calls))
      evs = Some e ->
  dispatchInv e /\ destInv e.
Proof.
  apply run_invariants.
  - apply initEngine_inv, addBatches_conserved, NewManifest_conserved.
  - apply initEngine_dest.
Qed.

Lemma moved_refl b : moved b b.
Proof. repeat split; by left. Qed.

Lemma alter_moved (f : Batch -> Batch) (l : list Batch) (i : nat) :
  (forall b, l !! i = Some b -> moved b (f b)) ->
  forall (j : nat) b, l !! j = Some b ->
    exists b', alter f i l !! j = Some b' /\ moved b b'.
Proof.
  intros Hf j b Hb. destruct (decide (j = i)) as [->|Hne].
  - rewrite list_lookup_alter_eq, Hb. simpl. eauto.
  - rewrite list_lookup_alter_ne by done. eauto using moved_refl.
Qed.

Lemma step_moves e ev e' :
  dispatchInv e -> destInv e -> step e ev = Some e' ->
  length (batches e') = length (batches e) /\
  forall (j : nat) b, batches e !! j = Some b ->
    exists b', batches e' !! j = Some b' /\ moved b b'.
Proof.
  intros I D. open_dispatch I. open_dest D. unfold statusAt in *.
  destruct ev as [| |i r| | | | | |i err|]; simpl;
    repeat case_match; try done; intros [= <-]; simpl;
    rewrite ?length_alter; (split; [done|]);
    try (intros j b' Hb'; by eauto using moved_refl);
    apply alter_moved; intros b0 Hb0;
    repeat match goal with H : bool_decide _ = true |- _ =>
      apply bool_decide_eq_true in H end.
  - (* SourceTake *)
    destruct (Isq n) as (_ & _ & Hst); [by left|]. specialize (Hst _ Hb0).
    repeat split; simpl; try done. right. rewrite Hst. constructor.
  - (* SourceDone, archived *)
    destruct (Isa i) as (_ & _ & Hst); [done|]. specialize (Hst _ Hb0).
    repeat split; simpl; try done. right. rewrite Hst. constructor.
  - (* SourceDone, failed *)
    destruct (Isa i) as (_ & _ & Hst); [done|]. specialize (Hst _ Hb0).
    repeat split; simpl; try done. right. rewrite Hst. constructor.
  - (* DestTake *)
    destruct (Dq n) as (_ & Hst); [by left|]. specialize (Hst _ Hb0).
    repeat split; simpl; try done. right. rewrite Hst. constructor.
  - (* DestDone, failed *)
    destruct (Da i) as (_ & Hst); [done|]. specialize (Hst _ Hb0).
    repeat split; simpl; try done. right. rewrite Hst. constructor.
  - (* DestDone, extracted *)
    destruct (Da i) as (_ & Hst); [done|]. specialize (Hst _ Hb0).
    repeat split; simpl; try done. right. rewrite Hst. constructor.
Qed.

Lemma terminal_stays b b' :
  moved b b' -> isTerminal (B_Status b) = true -> B_Status b' = B_Status b.
Proof.
  intros [[Hsame|Hadv] _] Ht; [done|].
  destruct Hadv; discriminate Ht.
Qed.

Lemma run_terminal evs : forall e e',
  dispatchInv e -> destInv e -> run e evs = Some e' ->
  forall (j : nat) b, batches e !! j = Some b ->
    isTerminal (B_Status b) = true ->
    exists b', batches e' !! j = Some b' /\ B_Status b' = B_Status b /\
               B_ID b' = B_ID b /\ B_Files b' = B_Files b.
Proof.
  induction evs as [|ev evs IH]; intros e e' I D; simpl.
  - intros [= <-] j b Hb _. eauto.
  - destruct (step e ev) as [e1|] eqn:Hs; [|done]. intros Hrun j b Hb Ht.
    destruct (step_moves e ev e1 I D Hs) as [_ Hmv].
    destruct (Hmv j b Hb) as (b1 & Hb1 & Hm).
    pose proof (terminal_stays _ _ Hm Ht) as Hst.
    destruct (IH e1 e' (step_inv _ _ _ I Hs) (step_dest _ _ _ I D Hs) Hrun
                j b1 Hb1) as (b' & Hb' & Hst' & Hid' & Hfiles').
    { by rewrite Hst. }
    destruct Hm as (_ & Hid & Hfiles & _).
    exists b'. repeat split; congruence.
Qed.

Lemma step_all_terminal e ev e' :
  dispatchInv e -> destInv e -> step e ev = Some e' ->
  allBatchesCompleted e = true -> allBatchesCompleted e' = true.
Proof.
  intros I D Hs. destruct (step_moves e ev e' I D Hs) as [Hlen Hmv].
  unfold allBatchesCompleted. rewrite !forallb_forall.
  intros Hall b' Hin. apply list_elem_of_In, list_elem_of_lookup in Hin
    as [j Hj].
  destruct (lookup_lt_is_Some_2 (batches e) j) as [b Hb].
  { rewrite <- Hlen. by eapply lookup_lt_Some. }
  destruct (Hmv j b Hb) as (b1 & Hb1 & Hm). simplify_eq.
  assert (isTerminal (B_Status b) = true) as Ht.
  { apply Hall, list_elem_of_In. by eapply list_elem_of_lookup_2. }
  by rewrite (terminal_stays _ _ Hm Ht).
Qed.

Lemma step_returned e ev e' :
  dispatchInv e -> destInv e -> step e ev = Some e' ->
  returnedWhenDone e -> returnedWhenDone e'.
Proof.
  intros I D Hs R.
  pose proof (step_all_terminal e ev e' I D Hs) as Hall.
  revert Hs. unfold returnedWhenDone in *.
  destruct ev as [| |i r| | | | | |i err|]; simpl;
    repeat case_match; try done; intros [= <-]; simpl in *;
    try (intros Hp; destruct (R Hp); auto; fail);
    try done; try (intros _; by right); try (intros _; by left).
Qed.

Lemma run_returned evs : forall e e',
  dispatchInv e -> destInv e -> run e evs = Some e' ->
  returnedWhenDone e -> returnedWhenDone e'.
Proof.
  induction evs as [|ev evs IH]; intros e e' I D; simpl.
  - by intros [= <-].
  - destruct (step e ev) as [e1|] eqn:Hs; [|done]. intros Hrun R.
    apply (IH e1 e'); [by eapply step_inv|by eapply step_dest|done|].
    by eapply step_returned.
Qed.

End StateMachine.

Section EngineRuns.

Context (cfg : Config) (id : string) (now : Z) (source destination : string)
        (chunk : Z) (calls : list batchInfo).

Local Abbreviation start :=
  (initEngine cfg (addBatches (NewManifest id now source destination chunk)
                              calls)).

(** Property X10. In every state of a run on a fresh manifest, an event
    leaves each batch in its status or moves it one step along
    pending, downloading, buffered, uploading, completed (or to failed
    from downloading or uploading); ids, file lists and the number of
    batches do not change. *)
Theorem status_follows_state_machine evs e ev e' :
  run start evs = Some e ->
  step e ev = Some e' ->
  length (batches e') = length (batches e) /\
  forall (j : nat) b, batches e !! j = Some b ->
    exists b', batches e' !! j = Some b' /\
      (B_Status b' = B_Status b \/ advances (B_Status b) (B_Status b')) /\
      B_ID b' = B_ID b /\ B_Files b' = B_Files b /\
      B_FileCount b' = B_FileCount b.
Proof.
  intros Hrun Hs. destruct (fresh_run_invariants _ _ _ _ _ _ _ _ _ Hrun).
  by apply (step_moves e ev e').
Qed.

(** Property X11. A batch that is completed or failed keeps that status
    in every later state of the run. *)
Theorem terminal_status_is_final evs e evs' e' :
  run start evs = Some e ->
  run e evs' = Some e' ->
  forall (j : nat) b, batches e !! j = Some b ->
    isTerminal (B_Status b) = true ->
    exists b', batches e' !! j = Some b' /\ B_Status b' = B_Status b /\
               B_ID b' = B_ID b /\ B_Files b' = B_Files b.
Proof.
  intros Hrun Hrun'. destruct (fresh_run_invariants _ _ _ _ _ _ _ _ _ Hrun).
  by apply (run_terminal evs' e e').
Qed.

(** Property X12. The poller of [coordinateTransfer] has returned nil
    only when the stop channel is closed or every batch is completed or
    failed. *)
Theorem poller_returns_when_done evs e :
  run start evs = Some e ->
  poller e = Exited None ->
  stopChan e = true \/ allBatchesCompleted e = true.
Proof.
  intros Hrun. apply (run_returned evs start e); try done.
  - apply initEngine_inv, addBatches_conserved, NewManifest_conserved.
  - apply initEngine_dest.
Qed.

End EngineRuns.

Lemma status_follows_state_machine_witness :
  exists e e',
    run (initEngine DefaultConfig twoBatches) [Feed; Feed; SourceTake]
      = Some e /\
    step e (SourceDone 0 (Err "create tar: tar failed")) = Some e' /\
    length (batches e') = length (batches e) /\
    forall (j : nat) b, batches e !! j = Some b ->
      exists b', batches e' !! j = Some b' /\
        (B_Status b' = B_Status b \/ advances (B_Status b) (B_Status b')) /\
        B_ID b' = B_ID b /\ B_Files b' = B_Files b /\
        B_FileCount b' = B_FileCount b.
Proof.
  destruct (run (initEngine DefaultConfig twoBatches)
              [Feed; Feed; SourceTake]) as [e|] eqn:Hrun;
    [|vm_compute in Hrun; discriminate Hrun].
  destruct (step e (SourceDone 0 (Err "create tar: tar failed")))
    as [e'|] eqn:Hs.
  2: { vm_compute in Hrun. injection Hrun as <-. vm_compute in Hs.
       discriminate Hs. }
  exists e, e'. split; [reflexivity|]. split; [exact Hs|].
  exact (status_follows_state_machine _ _ _ _ _ _ _ _ _ _ _ Hrun Hs).
Defined.

Lemma terminal_status_is_final_witness :
  exists e e',
    run (initEngine DefaultConfig twoBatches)
      [Feed; Feed; SourceTake; SourceTake;
       SourceDone 1 (Err "create tar: tar failed")] = Some e /\
    run e [SourceDone 0 (Ok ("/tmp/b0.tar.gz", 128)); Tick; Visit; DestTake]
      = Some e' /\
    forall (j : nat) b, batches e !! j = Some b ->
      isTerminal (B_Status b) = true ->
      exists b', batches e' !! j = Some b' /\ B_Status b' = B_Status b /\
                 B_ID b' = B_ID b /\ B_Files b' = B_Files b.
Proof.
  destruct (run (initEngine DefaultConfig twoBatches)
      [Feed; Feed; SourceTake; SourceTake;
       SourceDone 1 (Err "create tar: tar failed")]) as [e|] eqn:Hrun;
    [|vm_compute in Hrun; discriminate Hrun].
  destruct (run e [SourceDone 0 (Ok ("/tmp/b0.tar.gz", 128)); Tick; Visit;
                   DestTake]) as [e'|] eqn:Hrun'.
  2: { vm_compute in Hrun. injection Hrun as <-. vm_compute in Hrun'.
       discriminate Hrun'. }
  exists e, e'. split; [reflexivity|]. split; [exact Hrun'|].
  exact (terminal_status_is_final _ _ _ _ _ _ _ _ _ _ _ Hrun Hrun').
Defined.

Lemma poller_returns_when_done_witness :
  exists e,
    run (initEngine DefaultConfig twoBatches) sampleRun = Some e /\
    poller e = Exited None /\
    (stopChan e = true \/ allBatchesCompleted e = true).
Proof.
  destruct (run (initEngine DefaultConfig twoBatches) sampleRun)
    as [e|] eqn:Hrun; [|vm_compute in Hrun; discriminate Hrun].
  assert (poller e = Exited None) as Hp.
  { vm_compute in Hrun. injection Hrun as <-. reflexivity. }
  exists e. split; [reflexivity|]. split; [exact Hp|].
  exact (poller_returns_when_done _ _ _ _ _ _ _ _ _ Hrun Hp).
Defined.

(** ** The accumulators of the second walk *)

Lemma add_exact x y : in_range (x + y) -> Int64.add x y = x + y.
Proof. intros H. unfold Int64.add. by apply wrap64_id. Qed.

Lemma countFrom_bounds walk : forall n,
  0 <= n -> n + Z.of_nat (length walk) <= max_int ->
  n <= countFrom walk n <= n + Z.of_nat (length walk).
Proof.
  induction walk as [|d walk IH]; intros n Hn Hmax.
  - simpl. lia.
  - change (countFrom (d :: walk) n) with
      (countFrom walk (if walkErr d then n
                       else if negb (isDir d) then Int64.add n 1 else n)).
    rewrite length_cons, Nat2Z.inj_succ in *.
    destruct (walkErr d); [specialize (IH n); lia|].
    destruct (isDir d); simpl; [specialize (IH n); lia|].
    rewrite add_exact by (unfold in_range, min_int; lia).
    specialize (IH (n + 1)). lia.
Qed.

Section Buckets.

Variable a : FileAnalyzer.
Variable interval : Z.

Local Abbreviation K := (Z.max 1 interval).
Local Abbreviation sampled := (sampled interval).

Lemma K_pos : 1 <= K.
Proof. lia. Qed.

Lemma scaled_le c cf : 0 <= cf -> c <= cf / K -> K * c <= cf.
Proof.
  intros Hcf Hc. pose proof K_pos.
  pose proof (Z.mul_div_le cf K ltac:(lia)). nia.
Qed.

Lemma next_multiple c cf :
  0 <= cf -> c <= cf / K -> (cf + 1) mod K = 0 -> c + 1 <= (cf + 1) / K.
Proof.
  intros Hcf Hc Hm. pose proof K_pos.
  apply Z.mod_divide in Hm as [q Hq]; [|lia].
  rewrite Hq, Z.div_mul by lia.
  assert (cf / K < q); [|lia].
  apply Z.div_lt_upper_bound; lia.
Qed.

Lemma div_step cf : 0 <= cf -> cf / K <= (cf + 1) / K.
Proof. intros. pose proof K_pos. apply Z.div_le_mono; lia. Qed.

Lemma classify_sampled cf an sz e :
  0 <= cf -> cf + 1 <= max_int ->
  (cf + 1) mod K = 0 ->
  sampled cf an ->
  sampled (cf + 1) (classify a interval an sz e).
Proof.
  intros Hcf Hmax Hm [Hs Hmed Hl Ht Hc Hno Hext].
  pose proof K_pos as HK.
  pose proof (next_multiple _ _ Hcf Hc Hm) as Hnext.
  pose proof (scaled_le (classified an + 1) (cf + 1) ltac:(lia) Hnext)
    as Hscaled.
  assert (classified an + 1 <= max_int) as Hfit.
  { unfold max_int in *. nia. }
  assert (forall x, 0 <= x <= classified an -> Int64.add x 1 = x + 1)
    as Hadd.
  { intros x Hx. apply add_exact. unfold in_range, min_int. lia. }
  assert (classified (classify a interval an sz e) = classified an + 1)
    as Hcl.
  { unfold classified in *. simpl.
    destruct (sz <? smallFileThreshold a); simpl;
      [|destruct (largeFileThreshold a <? sz)];
      simpl; rewrite Hadd; lia. }
  split; rewrite ?Hcl.
  - simpl. unfold classified in *.
    destruct (sz <? _); [rewrite Hadd|]; lia.
  - simpl. unfold classified in *.
    destruct (negb _ && negb _); [rewrite Hadd|]; lia.
  - simpl. unfold classified in *.
    destruct (negb _ && (_ <? _)); [rewrite Hadd|]; lia.
  - simpl. destruct (Z.ltb_spec 1 interval).
    + rewrite Z.max_r in * by lia. clear Hm Hc Hnext.
      rewrite add_exact, Ht; [ring|].
      unfold in_range, min_int, classified in *. nia.
    + rewrite Z.max_l in * by lia. clear Hm Hc Hnext.
      rewrite add_exact, Ht; [ring|].
      unfold in_range, min_int, classified in *. nia.
  - done.
  - simpl. rewrite lookup_insert_ne; [done|].
    by destruct (String.eqb_spec e "").
  - intros e' n. simpl. clear Hm Hc Hnext Hscaled Hcl.
    assert (0 <= classified an) by (unfold classified; lia).
    set (key := if String.eqb e "" then _ else _).
    destruct (decide (e' = key)) as [->|Hne].
    + rewrite lookup_insert_eq. intros [= <-].
      destruct (FileTypes an !! key) as [old|] eqn:Hold; simpl.
      * specialize (Hext _ _ Hold). rewrite Hadd; lia.
      * rewrite Hadd; lia.
    + rewrite lookup_insert_ne by done. intros Hn.
      specialize (Hext _ _ Hn). lia.
Qed.

Lemma sampled_later cf an : 0 <= cf -> sampled cf an -> sampled (cf + 1) an.
Proof.
  intros Hcf [Hs Hmed Hl Ht Hc Hno Hext]. split; try done.
  pose proof (div_step cf Hcf). lia.
Qed.

Lemma sampleWalk_sampled cancelled walk : forall k cf an an',
  0 <= cf -> cf + Z.of_nat (length walk) <= max_int ->
  sampled cf an ->
  sampleWalk a interval cancelled k walk cf an = Value an' ->
  sampled (countFrom walk cf) an'.
Proof.
  induction walk as [|d walk IH]; intros k cf an an' Hcf Hmax Hinv.
  - simpl. by intros [= <-].
  - change (countFrom (d :: walk) cf) with
      (countFrom walk (if walkErr d then cf
                       else if negb (isDir d) then Int64.add cf 1 else cf)).
    rewrite length_cons, Nat2Z.inj_succ in Hmax. simpl.
    destruct (cancelled k); [done|].
    destruct (walkErr d); simpl; [apply IH; try done; lia|].
    destruct (isDir d); simpl; [apply IH; try done; lia|].
    rewrite add_exact by (unfold in_range, min_int; lia).
    destruct ((1 <? interval) && negb (Z.rem (cf + 1) interval =? 0))
      eqn:Hskip.
    { apply IH; [lia|lia|by apply sampled_later]. }
    assert ((cf + 1) mod K = 0) as Hm.
    { apply andb_false_iff in Hskip as [Hk|Hk].
      - apply Z.ltb_ge in Hk. rewrite Z.max_l by lia. apply Z.mod_1_r.
      - apply negb_false_iff, Z.eqb_eq in Hk.
        destruct (Z.le_gt_cases interval 1).
        + rewrite Z.max_l by lia. apply Z.mod_1_r.
        + rewrite Z.max_r by lia. rewrite <- Z.rem_mod_nonneg; lia. }
    destruct (info d) as [sz|].
    + apply IH; [lia|lia|]. apply classify_sampled; [lia|lia|done|done].
    + apply IH; [lia|lia|by apply sampled_later].
Qed.

End Buckets.

Lemma emptyAnalysis_sampled interval src :
  sampled interval 0 (emptyAnalysis src).
Proof.
  split; simpl; unfold classified; simpl; try done; try lia.
Qed.



(** ** The exit code registry *)

(** Property X14. [GetExitCodeInfo] answers every code with an entry
    that carries that code; a code of category retryable is retryable,
    a code of category configuration, auth or user is not, and a code
    that is not registered is fatal and not retryable. *)
Theorem registry_consistent code :
  let info := GetExitCodeInfo code in
  Code info = code /\
  (Category info = CategoryRetryable -> IsRetryable code = true) /\
  (Category info = CategoryConfiguration \/ Category info = CategoryAuth \/
   Category info = CategoryUser -> IsRetryable code = false) /\
  (ExitCodeRegistry !! code = None ->
   Category info = CategoryFatal /\ IsRetryable code = false).
Proof.
  unfold IsRetryable, GetExitCodeInfo.
  destruct (ExitCodeRegistry !! code) as [i|] eqn:E; simpl.
  - apply elem_of_list_to_map_2 in E. unfold registryEntries in E.
    repeat (apply elem_of_cons in E as [E|E];
            [inversion E; subst; clear E; simpl;
             (split; [reflexivity|]); (split; [by intros|]);
             (split; [|by intros]); by intros [|[|]] |]).
    inversion E.
  - repeat split; try done.
Qed.

(** ** Choosing the engine *)

Lemma recommendStrategy_registered a an :
  recommendStrategy a an ∈ [StrategyRclone; StrategyRsync; StrategyTar].
Proof.
  unfold recommendStrategy. repeat case_match; repeat constructor.
Qed.

Lemma AnalyzeTransfer_registered a cancelled walk source destination an :
  AnalyzeTransfer a cancelled walk source destination = Value an ->
  Recommendation an ∈
    [StrategyRclone; StrategyRsync; StrategyTar; StrategyProxy].
Proof.
  unfold AnalyzeTransfer, Analyze.
  pose proof (recommendStrategy_registered a) as Hrec.
  repeat case_match; intros; simplify_eq; simpl;
    try (by repeat constructor).
  all: match goal with
       | |- recommendStrategy ?a ?an ∈ _ =>
           specialize (Hrec an); revert Hrec;
           generalize (recommendStrategy a an); intros st Hst;
           apply elem_of_app with (l1 := [_; _; _]); by left
       end.
Qed.

Lemma sampleWalk_no_panic a interval cancelled walk :
  forall k currentFile an,
    sampleWalk a interval cancelled k walk currentFile an <> Panics.
Proof.
  induction walk as [|d walk IH]; intros k cur an; simpl; [done|].
  repeat case_match; try done; apply IH.
Qed.

(** Property X15. With the four engines of [New] registered and the
    strategy left to the analyzer, [Transfer] never fails for want of
    an engine: the strategy it runs is the analyzer's recommendation
    and one of rclone, rsync, tar and proxy; otherwise the analysis
    itself failed, or the sample size is zero. *)
Theorem automatic_choice_has_engine o cancelled walk requested
    source destination :
  orchestrator.engines o = orchestrator.engines orchestrator.New ->
  requested = StrategyAuto \/ requested = StrategyUnset ->
  match orchestrator.chooseEngine o cancelled walk requested
          source destination with
  | orchestrator.Chosen st =>
      orchestrator.SelectStrategy o cancelled walk source destination
        = Value st /\
      st ∈ [StrategyRclone; StrategyRsync; StrategyTar; StrategyProxy]
  | orchestrator.SelectFailed msg =>
      exists err,
        AnalyzeTransfer (orchestrator.o_analyzer o) cancelled walk
          source destination = Error err /\
        msg = "select strategy: analyze for strategy selection: " +:+ err
  | orchestrator.NoEngine _ => False
  | orchestrator.Panicked =>
      maxSampleSize (orchestrator.o_analyzer o) = 0
  end.
Proof.
  intros Heng Hreq.
  unfold orchestrator.chooseEngine, orchestrator.SelectStrategy,
    orchestrator.GetEngine.
  assert (bool_decide (requested = StrategyAuto)
          || bool_decide (requested = StrategyUnset) = true) as ->.
  { destruct Hreq as [-> | ->]; reflexivity. }
  destruct (AnalyzeTransfer _ _ _ _ _) as [an|err|] eqn:Han.
  - pose proof (AnalyzeTransfer_registered _ _ _ _ _ _ Han) as Hin.
    rewrite Heng.
    assert (Recommendation an ∈ orchestrator.engines orchestrator.New)
      as Hreg.
    { vm_compute orchestrator.engines. done. }
    rewrite bool_decide_eq_true_2 by done. done.
  - exists err. split; [done|]. reflexivity.
  - revert Han. unfold AnalyzeTransfer, Analyze, analyzeLocal,
      samplingInterval.
    repeat case_match; intros; simplify_eq; try done.
    all: try by apply Z.eqb_eq.
    all: by edestruct sampleWalk_no_panic.
Qed.

Lemma automatic_choice_has_engine_witness :
  orchestrator.chooseEngine orchestrator.New (fun _ => false)
    [ {| walkErr := false; isDir := false; info := Some 2048;
         ext := ".txt" |} ]
    StrategyAuto "/srv/data" "/mnt/backup"
    = orchestrator.Chosen StrategyRsync /\
  orchestrator.SelectStrategy orchestrator.New (fun _ => false)
    [ {| walkErr := false; isDir := false; info := Some 2048;
         ext := ".txt" |} ]
    "/srv/data" "/mnt/backup" = Value StrategyRsync /\
  StrategyRsync ∈
    [StrategyRclone; StrategyRsync; StrategyTar; StrategyProxy].
Proof.
  pose proof (automatic_choice_has_engine orchestrator.New (fun _ => false)
    [ {| walkErr := false; isDir := false; info := Some 2048;
         ext := ".txt" |} ]
    StrategyAuto "/srv/data" "/mnt/backup" eq_refl (or_introl eq_refl))
    as H.
  assert (orchestrator.chooseEngine orchestrator.New (fun _ => false)
    [ {| walkErr := false; isDir := false; info := Some 2048;
         ext := ".txt" |} ]
    StrategyAuto "/srv/data" "/mnt/backup"
    = orchestrator.Chosen StrategyRsync) as E by (vm_compute; reflexivity).
  rewrite E in H. split; [exact E|exact H].
Defined.

(** ** From the enumeration to the manifest *)

Section Creation.

Lemma packLoop_nonempty target fs : forall batches cur,
  Forall (fun b => files b <> []) batches ->
  (files cur = [] -> size cur = 0) ->
  let '(batches', cur') := packLoop target fs (batches, cur) in
  Forall (fun b => files b <> []) batches' /\
  (files cur' = [] -> size cur' = 0).
Proof.
  induction fs as [|f fs IH]; intros batches cur Hb Hc; simpl; [done|].
  destruct ((0 <? size cur) && (target <? Int64.add (size cur) (Size f)))
    eqn:Hseal.
  - apply IH.
    + apply Forall_app. split; [done|]. constructor; [|done].
      intros Hnil. apply andb_prop in Hseal as [Hpos%Z.ltb_lt _].
      specialize (Hc Hnil). lia.
    + simpl. done.
  - apply IH; [done|]. simpl. intros Hnil. by destruct (files cur).
Qed.

Lemma binPackFiles_nonempty config fs :
  Forall (fun b => files b <> []) (binPackFiles config fs).
Proof.
  unfold binPackFiles.
  pose proof (packLoop_nonempty (targetSize config) fs [] emptyBatch
                ltac:(constructor) ltac:(done)) as H.
  destruct (packLoop _ fs _) as [batches cur]. destruct H as [Hb Hc].
  destruct (0 <? len (files cur)) eqn:E; [|done].
  apply Forall_app. split; [done|]. constructor; [|done].
  intros Hnil. rewrite Hnil in E. discriminate E.
Qed.

Lemma binPackFiles_concat config fs :
  concat (map files (binPackFiles config fs)) = map Path fs.
Proof.
  unfold binPackFiles.
  pose proof (packLoop_order (targetSize config) fs [] emptyBatch) as H.
  destruct (packLoop _ fs _) as [batches cur]. simpl in H.
  destruct (0 <? len (files cur)) eqn:E.
  - rewrite map_app, concat_app. simpl. by rewrite app_nil_r.
  - apply Z.ltb_ge in E. unfold len in E.
    destruct (files cur); [|simpl in E; lia]. by rewrite app_nil_r in H.
Qed.

Lemma filter_all {A} (P : A -> Prop) `{!forall x, Decision (P x)}
    (l : list A) :
  Forall P l -> filter P l = l.
Proof.
  induction 1 as [|x l Hx _ IH]; [done|].
  rewrite filter_cons_True by done. by rewrite IH.
Qed.

Lemma sumZ_lengths (l : list (list string)) :
  sumZ (map len l) = len (concat l).
Proof.
  unfold len. induction l as [|x l IH]; simpl; [done|].
  rewrite IH, length_app. lia.
Qed.

Lemma addBatches_endpoints cs : forall m1,
  M_Source (addBatches m1 cs) = M_Source m1 /\
  M_Destination (addBatches m1 cs) = M_Destination m1.
Proof.
  induction cs as [|c cs IH]; intros m1; [done|].
  change (addBatches m1 (c :: cs))
    with (addBatches (fst (AddBatch m1 (files c) (size c))) cs).
  destruct (IH (fst (AddBatch m1 (files c) (size c)))) as [-> ->]. done.
Qed.

End Creation.

(** Property X16. A manifest returned by [CreateManifest] covers the
    enumeration: its batches, in order, list exactly the enumerated
    paths; no batch is empty; every batch is pending, counts its own
    files and has its index as id; and [TotalFiles] is the number of
    enumerated files. *)
Theorem CreateManifest_covers_source config id now enumerate
    source destination m :
  CreateManifest config id now enumerate source destination = Ok m ->
  exists fs,
    enumerate (parseLocation source).1.1 (parseLocation source).1.2
      = Ok fs /\
    fs <> [] /\
    concat (map B_Files (M_Batches m)) = map Path fs /\
    Forall (fun b => B_Files b <> [] /\ B_Status b = pending /\
                     B_FileCount b = len (B_Files b)) (M_Batches m) /\
    (forall (i : nat) b, M_Batches m !! i = Some b -> B_ID b = Z.of_nat i) /\
    GetPendingBatches m = M_Batches m /\
    M_Source m = source /\ M_Destination m = destination /\
    (len fs <= max_int -> M_TotalFiles m = len fs).
Proof.
  unfold CreateManifest.
  destruct (parseLocation source) as [[host pth] [err|]]; [done|]. simpl.
  destruct (enumerate host pth) as [fs|err]; [|done].
  destruct (Z.eqb_spec (len fs) 0) as [|Hlen]; [done|]. intros [= <-].
  exists fs. split; [done|].
  split; [by intros ->|].
  set (m0 := NewManifest id now source destination (ChunkSizeMB config)).
  destruct (addBatches_conserved (binPackFiles config fs) m0
              (NewManifest_conserved _ _ _ _ _))
    as (Hfiles & _ & Hids & Hall).
  destruct (addBatches_batches (binPackFiles config fs) m0) as [_ Hmap].
  simpl in Hmap.
  assert (concat (map B_Files (M_Batches
            (addBatches m0 (binPackFiles config fs)))) = map Path fs)
    as Hcat by (by rewrite Hmap, binPackFiles_concat).
  split; [done|]. split.
  { apply Forall_forall. intros b Hb.
    rewrite Forall_forall in Hall. destruct (Hall b Hb) as [Hc Hp].
    split; [|done].
    pose proof (binPackFiles_nonempty config fs) as Hne.
    rewrite Forall_forall in Hne.
    assert (B_Files b ∈ map files (binPackFiles config fs)) as Hin.
    { rewrite <- Hmap. by apply list_elem_of_fmap_2. }
    apply list_elem_of_fmap in Hin as (c & -> & Hc'). by apply Hne. }
  split; [done|]. split.
  { apply filter_all. eapply Forall_impl; [exact Hall|]. by intros b [_ ?]. }
  destruct (addBatches_endpoints (binPackFiles config fs) m0) as [-> ->].
  split; [done|]. split; [done|].
  intros Hfit. rewrite Hfiles, sum64_wrap.
  assert (map B_FileCount (M_Batches (addBatches m0 (binPackFiles config fs)))
          = map len (map B_Files
              (M_Batches (addBatches m0 (binPackFiles config fs)))))
    as ->.
  { rewrite map_map. apply map_ext_Forall.
    eapply Forall_impl; [exact Hall|]. by intros b [? _]. }
  rewrite sumZ_lengths, Hcat. unfold len at 1. rewrite length_map.
  apply wrap64_id. unfold in_range, min_int, len in *. lia.
Qed.

Lemma CreateManifest_covers_source_witness :
  exists m,
    CreateManifest tenMBChunks "manifest-1" 1 (fun _ _ => Ok sixFiles)
      "/srv/data" "/mnt/backup" = Ok m /\
    exists fs,
      (fun _ _ => Ok sixFiles) (parseLocation "/srv/data").1.1
        (parseLocation "/srv/data").1.2 = Ok fs /\
      fs <> [] /\
      concat (map B_Files (M_Batches m)) = map Path fs /\
      Forall (fun b => B_Files b <> [] /\ B_Status b = pending /\
                       B_FileCount b = len (B_Files b)) (M_Batches m) /\
      (forall (i : nat) b,
         M_Batches m !! i = Some b -> B_ID b = Z.of_nat i) /\
      GetPendingBatches m = M_Batches m /\
      M_Source m = "/srv/data" /\ M_Destination m = "/mnt/backup" /\
      (len fs <= max_int -> M_TotalFiles m = len fs).
Proof.
  destruct (CreateManifest tenMBChunks "manifest-1" 1
              (fun _ _ => Ok sixFiles) "/srv/data" "/mnt/backup")
    as [m|err] eqn:Hm; [|vm_compute in Hm; discriminate Hm].
  exists m. split; [reflexivity|].
  exact (CreateManifest_covers_source _ _ _ _ _ _ _ Hm).
Defined.

(** ** Progress of a manifest *)

Section Progress.

Lemma count_completed l : forall n,
  0 <= n -> n + len l <= max_int ->
  fold_left
    (fun n b =>
       if bool_decide (B_Status b = completed) then Int64.add n 1 else n)
    l n
  = n + len (filter (fun b => B_Status b = completed) l).
Proof.
  unfold len. induction l as [|b l IH]; intros n Hn Hmax; simpl.
  - lia.
  - rewrite length_cons, Nat2Z.inj_succ in Hmax.
    destruct (decide (B_Status b = completed)) as [Hc|Hc].
    + rewrite bool_decide_eq_true_2, filter_cons_True by done.
      unfold Int64.add. rewrite wrap64_id
        by (unfold in_range, min_int; lia).
      rewrite IH by lia. rewrite length_cons. lia.
    + rewrite bool_decide_eq_false_2, filter_cons_False by done.
      apply IH; lia.
Qed.

Lemma filter_disjoint_length {A} (P Q : A -> Prop)
    `{!forall x, Decision (P x)} `{!forall x, Decision (Q x)} (l : list A) :
  (forall x, P x -> Q x -> False) ->
  (length (filter P l) + length (filter Q l) <= length l)%nat.
Proof.
  intros Hd. induction l as [|x l IH]; simpl; [done|].
  destruct (decide (P x)) as [HP|HP], (decide (Q x)) as [HQ|HQ].
  - by destruct (Hd x).
  - rewrite filter_cons_True, (filter_cons_False Q) by done. simpl. lia.
  - rewrite (filter_cons_False P), (filter_cons_True Q) by done. simpl. lia.
  - rewrite (filter_cons_False P), (filter_cons_False Q) by done. lia.
Qed.

Lemma filter_full {A} (P : A -> Prop) `{!forall x, Decision (P x)}
    (l : list A) :
  length (filter P l) = length l -> Forall P l.
Proof.
  induction l as [|x l IH]; [done|].
  destruct (decide (P x)) as [HP|HP].
  - rewrite filter_cons_True by done. simpl. intros [= Heq].
    constructor; [done|by apply IH].
  - rewrite filter_cons_False by done. simpl.
    pose proof (length_filter P l). lia.
Qed.

End Progress.

(** Property X17. [GetProgress] reports the number of batches and a
    completed count between zero and that number; completed and
    pending batches together never exceed it, and the two are equal
    exactly when every batch is completed. *)
Theorem GetProgress_counts m :
  len (M_Batches m) <= max_int ->
  let '(completedCount, total, _) := progress.GetProgress m in
  total = len (M_Batches m) /\
  0 <= completedCount /\
  completedCount + len (GetPendingBatches m) <= total /\
  (completedCount = total <->
   Forall (fun b => B_Status b = completed) (M_Batches m)).
Proof.
  intros Hlen. unfold progress.GetProgress, GetPendingBatches.
  rewrite count_completed by lia. unfold len in *.
  split; [done|]. split; [lia|]. split.
  - pose proof (filter_disjoint_length
                  (fun b => B_Status b = completed)
                  (fun b => B_Status b = pending) (M_Batches m)) as H.
    rewrite Z.add_0_l. rewrite <- Nat2Z.inj_add. apply Nat2Z.inj_le.
    apply H. intros b H1 H2. congruence.
  - rewrite Z.add_0_l. split.
    + intros H%Nat2Z.inj.
      by apply (filter_full (fun b => B_Status b = completed)).
    + intros H.
      by rewrite (filter_all (fun b => B_Status b = completed) _ H).
Qed.

Lemma GetProgress_counts_witness :
  let m :=
    {| M_ID := "manifest-1"; M_CreatedAt := 1; M_Source := "/srv/data";
       M_Destination := "/mnt/backup"; M_TotalFiles := 3; M_TotalSize := 30;
       M_ChunkSizeMB := 50;
       M_Batches :=
         [ {| B_ID := 0; B_Files := ["a.txt"; "b.txt"]; B_Size := 10;
              B_FileCount := 2; B_Status := completed; B_LocalPath := "";
              B_Error := "" |};
           {| B_ID := 1; B_Files := ["c.txt"]; B_Size := 20;
              B_FileCount := 1; B_Status := pending; B_LocalPath := "";
              B_Error := "" |} ];
       M_Status := m_in_progress |} in
  len (M_Batches m) <= max_int /\
  let '(completedCount, total, _) := progress.GetProgress m in
  total = len (M_Batches m) /\
  0 <= completedCount /\
  completedCount + len (GetPendingBatches m) <= total /\
  (completedCount = total <->
   Forall (fun b => B_Status b = completed) (M_Batches m)).
Proof.
  intros m.
  assert (len (M_Batches m) <= max_int) as H by (vm_compute; discriminate).
  split; [exact H|]. exact (GetProgress_counts m H).
Defined.

(** ** Reading the output of find *)

Section FindOutput.

Lemma digit_char d :
  (d < 10)%N ->
  isDigit (pretty_N_char d) = true /\
  digitValue (pretty_N_char d) = Z.of_N d.
Proof.
  intros Hd.
  assert (d = 0 \/ d = 1 \/ d = 2 \/ d = 3 \/ d = 4 \/ d = 5 \/ d = 6 \/
          d = 7 \/ d = 8 \/ d = 9)%N as H by lia.
  repeat (destruct H as [->|H]; [by vm_compute|]). subst. by vm_compute.
Qed.

Lemma isDigit_not_sign c :
  isDigit c = true ->
  Ascii.eqb c "+" = false /\ Ascii.eqb c "-" = false.
Proof.
  destruct c as [[] [] [] [] [] [] [] []]; vm_compute; intros; by try done.
Qed.

Lemma isDigit_other d c :
  isDigit d = true -> isDigit c = false -> Ascii.eqb d c = false.
Proof.
  intros Hd Hc. apply Ascii.eqb_neq. intros ->. congruence.
Qed.

Lemma parseDigits_pretty_go x : forall s,
  parseDigits (pretty_N_go x s) 0 = parseDigits s (Z.of_N x).
Proof.
  induction (N.lt_wf_0 x) as [x _ IH]; intros s.
  destruct (N.eq_dec x 0%N) as [->|Hx]; [by rewrite pretty_N_go_0|].
  rewrite pretty_N_go_step by lia.
  rewrite IH by (apply N.div_lt; lia).
  destruct (digit_char (x `mod` 10)%N) as [Hd Hv];
    [apply N.mod_lt; lia|].
  cbn [parseDigits]. rewrite Hd, Hv. f_equal.
  replace (Z.of_N (x `div` 10) * 10 + Z.of_N (x `mod` 10))
    with (Z.of_N (10 * (x `div` 10) + x `mod` 10))
    by (rewrite N2Z.inj_add, N2Z.inj_mul; lia).
  by rewrite <- N.div_mod.
Qed.

Lemma pretty_go_head x : forall s,
  (0 < x)%N ->
  exists c rest, pretty_N_go x s = String c rest /\ isDigit c = true.
Proof.
  induction (N.lt_wf_0 x) as [x _ IH]; intros s Hx.
  rewrite pretty_N_go_step by done.
  destruct (N.eq_dec (x `div` 10)%N 0%N) as [E|E].
  - rewrite E, pretty_N_go_0. eexists _, _. split; [done|].
    apply digit_char, N.mod_lt. lia.
  - apply IH; [apply N.div_lt; lia|by apply N.neq_0_lt_0].
Qed.

Lemma pretty_go_digits x c : forall s,
  isDigit c = false ->
  Index s c = None -> Index (pretty_N_go x s) c = None.
Proof.
  intros s Hc. revert s.
  induction (N.lt_wf_0 x) as [x _ IH]; intros s Hs.
  destruct (N.eq_dec x 0%N) as [->|Hx]; [by rewrite pretty_N_go_0|].
  rewrite pretty_N_go_step by lia. apply IH; [apply N.div_lt; lia|].
  destruct (digit_char (x `mod` 10)%N) as [Hd _]; [apply N.mod_lt; lia|].
  cbn [Index]. by rewrite (isDigit_other _ _ Hd Hc), Hs.
Qed.

Lemma parseDigits_nonneg s : forall acc v,
  0 <= acc -> parseDigits s acc = Some v -> 0 <= v.
Proof.
  induction s as [|c s IH]; intros acc v Hacc; simpl.
  - by intros [= <-].
  - destruct (isDigit c) eqn:Hc; [|done]. apply IH.
    unfold isDigit in Hc. apply andb_prop in Hc as [H1%Nat.leb_le _].
    unfold digitValue. lia.
Qed.

Lemma ParseInt_range s v : ParseInt s = Some v -> in_range v.
Proof.
  unfold ParseInt. destruct s as [|c rest]; [done|].
  destruct (Ascii.eqb c "+"); [|destruct (Ascii.eqb c "-")].
  - destruct rest as [|c' r]; [done|].
    destruct (parseDigits _ 0) as [un|] eqn:Hp; [|done].
    pose proof (parseDigits_nonneg _ 0 _ ltac:(lia) Hp).
    destruct (Z.leb_spec un max_int); [|done]. intros [= <-].
    unfold in_range, min_int. lia.
  - destruct rest as [|c' r]; [done|].
    destruct (parseDigits _ 0) as [un|] eqn:Hp; [|done].
    pose proof (parseDigits_nonneg _ 0 _ ltac:(lia) Hp).
    destruct (Z.leb_spec un 9223372036854775808); [|done]. intros [= <-].
    unfold in_range, min_int, max_int. lia.
  - destruct (parseDigits _ 0) as [un|] eqn:Hp; [|done].
    pose proof (parseDigits_nonneg _ 0 _ ltac:(lia) Hp).
    destruct (Z.leb_spec un max_int); [|done]. intros [= <-].
    unfold in_range, min_int. lia.
Qed.

Lemma ParseInt_pretty n : in_range n -> ParseInt (pretty n) = Some n.
Proof.
  unfold in_range, min_int, max_int. intros Hn.
  destruct n as [|p|p]; [done| |].
  - change (pretty (Z.pos p)) with (pretty_N_go (N.pos p) "").
    destruct (pretty_go_head (N.pos p) "" ltac:(lia)) as (c & rest & E & Hc).
    pose proof (parseDigits_pretty_go (N.pos p) "") as Hd.
    rewrite E in *. unfold ParseInt.
    destruct (isDigit_not_sign c Hc) as (-> & ->).
    rewrite Hd. simpl. unfold max_int.
    by rewrite (proj2 (Z.leb_le _ _)) by lia.
  - change (pretty (Z.neg p)) with (String "-" (pretty_N_go (N.pos p) "")).
    destruct (pretty_go_head (N.pos p) "" ltac:(lia)) as (c & rest & E & Hc).
    pose proof (parseDigits_pretty_go (N.pos p) "") as Hd.
    rewrite E in *. unfold ParseInt.
    change (Ascii.eqb "-" "+") with false.
    change (Ascii.eqb "-" "-") with true. cbv iota beta.
    rewrite Hd. simpl.
    by rewrite (proj2 (Z.leb_le _ _)) by lia.
Qed.

(** The decimal text of a number has digits and the sign only. *)
Lemma pretty_digits (n : Z) c :
  isDigit c = false -> c <> "-"%char -> Index (pretty n) c = None.
Proof.
  intros Hc Hsign. destruct n as [|p|p].
  - change (pretty 0) with "0". cbn [Index].
    by rewrite (isDigit_other "0" c eq_refl Hc).
  - change (pretty (Z.pos p)) with (pretty_N_go (N.pos p) "").
    by apply pretty_go_digits.
  - change (pretty (Z.neg p)) with (String "-" (pretty_N_go (N.pos p) "")).
    cbn [Index]. rewrite (proj2 (Ascii.eqb_neq "-" c)) by done.
    by rewrite pretty_go_digits.
Qed.

Lemma pretty_no_space (n : Z) : Index (pretty n) " " = None.
Proof. by apply pretty_digits. Qed.

Lemma pretty_not_empty (n : Z) : pretty n <> "".
Proof.
  destruct n as [|p|p]; [done| |done].
  change (pretty (Z.pos p)) with (pretty_N_go (N.pos p) "").
  destruct (pretty_go_head (N.pos p) "" ltac:(lia)) as (c & rest & -> & _).
  done.
Qed.

Lemma cutLines_line line rest :
  Index line LF = None ->
  cutLines (line +:+ String LF rest) = line :: cutLines rest.
Proof.
  induction line as [|x line IH]; intros Hno.
  - rewrite append_nil. reflexivity.
  - rewrite append_cons. cbn [cutLines].
    cbn [Index] in Hno. destruct (Ascii.eqb x LF); [done|].
    rewrite IH; [done|]. by destruct (Index line LF).
Qed.

Lemma dropCR_keeps s : endsWith s CR = false -> dropCR s = s.
Proof.
  induction s as [|x s IH]; [done|]. cbn [endsWith dropCR].
  destruct (String.eqb s "") eqn:E.
  - apply String.eqb_eq in E as ->. by intros ->.
  - intros H. rewrite andb_false_r. by rewrite IH.
Qed.

Lemma endsWith_app a b c :
  b <> "" -> endsWith (a +:+ b) c = endsWith b c.
Proof.
  intros Hb. induction a as [|x a IH]; [done|].
  rewrite append_cons. cbn [endsWith].
  destruct (String.eqb (a +:+ b) "") eqn:E; [|done].
  apply String.eqb_eq in E. destruct a; [|done]. by destruct b.
Qed.

(** The scanner yields a line that [find] printed as it was printed,
    when the line has no LF inside and no CR at its end. *)
Lemma ScanLines_line line rest :
  Index line LF = None -> endsWith line CR = false ->
  ScanLines (line +:+ String LF rest) = line :: ScanLines rest.
Proof.
  intros Hno Hcr. unfold ScanLines. rewrite cutLines_line by done.
  cbn [map]. by rewrite dropCR_keeps.
Qed.

Lemma ScanLines_printed (n : Z) sep p rest :
  Index sep LF = None -> p <> "" ->
  Index p LF = None -> endsWith p CR = false ->
  ScanLines (pretty n +:+ sep +:+ p +:+ String LF rest)
    = (pretty n +:+ sep +:+ p) :: ScanLines rest.
Proof.
  intros Hsep Hp Hlf Hcr.
  rewrite <- (append_assoc sep p), <- (append_assoc (pretty n)).
  apply ScanLines_line.
  - rewrite (Index_app_None _ _ _ (pretty_digits n LF eq_refl ltac:(done))).
    by rewrite (Index_app_None _ _ _ Hsep), Hlf.
  - rewrite !endsWith_app; [done|done|]. destruct sep, p; done.
Qed.

Lemma parseFindLine_printed n q :
  in_range n ->
  parseFindLine (pretty n +:+ String " " q)
  = let relPath := trimDotSlash q in
    if String.eqb relPath "" || String.eqb relPath "." then None
    else Some {| Path := relPath; Size := n |}.
Proof.
  intros Hn. unfold parseFindLine.
  rewrite (Index_app_None _ _ _ (pretty_no_space n)), Index_here. simpl.
  rewrite Nat.add_0_r.
  assert (slice (pretty n +:+ String " " q) 0 (String.length (pretty n))
          = pretty n) as ->.
  { unfold slice. rewrite Nat.sub_0_r. apply substring_prefix. }
  rewrite ParseInt_pretty by done.
  assert (sliceFrom (pretty n +:+ String " " q)
                    (String.length (pretty n) + 1) = q) as ->; [|done].
  change (String " " q) with (" " +:+ q).
  rewrite <- append_assoc.
  replace (String.length (pretty n) + 1)%nat
    with (String.length (pretty n +:+ " "))
    by (rewrite length_app_string; done).
  apply sliceFrom_suffix.
Qed.

Lemma omap_length_le {A B} (f : A -> option B) (l : list A) :
  (length (omap f l) <= length l)%nat.
Proof.
  induction l as [|x l IH]; csimpl; [done|]. destruct (f x); csimpl; lia.
Qed.

End FindOutput.



(** Property X19. [enumerateFiles] returns files only when the command
    and the scanner both succeeded; there are at most as many as
    lines, each read from one of the lines, with a size that fits in
    an int64 and a path that is neither empty nor the dot. *)
Theorem enumerateFiles_entries output scanErr fs :
  enumerateFiles output scanErr = Ok fs ->
  exists lines,
    output = Ok lines /\ scanErr = None /\
    (length fs <= length lines)%nat /\
    Forall (fun f => in_range (Size f) /\ Path f <> "" /\ Path f <> "." /\
                     exists line, line ∈ lines /\ parseFindLine line = Some f)
           fs.
Proof.
  unfold enumerateFiles. destruct output as [lines|err]; [|done].
  destruct scanErr as [err|]; [done|]. intros [= <-].
  exists lines. split; [done|]. split; [done|]. split.
  - apply omap_length_le.
  - apply Forall_forall. intros f Hf.
    apply list_elem_of_omap in Hf as (line & Hline & Hparse).
    assert (in_range (Size f) /\ Path f <> "" /\ Path f <> ".")
      as (H1 & H2 & H3).
    { revert Hparse. unfold parseFindLine.
      destruct (Index line " ") as [i|]; [|done].
      destruct (ParseInt _) as [sz|] eqn:Hsz; [|done].
      destruct (String.eqb_spec (trimDotSlash (sliceFrom line (i + 1))) "");
        [done|].
      destruct (String.eqb_spec (trimDotSlash (sliceFrom line (i + 1))) ".");
        [done|].
      simpl. intros [= <-]. simpl. split; [|done].
      by eapply ParseInt_range. }
    split; [done|]. split; [done|]. split; [done|]. by exists line.
Qed.

Lemma enumerateFiles_entries_witness :
  exists fs,
    enumerateFiles (Ok ["120 ./a.txt"; "total 3"; "7 ."; "33 ./b c.txt"]) None
      = Ok fs /\
    exists lines,
      Ok ["120 ./a.txt"; "total 3"; "7 ."; "33 ./b c.txt"] = Ok lines /\
      @None string = None /\
      (length fs <= length lines)%nat /\
      Forall (fun f => in_range (Size f) /\ Path f <> "" /\ Path f <> "." /\
                exists line, line ∈ lines /\ parseFindLine line = Some f)
             fs.
Proof.
  destruct (enumerateFiles
              (Ok ["120 ./a.txt"; "total 3"; "7 ."; "33 ./b c.txt"]) None)
    as [fs|err] eqn:H; [|vm_compute in H; discriminate H].
  exists fs. split; [reflexivity|].
  exact (enumerateFiles_entries _ _ _ H).
Defined.

(** ** A batch larger than the buffer *)

Section Oversize.

Lemma ReserveSpace_oversize bm size :
  maxSize bm < size -> in_range size ->
  0 <= currentSize bm <= max_int -> currentSize bm + size <= max_int ->
  ReserveSpace bm size = (false, bm).
Proof.
  intros Hbig Hsize Hcur Hfit. rewrite ReserveSpace_cases.
  unfold Int64.add. rewrite wrap64_id
    by (unfold in_range, min_int in *; lia).
  by rewrite decide_False by lia.
Qed.

Lemma reserveLoop_oversize size ws : forall bm,
  maxSize bm < size -> in_range size ->
  0 <= currentSize bm <= max_int -> currentSize bm + size <= max_int ->
  keepsNonneg (currentSize bm) ws ->
  exists bm',
    maxSize bm' = maxSize bm /\
    (reserveLoop bm size ws = (bm', Spinning) /\ Stopped ∉ ws \/
     reserveLoop bm size ws
       = (bm', Return (Some "stopped while waiting for buffer space")) /\
     Stopped ∈ ws).
Proof.
  induction ws as [|e ws IH]; intros bm Hbig Hsize Hcur Hfit Hws; pose proof Hsize as [Hlow _].
  - exists bm. split; [done|]. left. split; [|by intros ?%elem_of_nil].
    cbn [reserveLoop]. by rewrite ReserveSpace_oversize.
  - cbn [reserveLoop]. rewrite ReserveSpace_oversize by done.
    destruct e as [|n].
    + exists bm. split; [done|]. right. split; [done|]. by left.
    + destruct Hws as (Hn & Hrest & Hws).
      assert (currentSize (ReleaseSpace bm n) = currentSize bm - n) as Hrel.
      { unfold ReleaseSpace, Int64.add, Int64.neg. simpl.
        rewrite wrap64_add_r. apply wrap64_id.
        unfold in_range, min_int in *. lia. }
      destruct (IH (ReleaseSpace bm n)) as (bm' & Hmax & Hcase);
        [done|done|rewrite Hrel; lia|rewrite Hrel; lia|by rewrite Hrel|].
      exists bm'. split; [done|].
      destruct Hcase as [[-> Hno]|[-> Hyes]].
      * left. split; [done|].
        intros [?|?]%elem_of_cons; [done|by apply Hno].
      * right. split; [done|]. by right.
Qed.

End Oversize.



(** ** Sizes from the enumeration to the manifest *)

Section Sizes.

Lemma sumZ_app a b : sumZ (a ++ b) = sumZ a + sumZ b.
Proof.
  unfold sumZ. induction a as [|x a IH]; simpl; [lia|]. rewrite IH. lia.
Qed.

Lemma sumZ_one x : sumZ [x] = x.
Proof. unfold sumZ. cbn [fold_right]. lia. Qed.

Lemma packFile_sizes target batches cur f :
  wrap64 (sumZ (map size (fst (packFile target (batches, cur) f)))
          + size (snd (packFile target (batches, cur) f)))
  = wrap64 (sumZ (map size batches) + size cur + Size f).
Proof.
  unfold packFile.
  destruct ((0 <? size cur) && (target <? Int64.add (size cur) (Size f)));
    cbn [fst snd size].
  - change (size emptyBatch) with 0.
    rewrite map_app, sumZ_app. cbn [map]. rewrite sumZ_one.
    unfold Int64.add. rewrite wrap64_add_r.
    generalize (sumZ (map size batches)) (size cur) (Size f).
    intros a b c. f_equal; lia.
  - unfold Int64.add. rewrite wrap64_add_r.
    generalize (sumZ (map size batches)) (size cur) (Size f).
    intros a b c. f_equal; lia.
Qed.

Lemma wrap64_congr_add a b c : wrap64 a = wrap64 b -> wrap64 (a + c) = wrap64 (b + c).
Proof.
  intros H. rewrite <- (wrap64_add_l a c), <- (wrap64_add_l b c). by rewrite H.
Qed.

Lemma packLoop_sizes target fs : forall batches cur,
  wrap64 (sumZ (map size (fst (packLoop target fs (batches, cur))))
          + size (snd (packLoop target fs (batches, cur))))
  = wrap64 (sumZ (map size batches) + size cur + totalSize fs).
Proof.
  induction fs as [|f fs IH]; intros batches cur.
  - cbn [packLoop fst snd]. change (totalSize []) with 0. f_equal. lia.
  - cbn [packLoop].
    destruct (packFile target (batches, cur) f) as [b1 c1] eqn:Hstep.
    rewrite IH.
    pose proof (packFile_sizes target batches cur f) as Hone.
    rewrite Hstep in Hone. cbn [fst snd] in Hone.
    rewrite (wrap64_congr_add _ _ (totalSize fs) Hone).
    change (totalSize (f :: fs)) with (Size f + totalSize fs).
    generalize (sumZ (map size batches)) (size cur) (Size f) (totalSize fs).
    intros a b c d. f_equal; lia.
Qed.

Lemma binPackFiles_sizes config fs :
  wrap64 (sumZ (map size (binPackFiles config fs))) = wrap64 (totalSize fs).
Proof.
  unfold binPackFiles.
  pose proof (packLoop_sizes (targetSize config) fs [] emptyBatch) as H.
  pose proof (packLoop_nonempty (targetSize config) fs [] emptyBatch
                ltac:(constructor) ltac:(done)) as Hne.
  destruct (packLoop _ fs _) as [batches cur]. cbn [fst snd] in H.
  change (sumZ (map size [])) with 0 in H.
  change (size emptyBatch) with 0 in H.
  replace (0 + 0 + totalSize fs) with (totalSize fs) in H by lia.
  destruct Hne as [_ Hcur].
  destruct (0 <? len (files cur)) eqn:E.
  - rewrite map_app, sumZ_app. cbn [map]. by rewrite sumZ_one.
  - apply Z.ltb_ge in E. unfold len in E.
    destruct (files cur) eqn:Hf; [|cbn [length] in E; lia].
    rewrite Hcur in H by done. rewrite <- H. f_equal. lia.
Qed.

End Sizes.

(** Property X21. The total size of a manifest returned by
    [CreateManifest] is the sum of the declared sizes of its batches
    and the sum of the sizes of the enumerated files, both in int64
    arithmetic; it is the exact sum whenever that fits in an int64. *)
Theorem CreateManifest_total_size config id now enumerate
    source destination m fs :
  CreateManifest config id now enumerate source destination = Ok m ->
  enumerate (parseLocation source).1.1 (parseLocation source).1.2 = Ok fs ->
  M_TotalSize m = sum64 (map B_Size (M_Batches m)) /\
  M_TotalSize m = sum64 (map Size fs) /\
  (in_range (totalSize fs) -> M_TotalSize m = totalSize fs).
Proof.
  unfold CreateManifest.
  destruct (parseLocation source) as [[host pth] [err|]]; [done|].
  cbn [fst snd]. intros Hm Hfs. rewrite Hfs in Hm.
  destruct (len fs =? 0); [done|]. injection Hm as <-.
  set (m0 := NewManifest id now source destination (ChunkSizeMB config)).
  destruct (addBatches_conserved (binPackFiles config fs) m0
              (NewManifest_conserved _ _ _ _ _))
    as (_ & Hsize & _ & _).
  destruct (addBatches_batches (binPackFiles config fs) m0) as [Hmap _].
  change (map B_Size (M_Batches m0)) with (@nil Z) in Hmap.
  rewrite app_nil_l in Hmap.
  assert (M_TotalSize (addBatches m0 (binPackFiles config fs))
          = wrap64 (totalSize fs)) as Htot.
  { rewrite Hsize, Hmap, sum64_wrap. apply binPackFiles_sizes. }
  split; [done|]. split.
  - by rewrite Htot, sum64_wrap.
  - intros Hr. rewrite Htot. by apply wrap64_id.
Qed.

Lemma CreateManifest_total_size_witness :
  exists m,
    CreateManifest tenMBChunks "manifest-1" 1 (fun _ _ => Ok sixFiles)
      "/srv/data" "/mnt/backup" = Ok m /\
    M_TotalSize m = sum64 (map B_Size (M_Batches m)) /\
    M_TotalSize m = sum64 (map Size sixFiles) /\
    (in_range (totalSize sixFiles) -> M_TotalSize m = totalSize sixFiles).
Proof.
  destruct (CreateManifest tenMBChunks "manifest-1" 1
              (fun _ _ => Ok sixFiles) "/srv/data" "/mnt/backup")
    as [m|err] eqn:Hm; [|vm_compute in Hm; discriminate Hm].
  exists m. split; [reflexivity|].
  exact (CreateManifest_total_size tenMBChunks "manifest-1" 1
           (fun _ _ => Ok sixFiles) "/srv/data" "/mnt/backup" m sixFiles
           Hm eq_refl).
Defined.
